(** * A discrete-time workflow executor: embedding and verification

    The functional executor ([initializeWorkflow], [updateRunningTasks],
    [startNewTasks], [next], [runAll]) and the class-based one
    ([TaskQueue]) are embedded here as Rocq functions.

    Modelling choices, all read off the source:
    - a JavaScript [Map] iterates in insertion order and [set] on a key
      that is already there keeps the key's position: it is an
      association list, [map_set] replacing in place or appending;
    - a JavaScript [Set] iterates in insertion order: a list, [set_add]
      appending an element that is not there yet;
    - [number] is read as an integer ([Z]); [null + n] is [n];
    - a property read on [undefined] throws a [TypeError];
    - loops carry fuel, and running out of it is an outcome of its own. *)

From Stdlib Require Import List ListDec ZArith String Bool Lia Relations.
From Stdlib Require Import DecimalString.
Import ListNotations.
Local Open Scope string_scope.
Local Open Scope list_scope.
Local Open Scope Z_scope.

(** ** Outcomes of a call *)

Inductive Exn : Type := TypeError.

Inductive Outcome (A : Type) : Type :=
| Ok (a : A)
| Throw (e : Exn)
| OutOfFuel.

Arguments Ok {A} a.
Arguments Throw {A} e.
Arguments OutOfFuel {A}.

Definition bind {A B : Type} (m : Outcome A) (k : A -> Outcome B) : Outcome B :=
  match m with
  | Ok a => k a
  | Throw e => Throw e
  | OutOfFuel => OutOfFuel
  end.

Notation "x <- m ;; k" := (bind m (fun x => k))
  (at level 61, m at next level, right associativity).

(** ** Types *)

Definition TaskId : Type := string.

Record Task : Type := mkTask {
  id : TaskId;
  time : Z;
  deps : list TaskId
}.

Inductive Status : Type := pending | running | completed.

Record TaskState : Type := mkTaskState {
  tid : TaskId;
  ttime : Z;
  tdeps : list TaskId;
  status : Status;
  startTime : option Z;
  endTime : option Z
}.

(** [Map<TaskId, TaskState>] in insertion order. *)
Definition TaskMap : Type := list (TaskId * TaskState).

(** [Set<TaskId>] in insertion order. *)
Definition TaskSet : Type := list TaskId.

Record WorkflowState : Type := mkState {
  tasks : TaskMap;
  currentTime : Z;
  runningTasks : TaskSet;
  maxConcurrent : Z
}.

Definition status_eqb (a b : Status) : bool :=
  match a, b with
  | pending, pending | running, running | completed, completed => true
  | _, _ => false
  end.

(** ** Map and Set primitives *)

Fixpoint map_get (k : TaskId) (m : TaskMap) : option TaskState :=
  match m with
  | [] => None
  | (k', v) :: m' => if String.eqb k k' then Some v else map_get k m'
  end.

Fixpoint map_set (k : TaskId) (v : TaskState) (m : TaskMap) : TaskMap :=
  match m with
  | [] => [(k, v)]
  | (k', v') :: m' =>
      if String.eqb k k' then (k', v) :: m' else (k', v') :: map_set k v m'
  end.

Definition map_keys (m : TaskMap) : list TaskId := List.map fst m.
Definition map_values (m : TaskMap) : list TaskState := List.map snd m.

(** [new Map(entries)]: the entries are set one after the other. *)
Definition map_of_entries (es : list (TaskId * TaskState)) : TaskMap :=
  fold_left (fun m e => map_set (fst e) (snd e) m) es [].

Definition set_has (k : TaskId) (s : TaskSet) : bool :=
  existsb (String.eqb k) s.

Definition set_add (k : TaskId) (s : TaskSet) : TaskSet :=
  if set_has k s then s else s ++ [k].

Definition set_delete (k : TaskId) (s : TaskSet) : TaskSet :=
  filter (fun x => negb (String.eqb k x)) s.

Definition set_size (s : TaskSet) : Z := Z.of_nat (List.length s).

(** ** Pure functions for task management *)

Definition createTaskState (task : Task) : TaskState :=
  {| tid := id task; ttime := time task; tdeps := deps task;
     status := pending; startTime := None; endTime := None |}.

Definition initializeWorkflow (tasks0 : list Task) (maxConcurrent0 : Z)
  : WorkflowState :=
  {| tasks := map_of_entries
                (List.map (fun task => (id task, createTaskState task)) tasks0);
     currentTime := 0;
     runningTasks := [];
     maxConcurrent := maxConcurrent0 |}.

(** [task?.status === 'completed'] is false on a missing entry. *)
Definition isDependencyCompleted (dependency : TaskId) (m : TaskMap) : bool :=
  match map_get dependency m with
  | Some task => status_eqb (status task) completed
  | None => false
  end.

Definition canStartTask (taskId : TaskId) (s : WorkflowState) : bool :=
  match map_get taskId (tasks s) with
  | Some task =>
      status_eqb (status task) pending
      && forallb (fun depId => isDependencyCompleted depId (tasks s)) (tdeps task)
  | None => false
  end.

Definition getAvailableTasks (s : WorkflowState) : list TaskState :=
  filter (fun task => canStartTask (tid task) s) (map_values (tasks s)).

(** [null] counts as [0] in an addition. *)
Definition num (x : option Z) : Z :=
  match x with Some z => z | None => 0 end.

Definition due (now : Z) (task : TaskState) : bool :=
  num (startTime task) + ttime task <=? now.

Definition complete (now : Z) (task : TaskState) : TaskState :=
  {| tid := tid task; ttime := ttime task; tdeps := tdeps task;
     status := completed; startTime := startTime task; endTime := Some now |}.

Definition start (now : Z) (task : TaskState) : TaskState :=
  {| tid := tid task; ttime := ttime task; tdeps := tdeps task;
     status := running; startTime := Some now; endTime := endTime task |}.

(** The [forEach] of [updateRunningTasks]: it walks the running set of the
    incoming state and updates the two copies. *)
Fixpoint forEachRunning (now : Z) (ids : list TaskId)
    (newTasks : TaskMap) (newRunningTasks : TaskSet)
  : Outcome (TaskMap * TaskSet) :=
  match ids with
  | [] => Ok (newTasks, newRunningTasks)
  | taskId :: rest =>
      match map_get taskId newTasks with
      | None => Throw TypeError
      | Some task =>
          if due now task
          then forEachRunning now rest
                 (map_set taskId (complete now task) newTasks)
                 (set_delete taskId newRunningTasks)
          else forEachRunning now rest newTasks newRunningTasks
      end
  end.

Definition updateRunningTasks (s : WorkflowState) : Outcome WorkflowState :=
  r <- forEachRunning (currentTime s) (runningTasks s) (tasks s) (runningTasks s) ;;
  Ok {| tasks := fst r; currentTime := currentTime s;
        runningTasks := snd r; maxConcurrent := maxConcurrent s |}.

(** The body of the [while] of [startNewTasks] for the chosen task. *)
Definition startTask (s : WorkflowState) (taskToStart : TaskState) : WorkflowState :=
  {| tasks := map_set (tid taskToStart) (start (currentTime s) taskToStart) (tasks s);
     currentTime := currentTime s;
     runningTasks := set_add (tid taskToStart) (runningTasks s);
     maxConcurrent := maxConcurrent s |}.

Fixpoint startLoop (fuel : nat) (s : WorkflowState) : Outcome WorkflowState :=
  match fuel with
  | O => OutOfFuel
  | S fuel' =>
      if set_size (runningTasks s) <? maxConcurrent s then
        match getAvailableTasks s with
        | [] => Ok s
        | taskToStart :: _ => startLoop fuel' (startTask s taskToStart)
        end
      else Ok s
  end.

(** Every turn of the loop takes one pending entry of the map away, so the
    number of entries plus one bounds the number of tests of the condition. *)
Definition startNewTasks (s : WorkflowState) : Outcome WorkflowState :=
  startLoop (S (List.length (tasks s))) s.

Definition hasUnfinishedTasks (s : WorkflowState) : bool :=
  existsb (fun task => negb (status_eqb (status task) completed))
          (map_values (tasks s)).

Definition advance (s : WorkflowState) : WorkflowState :=
  {| tasks := tasks s; currentTime := currentTime s + 1;
     runningTasks := runningTasks s; maxConcurrent := maxConcurrent s |}.

Definition next (s : WorkflowState) : Outcome (WorkflowState * bool) :=
  s1 <- updateRunningTasks s ;;
  s2 <- startNewTasks s1 ;;
  if 0 <? set_size (runningTasks s2)
  then Ok (advance s2, true)
  else Ok (s2, hasUnfinishedTasks s2).

(** The [do ... while] of [runAll]; [fuel] bounds the number of ticks. *)
Fixpoint runAll (fuel : nat) (s : WorkflowState) : Outcome WorkflowState :=
  match fuel with
  | O => OutOfFuel
  | S fuel' =>
      r <- next s ;;
      if snd r then runAll fuel' (fst r) else Ok (fst r)
  end.

(** ** Example usage *)

Definition tasks_2 : list Task :=
  [ mkTask "A" 3 [];
    mkTask "B" 2 ["A"];
    mkTask "C" 1 ["A"];
    mkTask "D" 4 ["B"; "C"];
    mkTask "E" 1 ["D"] ].

Definition initialState : WorkflowState := initializeWorkflow tasks_2 2.


(** ** The tick as a step relation

    A configuration is the phase the driver is in and its state.  A tick
    starts in [TickStart]; the completion pass leads to [Admitting], where
    each turn of the [while] of [startNewTasks] is a step; leaving the loop
    either advances the clock, or reports continue without a change, or
    reports stop. *)

Inductive Phase : Type := TickStart | Admitting | Stopped.

Definition loopExits (s : WorkflowState) : Prop :=
  (set_size (runningTasks s) <? maxConcurrent s) = false \/ getAvailableTasks s = [].

Inductive step : Phase * WorkflowState -> Phase * WorkflowState -> Prop :=
| step_complete s s' :
    updateRunningTasks s = Ok s' ->
    step (TickStart, s) (Admitting, s')
| step_startTask s taskToStart rest :
    (set_size (runningTasks s) <? maxConcurrent s) = true ->
    getAvailableTasks s = taskToStart :: rest ->
    step (Admitting, s) (Admitting, startTask s taskToStart)
| step_advance s :
    loopExits s ->
    (0 <? set_size (runningTasks s)) = true ->
    step (Admitting, s) (TickStart, advance s)
| step_idle s :
    loopExits s ->
    (0 <? set_size (runningTasks s)) = false ->
    hasUnfinishedTasks s = true ->
    step (Admitting, s) (TickStart, s)
| step_stop s :
    loopExits s ->
    (0 <? set_size (runningTasks s)) = false ->
    hasUnfinishedTasks s = false ->
    step (Admitting, s) (Stopped, s).

Definition steps := clos_refl_trans (Phase * WorkflowState) step.

(** The configurations a run from the given input goes through. *)
Definition reachable (tasks0 : list Task) (maxConcurrent0 : Z)
    (c : Phase * WorkflowState) : Prop :=
  steps (TickStart, initializeWorkflow tasks0 maxConcurrent0) c.

(** A call of [initializeWorkflow] as its caller sees it.  The body is an
    object literal built with [map], [new Map] and [new Set]: there is no
    [throw] and no property read that can fail, so the call returns. *)
Definition initialize (tasks0 : list Task) (maxConcurrent0 : Z)
  : Outcome WorkflowState :=
  Ok (initializeWorkflow tasks0 maxConcurrent0).

(** The two-task cycle and the unknown dependency. *)
Definition cyclic_tasks : list Task :=
  [ mkTask "A" 1 ["B"]; mkTask "B" 1 ["A"] ].

Definition dangling_tasks : list Task :=
  [ mkTask "A" 1 ["X"] ].

(** ** The class-based executor

    The four private fields of [TaskQueue] are those of [WorkflowState],
    [nodes] standing for [tasks], and a [TaskNode] has the fields of a
    [TaskState]; the methods are state transformers.  A node object lives in
    exactly one slot of [nodes] (the constructor stores a fresh object under
    each key and nothing else inserts), so a reference to a node is its slot:
    the key together with the value, and a write through the reference
    rewrites that slot. *)

Module TaskQueue.

Definition TaskNode : Type := TaskState.

Definition nodes (q : WorkflowState) : TaskMap := tasks q.

Definition newTaskNode (task : Task) : TaskNode :=
  {| tid := id task; ttime := time task; tdeps := deps task;
     status := pending; startTime := None; endTime := None |}.

Definition constructor (tasks0 : list Task) (maxConcurrent0 : Z) : WorkflowState :=
  {| tasks := fold_left (fun m task => map_set (id task) (newTaskNode task) m)
                        tasks0 [];
     currentTime := 0;
     runningTasks := [];
     maxConcurrent := maxConcurrent0 |}.

(** [!task || task.status !== 'pending'] first, then [every] over the
    dependencies, where a missing node is falsy. *)
Definition canStartTask (taskId : TaskId) (q : WorkflowState) : bool :=
  match map_get taskId (nodes q) with
  | None => false
  | Some task =>
      if negb (status_eqb (status task) pending) then false
      else forallb
             (fun depId =>
                match map_get depId (nodes q) with
                | None => false
                | Some depTask => status_eqb (status depTask) completed
                end)
             (tdeps task)
  end.

Definition getAvailableTasks (q : WorkflowState) : list (TaskId * TaskNode) :=
  filter (fun slot => canStartTask (tid (snd slot)) q) (nodes q).

(** The [forEach] over the live running set: deleting the element being
    visited does not disturb the visit of the others, so the walk is over
    the members at entry. *)
Fixpoint forEachRunning (now : Z) (ids : list TaskId)
    (nodes0 : TaskMap) (running0 : TaskSet) : Outcome (TaskMap * TaskSet) :=
  match ids with
  | [] => Ok (nodes0, running0)
  | taskId :: rest =>
      match map_get taskId nodes0 with
      | None => Throw TypeError
      | Some task =>
          if num (startTime task) + ttime task <=? now
          then forEachRunning now rest
                 (map_set taskId
                    {| tid := tid task; ttime := ttime task; tdeps := tdeps task;
                       status := completed; startTime := startTime task;
                       endTime := Some now |} nodes0)
                 (set_delete taskId running0)
          else forEachRunning now rest nodes0 running0
      end
  end.

Fixpoint startLoop (fuel : nat) (q : WorkflowState) : Outcome WorkflowState :=
  match fuel with
  | O => OutOfFuel
  | S fuel' =>
      if set_size (runningTasks q) <? maxConcurrent q then
        match getAvailableTasks q with
        | [] => Ok q
        | nextTask :: _ =>
            startLoop fuel'
              {| tasks := map_set (fst nextTask)
                            {| tid := tid (snd nextTask);
                               ttime := ttime (snd nextTask);
                               tdeps := tdeps (snd nextTask);
                               status := running;
                               startTime := Some (currentTime q);
                               endTime := endTime (snd nextTask) |}
                            (nodes q);
                 currentTime := currentTime q;
                 runningTasks := set_add (tid (snd nextTask)) (runningTasks q);
                 maxConcurrent := maxConcurrent q |}
        end
      else Ok q
  end.

Definition next (q : WorkflowState) : Outcome (WorkflowState * bool) :=
  r <- forEachRunning (currentTime q) (runningTasks q) (nodes q) (runningTasks q) ;;
  q2 <- startLoop (S (List.length (fst r)))
          {| tasks := fst r; currentTime := currentTime q;
             runningTasks := snd r; maxConcurrent := maxConcurrent q |} ;;
  if 0 <? set_size (runningTasks q2)
  then Ok ({| tasks := tasks q2; currentTime := currentTime q2 + 1;
              runningTasks := runningTasks q2;
              maxConcurrent := maxConcurrent q2 |}, true)
  else Ok (q2, existsb (fun node => negb (status_eqb (status node) completed))
                       (map_values (nodes q2))).

(** [while (this.next()) { }] *)
Fixpoint runAll (fuel : nat) (q : WorkflowState) : Outcome WorkflowState :=
  match fuel with
  | O => OutOfFuel
  | S fuel' =>
      r <- next q ;;
      if snd r then runAll fuel' (fst r) else Ok (fst r)
  end.

End TaskQueue.

(** ** Notions used in the statements *)

(** The order of the life cycle. *)
Definition rank (st : Status) : nat :=
  match st with pending => 0 | running => 1 | completed => 2 end.

(** What an entry of the map never changes: its key and the fields copied
    from the input task. *)
Definition static (e : TaskId * TaskState)
  : TaskId * (TaskId * Z * list TaskId) :=
  (fst e, (tid (snd e), ttime (snd e), tdeps (snd e))).

Definition sumZ (l : list Z) : Z := fold_right Z.add 0 l.

Definition totalTime (tasks0 : list Task) : Z := sumZ (List.map time tasks0).

(** Time units a task still has to occupy a slot for. *)
Definition remaining (now : Z) (t : TaskState) : Z :=
  match status t with
  | pending => ttime t
  | running => num (startTime t) + ttime t - now
  | completed => 0
  end.

Definition work (s : WorkflowState) : Z :=
  sumZ (List.map (fun e => remaining (currentTime s) (snd e)) (tasks s)).

(** The dependency relation of an input list, and what it is for it to be
    acyclic and fully resolvable. *)
Definition depends (g : list Task) (a b : TaskId) : Prop :=
  exists task, In task g /\ id task = a /\ In b (deps task).

Definition acyclic (g : list Task) : Prop :=
  forall a, ~ clos_trans TaskId (depends g) a a.

Definition resolvable (g : list Task) : Prop :=
  forall task d, In task g -> In d (deps task) ->
    exists task', In task' g /\ id task' = d.

Definition allCompleted (s : WorkflowState) : Prop :=
  forall k t, map_get k (tasks s) = Some t -> status t = completed.

(** The completion pass, entry by entry. *)
Definition dueAt (now : Z) (m : TaskMap) (k : TaskId) : bool :=
  match map_get k m with Some t => due now t | None => false end.

Definition completeEntry (now : Z) (ids : TaskSet) (e : TaskId * TaskState)
  : TaskId * TaskState :=
  if set_has (fst e) ids && due now (snd e)
  then (fst e, complete now (snd e)) else e.

(** One admission, entry by entry. *)
Definition startEntry (now : Z) (k : TaskId) (e : TaskId * TaskState)
  : TaskId * TaskState :=
  if String.eqb k (fst e) then (fst e, start now (snd e)) else e.

(** The map [initializeWorkflow] builds. *)
Definition initialTasks (tasks0 : list Task) : TaskMap :=
  tasks (initializeWorkflow tasks0 0).

(** What the times recorded in an entry are, by status. *)
Definition timesOk (now : Z) (t : TaskState) : Prop :=
  match status t with
  | pending => startTime t = None /\ endTime t = None
  | running => exists st, startTime t = Some st /\ st <= now /\ endTime t = None
  | completed =>
      exists st e, startTime t = Some st /\ endTime t = Some e /\ st <= e /\ e <= now
  end.

(** The invariant of a run from the input list [tasks0]. *)
Record Inv (tasks0 : list Task) (s : WorkflowState) : Prop := mkInv {
  inv_static :
    List.map static (tasks s) = List.map static (initialTasks tasks0);
  inv_nodup : NoDup (runningTasks s);
  inv_running : forall k,
    In k (runningTasks s) <->
    exists t, map_get k (tasks s) = Some t /\ status t = running;
  inv_times : forall k t,
    map_get k (tasks s) = Some t -> timesOk (currentTime s) t;
  inv_deps : forall k t d,
    map_get k (tasks s) = Some t -> status t <> pending -> In d (tdeps t) ->
    exists td e st,
      map_get d (tasks s) = Some td /\ status td = completed /\
      endTime td = Some e /\ startTime t = Some st /\ e <= st;
  inv_bound : set_size (runningTasks s) <= Z.max 0 (maxConcurrent s)
}.

Definition pendingCount (m : TaskMap) : nat :=
  List.length (filter (fun e => status_eqb (status (snd e)) pending) m).

(** The state the completion pass leaves, in closed form. *)
Definition completionPass (s : WorkflowState) : WorkflowState :=
  {| tasks := List.map (completeEntry (currentTime s) (runningTasks s)) (tasks s);
     currentTime := currentTime s;
     runningTasks := filter (fun k => negb (dueAt (currentTime s) (tasks s) k))
                            (runningTasks s);
     maxConcurrent := maxConcurrent s |}.

(** The outcome of [next], as the tick's last step decides it. *)
Definition tickEnd (s2 : WorkflowState) : WorkflowState * bool :=
  if 0 <? set_size (runningTasks s2) then (advance s2, true)
  else (s2, hasUnfinishedTasks s2).

Definition phaseAfter (continue : bool) : Phase :=
  if continue then TickStart else Stopped.

Definition times (k : TaskId) (s : WorkflowState) : option (option Z * option Z) :=
  option_map (fun t => (startTime t, endTime t)) (map_get k (tasks s)).

Definition isRunning (e : TaskId * TaskState) : bool :=
  status_eqb (status (snd e)) running.

(** What a running task still owes at least, by phase: after the completion
    pass every running task has time left. *)
Definition slack (p : Phase) : Z :=
  match p with Admitting => 1 | _ => 0 end.

(** The invariant behind termination: the work left and the time elapsed
    never exceed the total of the durations. *)
Record TInv (tasks0 : list Task) (c : Phase * WorkflowState) : Prop := mkTInv {
  tinv_inv : Inv tasks0 (snd c);
  tinv_rem : forall k t,
    map_get k (tasks (snd c)) = Some t -> status t = running ->
    slack (fst c) <= remaining (currentTime (snd c)) t;
  tinv_work : work (snd c) + currentTime (snd c) <= totalTime tasks0
}.

(** A walk along a relation: [a], then the elements of [l] in turn. *)
Fixpoint chain (E : TaskId -> TaskId -> Prop) (a : TaskId) (l : list TaskId)
  : Prop :=
  match l with
  | [] => True
  | b :: l' => E a b /\ chain E b l'
  end.

(** The state at the start of the tick that follows [n] ticks which all
    reported continue; the walk stays put where the run stops. *)
Fixpoint after (n : nat) (s : WorkflowState) : WorkflowState :=
  match n with
  | O => s
  | S n' =>
      match next s with
      | Ok (s', true) => after n' s'
      | _ => s
      end
  end.

(** A topological rank of the example list. *)
Definition rank_2 (k : TaskId) : nat :=
  if String.eqb k "A" then 0
  else if String.eqb k "B" then 1
  else if String.eqb k "C" then 1
  else if String.eqb k "D" then 2
  else 3.

Definition durations (m : TaskMap) : Z :=
  sumZ (List.map (fun e => ttime (snd e)) m).

(** How a recorded start relates to the clock and to the end, by phase: a
    task holds its slot for [Z.max (ttime t) 1] time units. *)
Definition timingOk (p : Phase) (now : Z) (t : TaskState) : Prop :=
  match status t with
  | pending => True
  | running =>
      forall st, startTime t = Some st ->
        match p with
        | Admitting => st <= now /\ now < st + Z.max (ttime t) 1
        | _ => st < now /\ now <= st + Z.max (ttime t) 1
        end
  | completed =>
      forall st e, startTime t = Some st -> endTime t = Some e ->
        e = st + Z.max (ttime t) 1
  end.

Definition Timing (c : Phase * WorkflowState) : Prop :=
  forall k t, map_get k (tasks (snd c)) = Some t ->
    timingOk (fst c) (currentTime (snd c)) t.

(** ** The console

    What the executor prints, one [Line] per call of [console.log], and
    the text of each line.  The functions below are the ones above with
    the lines they print beside their result. *)

Inductive Line : Type :=
| LineCompleted (taskId : TaskId) (now : Z)
| LineStarting (taskId : TaskId) (now : Z)
| LineSummaryTitle
| LineSummaryRule
| LineSummaryTask (taskId : TaskId) (started ended : option Z) (duration : Z)
| LineTotalTime (now : Z).

Definition showNumber (z : Z) : string := NilZero.string_of_int (Z.to_int z).

Definition showTime (x : option Z) : string :=
  match x with Some z => showNumber z | None => "null" end.

Definition render (l : Line) : string :=
  match l with
  | LineCompleted k now =>
      String.append "Task "
        (String.append k (String.append " completed at time " (showNumber now)))
  | LineStarting k now =>
      String.append "Starting task "
        (String.append k (String.append " at time " (showNumber now)))
  | LineSummaryTitle => String (Ascii.ascii_of_nat 10) "Workflow Summary:"
  | LineSummaryRule => "----------------"
  | LineSummaryTask k st e d =>
      String.append "Task "
        (String.append k
           (String.append ": Started at "
              (String.append (showTime st)
                 (String.append ", Completed at "
                    (String.append (showTime e)
                       (String.append ", Duration: " (showNumber d)))))))
  | LineTotalTime now =>
      String.append "Total time: " (String.append (showNumber now) " units")
  end.

Fixpoint forEachRunningL (now : Z) (ids : list TaskId)
    (newTasks : TaskMap) (newRunningTasks : TaskSet)
  : Outcome (TaskMap * TaskSet * list Line) :=
  match ids with
  | [] => Ok (newTasks, newRunningTasks, [])
  | taskId :: rest =>
      match map_get taskId newTasks with
      | None => Throw TypeError
      | Some task =>
          if due now task
          then r <- forEachRunningL now rest
                      (map_set taskId (complete now task) newTasks)
                      (set_delete taskId newRunningTasks) ;;
               Ok (fst r, LineCompleted (tid task) now :: snd r)
          else forEachRunningL now rest newTasks newRunningTasks
      end
  end.

Definition updateRunningTasksL (s : WorkflowState)
  : Outcome (WorkflowState * list Line) :=
  r <- forEachRunningL (currentTime s) (runningTasks s) (tasks s) (runningTasks s) ;;
  Ok ({| tasks := fst (fst r); currentTime := currentTime s;
         runningTasks := snd (fst r); maxConcurrent := maxConcurrent s |},
      snd r).

Fixpoint startLoopL (fuel : nat) (s : WorkflowState)
  : Outcome (WorkflowState * list Line) :=
  match fuel with
  | O => OutOfFuel
  | S fuel' =>
      if set_size (runningTasks s) <? maxConcurrent s then
        match getAvailableTasks s with
        | [] => Ok (s, [])
        | taskToStart :: _ =>
            r <- startLoopL fuel' (startTask s taskToStart) ;;
            Ok (fst r, LineStarting (tid taskToStart) (currentTime s) :: snd r)
        end
      else Ok (s, [])
  end.

Definition startNewTasksL (s : WorkflowState)
  : Outcome (WorkflowState * list Line) :=
  startLoopL (S (List.length (tasks s))) s.

Definition nextL (s : WorkflowState)
  : Outcome (WorkflowState * bool * list Line) :=
  r1 <- updateRunningTasksL s ;;
  r2 <- startNewTasksL (fst r1) ;;
  if 0 <? set_size (runningTasks (fst r2))
  then Ok (advance (fst r2), true, snd r1 ++ snd r2)
  else Ok (fst r2, hasUnfinishedTasks (fst r2), snd r1 ++ snd r2).

Definition printWorkflowSummary (s : WorkflowState) : list Line :=
  [LineSummaryTitle; LineSummaryRule]
  ++ List.map (fun task => LineSummaryTask (tid task) (startTime task)
                             (endTime task) (ttime task))
              (map_values (tasks s))
  ++ [LineTotalTime (currentTime s)].

(** [runAll] with all it prints: the lines of the ticks, then the summary. *)
Fixpoint runAllL (fuel : nat) (s : WorkflowState)
  : Outcome (WorkflowState * list Line) :=
  match fuel with
  | O => OutOfFuel
  | S fuel' =>
      r <- nextL s ;;
      if snd (fst r)
      then r' <- runAllL fuel' (fst (fst r)) ;; Ok (fst r', snd r ++ snd r')
      else Ok (fst (fst r), snd r ++ printWorkflowSummary (fst (fst r)))
  end.

Definition console (lines : list Line) : list string := List.map render lines.

(** Forgetting what was printed. *)
Definition dropLog {A : Type} (o : Outcome (A * list Line)) : Outcome A :=
  r <- o ;; Ok (fst r).

(** Whether a line of a tick is about the task [k]. *)
Definition about (k : TaskId) (l : Line) : bool :=
  match l with
  | LineCompleted k' _ | LineStarting k' _ => String.eqb k k'
  | _ => false
  end.

(** The lines a task has had printed, given the times its entry records. *)
Definition linesOf (k : TaskId) (entry : option TaskState) : list Line :=
  match entry with
  | None => []
  | Some t =>
      match startTime t, endTime t with
      | None, _ => []
      | Some st, None => [LineStarting k st]
      | Some st, Some e => [LineStarting k st; LineCompleted k e]
      end
  end.

Definition Logged (L : list Line) (s : WorkflowState) : Prop :=
  forall k, filter (about k) L = linesOf k (map_get k (tasks s)).

(** The time units the task under key [k] holds a slot for, and the
    relation of a task to one of its dependencies, as the map has them. *)
Definition occupancy (s : WorkflowState) (k : TaskId) : Z :=
  match map_get k (tasks s) with
  | Some t => Z.max (ttime t) 1
  | None => 0
  end.

Definition dependsOn (s : WorkflowState) (a b : TaskId) : Prop :=
  exists t, map_get a (tasks s) = Some t /\ In b (tdeps t).

(** * Properties *)

(** ** Maps and sets *)

Lemma map_get_set_same k v m : map_get k (map_set k v m) = Some v.
Proof.
  induction m as [|[k' v'] m IH]; simpl.
  - now rewrite String.eqb_refl.
  - destruct (String.eqb k k') eqn:E; simpl; rewrite E; auto.
Qed.

Lemma map_get_set_other k k' v m :
  k <> k' -> map_get k (map_set k' v m) = map_get k m.
Proof.
  intros Hne. induction m as [|[k2 v2] m IH]; simpl.
  - apply String.eqb_neq in Hne. now rewrite Hne.
  - destruct (String.eqb k' k2) eqn:E; simpl.
    + apply String.eqb_eq in E. subst k2.
      apply String.eqb_neq in Hne. now rewrite Hne.
    + destruct (String.eqb k k2); auto.
Qed.

Lemma map_get_In k v m : map_get k m = Some v -> In (k, v) m.
Proof.
  induction m as [|[k' v'] m IH]; simpl; [discriminate|].
  destruct (String.eqb k k') eqn:E.
  - apply String.eqb_eq in E. intros [= ->]. subst. now left.
  - intros H. right. auto.
Qed.

Lemma In_map_get k v m :
  NoDup (map_keys m) -> In (k, v) m -> map_get k m = Some v.
Proof.
  induction m as [|[k' v'] m IH]; simpl; [tauto|].
  intros Hnd [H|H].
  - injection H as -> ->. now rewrite String.eqb_refl.
  - inversion Hnd as [|? ? Hni Hnd']; subst.
    destruct (String.eqb k k') eqn:E.
    + apply String.eqb_eq in E. subst k'. exfalso. apply Hni.
      unfold map_keys. change k with (fst (k, v)). now apply in_map.
    + auto.
Qed.

Lemma map_get_keys k m :
  In k (map_keys m) <-> exists v, map_get k m = Some v.
Proof.
  induction m as [|[k' v'] m IH]; simpl.
  - split; [tauto | intros [v H]; discriminate].
  - destruct (String.eqb k k') eqn:E.
    + apply String.eqb_eq in E. subst. split; eauto.
    + apply String.eqb_neq in E. rewrite <- IH. split.
      * intros [H|H]; [congruence | auto].
      * auto.
Qed.

Lemma map_get_None k m : ~ In k (map_keys m) <-> map_get k m = None.
Proof.
  rewrite map_get_keys. destruct (map_get k m); split; intros H.
  - exfalso. apply H. eauto.
  - discriminate.
  - reflexivity.
  - intros [v Hv]. discriminate.
Qed.

(** On a key of the map, [set] rewrites the entry where it stands. *)
Lemma map_set_pointwise k v m :
  NoDup (map_keys m) -> In k (map_keys m) ->
  map_set k v m
  = List.map (fun e => if String.eqb k (fst e) then (fst e, v) else e) m.
Proof.
  induction m as [|[k' v'] m IH]; simpl; [tauto|].
  intros Hnd Hin. inversion Hnd as [|? ? Hni Hnd']; subst.
  destruct (String.eqb k k') eqn:E.
  - apply String.eqb_eq in E. subst k'. f_equal.
    transitivity (List.map (fun e : TaskId * TaskState => e) m);
      [symmetry; apply map_id | apply map_ext_in].
    intros [k2 v2] H2. simpl.
    destruct (String.eqb k k2) eqn:E2; auto.
    apply String.eqb_eq in E2. subst k2. exfalso. apply Hni.
    unfold map_keys. change k with (fst (k, v2)). now apply in_map.
  - f_equal. apply IH; auto.
    destruct Hin as [H|H]; auto.
    apply String.eqb_neq in E. congruence.
Qed.

Lemma map_set_In e k v m : In e (map_set k v m) -> In e m \/ e = (k, v).
Proof.
  induction m as [|[k' v'] m IH]; simpl.
  - intros [H|[]]; auto.
  - destruct (String.eqb k k') eqn:E; simpl.
    + apply String.eqb_eq in E. subst k'. intros [H|H]; auto.
    + intros [H|H]; auto. destruct (IH H); auto.
Qed.

Lemma map_keys_set k v m :
  map_keys (map_set k v m)
  = if set_has k (map_keys m) then map_keys m else map_keys m ++ [k].
Proof.
  unfold map_keys, set_has.
  induction m as [|[k' v'] m IH]; simpl; auto.
  destruct (String.eqb k k') eqn:E; simpl; auto.
  rewrite IH. now destruct (existsb (String.eqb k) (List.map fst m)).
Qed.

Lemma set_has_In k s : set_has k s = true <-> In k s.
Proof.
  unfold set_has. rewrite existsb_exists. split.
  - intros [x [Hin Heq]]. apply String.eqb_eq in Heq. now subst.
  - intros H. exists k. split; auto. apply String.eqb_refl.
Qed.

Lemma set_has_false k s : set_has k s = false <-> ~ In k s.
Proof.
  rewrite <- set_has_In. destruct (set_has k s); split; congruence.
Qed.

Lemma NoDup_keys_entry k v v' m :
  NoDup (map_keys m) -> In (k, v) m -> map_get k m = Some v' -> v = v'.
Proof.
  intros Hnd Hin Hget. rewrite (In_map_get _ _ _ Hnd Hin) in Hget. congruence.
Qed.

Lemma map_keys_map_fst (f : TaskId * TaskState -> TaskId * TaskState) m :
  (forall e, fst (f e) = fst e) -> map_keys (List.map f m) = map_keys m.
Proof.
  intros Hf. unfold map_keys. rewrite map_map. apply map_ext. auto.
Qed.

Lemma filter_filter_ext {A} (f g h : A -> bool) l :
  (forall x, In x l -> f x && g x = h x) ->
  filter g (filter f l) = filter h l.
Proof.
  induction l as [|a l IH]; simpl; auto. intros H.
  assert (Ha := H a (or_introl eq_refl)).
  destruct (f a); simpl in *.
  - rewrite Ha. destruct (h a); rewrite IH; auto.
  - rewrite <- Ha. apply IH; auto.
Qed.

(** ** The completion pass *)

Lemma forEachRunning_spec now ids : forall m r,
  NoDup (map_keys m) -> NoDup ids ->
  (forall k, In k ids -> In k (map_keys m)) ->
  forEachRunning now ids m r
  = Ok (List.map (completeEntry now ids) m,
        filter (fun k => negb (set_has k ids && dueAt now m k)) r).
Proof.
  induction ids as [|a rest IH]; intros m r Hnd Hids Hsub.
  - simpl. f_equal. f_equal.
    + transitivity (List.map (fun e : TaskId * TaskState => e) m);
        [symmetry; apply map_id | apply map_ext; intros e; reflexivity].
    + induction r; simpl; auto. now f_equal.
  - simpl. inversion Hids as [|? ? Hni Hrest]; subst.
    assert (Hin : In a (map_keys m)) by (apply Hsub; now left).
    destruct (proj1 (map_get_keys a m) Hin) as [t Ht]. rewrite Ht.
    destruct (due now t) eqn:Hdue.
    + rewrite IH; auto.
      * f_equal. f_equal.
        -- rewrite map_set_pointwise by auto. rewrite map_map.
           apply map_ext_in. intros [k v] He. simpl.
           unfold completeEntry. simpl.
           destruct (String.eqb a k) eqn:E.
           ++ apply String.eqb_eq in E. subst k. simpl.
              rewrite (String.eqb_refl a).
              rewrite (NoDup_keys_entry _ _ _ _ Hnd He Ht). rewrite Hdue.
              apply set_has_false in Hni. rewrite Hni. reflexivity.
           ++ rewrite String.eqb_sym, E. reflexivity.
        -- unfold set_delete. apply filter_filter_ext. intros k Hk.
           simpl. unfold dueAt.
           destruct (String.eqb a k) eqn:E.
           ++ apply String.eqb_eq in E. subst k.
              rewrite String.eqb_refl, Ht, Hdue. reflexivity.
           ++ rewrite String.eqb_sym, E. simpl.
              rewrite map_get_set_other; auto.
              apply String.eqb_neq in E. congruence.
      * rewrite map_keys_set. apply set_has_In in Hin. now rewrite Hin.
      * intros k Hk. rewrite map_keys_set.
        apply set_has_In in Hin. rewrite Hin. apply Hsub. now right.
    + rewrite IH; auto.
      * f_equal. f_equal.
        -- apply map_ext_in. intros [k v] He. unfold completeEntry. simpl.
           destruct (String.eqb k a) eqn:E; auto.
           apply String.eqb_eq in E. subst k.
           rewrite (NoDup_keys_entry _ _ _ _ Hnd He Ht), Hdue.
           now rewrite !andb_false_r.
        -- apply filter_ext. intros k. simpl. unfold dueAt.
           destruct (String.eqb k a) eqn:E; auto.
           apply String.eqb_eq in E. subst k. rewrite Ht, Hdue.
           now rewrite !andb_false_r.
      * intros k Hk. apply Hsub. now right.
Qed.

Lemma updateRunningTasks_spec s :
  NoDup (map_keys (tasks s)) -> NoDup (runningTasks s) ->
  (forall k, In k (runningTasks s) -> In k (map_keys (tasks s))) ->
  updateRunningTasks s = Ok (completionPass s).
Proof.
  intros Hnd Hr Hsub. unfold updateRunningTasks, completionPass.
  rewrite forEachRunning_spec by auto. simpl. f_equal. f_equal.
  apply filter_ext_in. intros k Hk.
  apply set_has_In in Hk. now rewrite Hk.
Qed.

Lemma map_get_map (f : TaskId * TaskState -> TaskId * TaskState) k m :
  (forall e, fst (f e) = fst e) ->
  map_get k (List.map f m) = option_map (fun v => snd (f (k, v))) (map_get k m).
Proof.
  intros Hf. induction m as [|[k' v'] m IH]; simpl; auto.
  destruct (f (k', v')) as [k2 v2] eqn:E.
  assert (k2 = k') by (specialize (Hf (k', v')); rewrite E in Hf; auto).
  subst k2. destruct (String.eqb k k') eqn:Ek; auto.
  apply String.eqb_eq in Ek. subst k'. simpl. now rewrite E.
Qed.

Lemma completeEntry_fst now ids e : fst (completeEntry now ids e) = fst e.
Proof. unfold completeEntry. now destruct (_ && _). Qed.

Lemma completeEntry_static now ids e :
  static (completeEntry now ids e) = static e.
Proof. unfold completeEntry. now destruct (_ && _). Qed.

Lemma completionPass_get s k :
  map_get k (tasks (completionPass s))
  = option_map
      (fun t => if set_has k (runningTasks s) && due (currentTime s) t
                then complete (currentTime s) t else t)
      (map_get k (tasks s)).
Proof.
  unfold completionPass. simpl.
  rewrite map_get_map by apply completeEntry_fst.
  destruct (map_get k (tasks s)); simpl; auto.
  unfold completeEntry. simpl. now destruct (_ && _).
Qed.

(** ** The map built from the input *)

Lemma NoDup_snoc {A} (l : list A) a : NoDup l -> ~ In a l -> NoDup (l ++ [a]).
Proof.
  induction l as [|b l IH]; simpl; intros Hnd Hni.
  - constructor; auto.
  - inversion Hnd; subst. constructor.
    + rewrite in_app_iff. simpl. intros [H|[H|[]]]; auto.
    + apply IH; auto.
Qed.

Lemma map_set_NoDup k v m : NoDup (map_keys m) -> NoDup (map_keys (map_set k v m)).
Proof.
  intros H. rewrite map_keys_set. destruct (set_has k (map_keys m)) eqn:E; auto.
  apply NoDup_snoc; auto. now apply set_has_false.
Qed.

Lemma fold_set_NoDup es : forall acc,
  NoDup (map_keys acc) ->
  NoDup (map_keys (fold_left (fun m e => map_set (fst e) (snd e) m) es acc)).
Proof.
  induction es as [|e es IH]; simpl; auto.
  intros acc H. apply IH. now apply map_set_NoDup.
Qed.

Lemma fold_set_In es : forall acc e,
  In e (fold_left (fun m e => map_set (fst e) (snd e) m) es acc) ->
  In e acc \/ In e es.
Proof.
  induction es as [|e0 es IH]; simpl; auto.
  intros acc e H. destruct (IH _ _ H) as [H1|H1]; auto.
  destruct (map_set_In _ _ _ _ H1) as [H2|H2]; auto.
  right. left. rewrite H2. now destruct e0.
Qed.

Lemma initialTasks_NoDup tasks0 : NoDup (map_keys (initialTasks tasks0)).
Proof. apply fold_set_NoDup. constructor. Qed.

Lemma initialTasks_In tasks0 e :
  In e (initialTasks tasks0) ->
  exists task, In task tasks0 /\ e = (id task, createTaskState task).
Proof.
  intros H. apply fold_set_In in H. destruct H as [[]|H].
  apply in_map_iff in H. destruct H as [task [H1 H2]]. eauto.
Qed.

(** An entry read from the initial map is the pending state of some task. *)
Ltac initial_entry H :=
  apply map_get_In in H; apply initialTasks_In in H;
  let task := fresh "task" in
  destruct H as [task [_ [= _ ->]]].

(** ** What the invariant gives *)

Section Invariant.

Variable tasks0 : list Task.

Lemma static_keys m m' :
  List.map static m = List.map static m' -> map_keys m = map_keys m'.
Proof.
  intros H. unfold map_keys.
  transitivity (List.map fst (List.map static m)).
  - rewrite map_map. reflexivity.
  - rewrite H, map_map. reflexivity.
Qed.

Lemma Inv_NoDup_keys s : Inv tasks0 s -> NoDup (map_keys (tasks s)).
Proof.
  intros H. rewrite (static_keys _ _ (inv_static _ _ H)).
  apply initialTasks_NoDup.
Qed.

Lemma Inv_origin s k t :
  Inv tasks0 s -> In (k, t) (tasks s) ->
  exists task, In task tasks0 /\ id task = k /\ tid t = k /\
               ttime t = time task /\ tdeps t = deps task.
Proof.
  intros H Hin.
  assert (H1 : In (static (k, t)) (List.map static (initialTasks tasks0))).
  { rewrite <- (inv_static _ _ H). now apply in_map. }
  apply in_map_iff in H1. destruct H1 as [e0 [Hs Hin0]].
  apply initialTasks_In in Hin0. destruct Hin0 as [task [Ht ->]].
  unfold static in Hs. simpl in Hs. injection Hs as <- <- <- <-. eauto 10.
Qed.

Lemma Inv_get_origin s k t :
  Inv tasks0 s -> map_get k (tasks s) = Some t ->
  exists task, In task tasks0 /\ id task = k /\ tid t = k /\
               ttime t = time task /\ tdeps t = deps task.
Proof. intros H Hg. apply (Inv_origin s); auto. now apply map_get_In. Qed.

Lemma Inv_running_keys s k :
  Inv tasks0 s -> In k (runningTasks s) -> In k (map_keys (tasks s)).
Proof.
  intros H Hk. apply (inv_running _ _ H) in Hk. destruct Hk as [t [Ht _]].
  apply map_get_keys. eauto.
Qed.

Lemma Inv_initial mc : Inv tasks0 (initializeWorkflow tasks0 mc).
Proof.
  constructor; simpl.
  - reflexivity.
  - constructor.
  - intros k. split; [tauto|]. intros [t [Hg Hs]].
    initial_entry Hg. discriminate.
  - intros k t Hg. initial_entry Hg. unfold timesOk. simpl. auto.
  - intros k t d Hg Hs. initial_entry Hg. now elim Hs.
  - unfold set_size. simpl. lia.
Qed.

End Invariant.

(** ** The invariant along the passes of a tick *)

Section Passes.

Variable tasks0 : list Task.

Lemma Inv_updateRunningTasks s :
  Inv tasks0 s -> updateRunningTasks s = Ok (completionPass s).
Proof.
  intros H. apply updateRunningTasks_spec.
  - now apply (Inv_NoDup_keys tasks0).
  - apply (inv_nodup _ _ H).
  - intros k. now apply (Inv_running_keys tasks0).
Qed.

Lemma Inv_completionPass s : Inv tasks0 s -> Inv tasks0 (completionPass s).
Proof.
  intros H.
  assert (Hrun : forall k t, map_get k (tasks s) = Some t ->
            (set_has k (runningTasks s) = true <-> status t = running)).
  { intros k t Hg. rewrite set_has_In, (inv_running _ _ H). split.
    - intros [t' [Hg' Hs]]. congruence.
    - eauto. }
  constructor.
  - rewrite <- (inv_static _ _ H). simpl. rewrite map_map.
    apply map_ext. apply completeEntry_static.
  - simpl. apply NoDup_filter. apply (inv_nodup _ _ H).
  - intros k. rewrite completionPass_get. simpl. rewrite filter_In.
    unfold dueAt. split.
    + intros [Hin Hd]. destruct (proj1 (inv_running _ _ H k) Hin) as [t [Hg Hs]].
      rewrite Hg in *. simpl. apply negb_true_iff in Hd. rewrite Hd, andb_false_r.
      eauto.
    + intros [t' [Hg' Hs']].
      destruct (map_get k (tasks s)) as [t|] eqn:Hg; simpl in Hg'; [|discriminate].
      injection Hg' as <-.
      destruct (set_has k (runningTasks s) && due (currentTime s) t) eqn:E;
        [discriminate|].
      assert (Hk : set_has k (runningTasks s) = true) by (apply (Hrun k t); auto).
      rewrite Hk in E. simpl in E. rewrite E. split; auto.
      now apply set_has_In.
  - intros k t'. rewrite completionPass_get. simpl.
    destruct (map_get k (tasks s)) as [t|] eqn:Hg; simpl; [|discriminate].
    intros [= <-]. assert (Ht := inv_times _ _ H k t Hg).
    destruct (set_has k (runningTasks s) && due (currentTime s) t) eqn:E; auto.
    apply andb_true_iff in E. destruct E as [Hk _].
    apply (Hrun k t Hg) in Hk. unfold timesOk in *. rewrite Hk in Ht. simpl.
    destruct Ht as [st [Hst [Hle _]]]. exists st, (currentTime s).
    repeat split; auto; lia.
  - intros k t' d. rewrite completionPass_get.
    destruct (map_get k (tasks s)) as [t|] eqn:Hg; cbn [option_map];
      [|discriminate].
    intros [= <-] Hs Hd.
    assert (Hd' : In d (tdeps t))
      by (destruct (set_has k (runningTasks s) && due (currentTime s) t); auto).
    assert (Hs' : status t <> pending).
    { destruct (set_has k (runningTasks s) && due (currentTime s) t) eqn:E; auto.
      apply andb_true_iff in E. destruct E as [Hk _].
      apply (Hrun k t Hg) in Hk. congruence. }
    destruct (inv_deps _ _ H k t d Hg Hs' Hd') as [td [e [st [G1 [G2 [G3 [G4 G5]]]]]]].
    exists td, e, st. rewrite completionPass_get, G1. simpl.
    assert (Hk : set_has d (runningTasks s) = false).
    { destruct (set_has d (runningTasks s)) eqn:E; auto.
      apply (Hrun d td G1) in E. congruence. }
    rewrite Hk. simpl. repeat split; auto.
    destruct (set_has k (runningTasks s) && due (currentTime s) t); auto.
  - simpl. pose proof (inv_bound _ _ H) as Hb. unfold set_size in *.
    pose proof (filter_length_le
                  (fun k => negb (dueAt (currentTime s) (tasks s) k))
                  (runningTasks s)). lia.
Qed.

Lemma status_eqb_eq a b : status_eqb a b = true <-> a = b.
Proof. destruct a, b; simpl; split; congruence. Qed.

Lemma isDependencyCompleted_true d m :
  isDependencyCompleted d m = true <->
  exists td, map_get d m = Some td /\ status td = completed.
Proof.
  unfold isDependencyCompleted. destruct (map_get d m) as [td|].
  - rewrite status_eqb_eq. split; eauto. intros [td' [[= <-] H]]. auto.
  - split; [discriminate | intros [td [H _]]; discriminate].
Qed.

Lemma canStartTask_true k s :
  canStartTask k s = true <->
  exists t, map_get k (tasks s) = Some t /\ status t = pending /\
    forall d, In d (tdeps t) ->
      exists td, map_get d (tasks s) = Some td /\ status td = completed.
Proof.
  unfold canStartTask. destruct (map_get k (tasks s)) as [t|].
  - rewrite andb_true_iff, status_eqb_eq, forallb_forall. split.
    + intros [H1 H2]. exists t. repeat split; auto.
      intros d Hd. apply isDependencyCompleted_true. auto.
    + intros [t' [[= <-] [H1 H2]]]. split; auto.
      intros d Hd. apply isDependencyCompleted_true. auto.
  - split; [discriminate | intros [t [H _]]; discriminate].
Qed.

Lemma filter_head {A} (f : A -> bool) l a r :
  filter f l = a :: r ->
  exists l1 l2, l = l1 ++ a :: l2 /\ (forall x, In x l1 -> f x = false) /\
                f a = true /\ filter f l2 = r.
Proof.
  induction l as [|b l IH]; simpl; [discriminate|].
  destruct (f b) eqn:E.
  - intros [= -> <-]. exists [], l. simpl. repeat split; auto. tauto.
  - intros H. destruct (IH H) as [l1 [l2 [-> [H1 [H2 H3]]]]].
    exists (b :: l1), l2. simpl. repeat split; auto.
    intros x [<-|Hx]; auto.
Qed.

Lemma available_head s t0 rest :
  Inv tasks0 s -> getAvailableTasks s = t0 :: rest ->
  map_get (tid t0) (tasks s) = Some t0 /\ canStartTask (tid t0) s = true.
Proof.
  intros H Ha.
  assert (Hin : In t0 (getAvailableTasks s)) by (rewrite Ha; now left).
  unfold getAvailableTasks in Hin. apply filter_In in Hin.
  destruct Hin as [Hin Hc]. split; auto.
  unfold map_values in Hin. apply in_map_iff in Hin.
  destruct Hin as [[k t] [Ht Hin]]. simpl in Ht. subst t.
  destruct (Inv_origin tasks0 s k t0 H Hin) as [task [_ [_ [Hid _]]]].
  rewrite Hid. apply In_map_get; auto. now apply (Inv_NoDup_keys tasks0).
Qed.

Lemma startTask_get s t0 k :
  map_get k (tasks (startTask s t0))
  = if String.eqb k (tid t0) then Some (start (currentTime s) t0)
    else map_get k (tasks s).
Proof.
  simpl. destruct (String.eqb k (tid t0)) eqn:E.
  - apply String.eqb_eq in E. subst k. apply map_get_set_same.
  - apply String.eqb_neq in E. now apply map_get_set_other.
Qed.

Lemma startTask_tasks s t0 :
  Inv tasks0 s -> map_get (tid t0) (tasks s) = Some t0 ->
  tasks (startTask s t0)
  = List.map (startEntry (currentTime s) (tid t0)) (tasks s).
Proof.
  intros H Hg. simpl. rewrite map_set_pointwise.
  - apply map_ext_in. intros [k t] Hin. unfold startEntry. simpl.
    destruct (String.eqb (tid t0) k) eqn:E; auto.
    apply String.eqb_eq in E. subst k.
    rewrite (NoDup_keys_entry _ _ _ _ (Inv_NoDup_keys tasks0 s H) Hin Hg).
    reflexivity.
  - now apply (Inv_NoDup_keys tasks0).
  - apply map_get_keys. eauto.
Qed.

Lemma startTask_running s t0 :
  Inv tasks0 s -> map_get (tid t0) (tasks s) = Some t0 -> status t0 = pending ->
  runningTasks (startTask s t0) = runningTasks s ++ [tid t0]
  /\ ~ In (tid t0) (runningTasks s).
Proof.
  intros H Hg Hs.
  assert (Hni : ~ In (tid t0) (runningTasks s)).
  { intros Hin. apply (inv_running _ _ H) in Hin.
    destruct Hin as [t [Hg' Hs']]. congruence. }
  split; auto. simpl. unfold set_add.
  apply set_has_false in Hni. now rewrite Hni.
Qed.

Lemma Inv_startTask s t0 rest :
  Inv tasks0 s ->
  (set_size (runningTasks s) <? maxConcurrent s) = true ->
  getAvailableTasks s = t0 :: rest ->
  Inv tasks0 (startTask s t0).
Proof.
  intros H Hlt Ha.
  destruct (available_head s t0 rest H Ha) as [Hg Hc].
  apply canStartTask_true in Hc. destruct Hc as [t0' [Hg' [Hs Hdeps]]].
  assert (t0' = t0) by congruence. subst t0'. clear Hg'.
  destruct (startTask_running s t0 H Hg Hs) as [Hr Hni].
  constructor.
  - rewrite <- (inv_static _ _ H), (startTask_tasks s t0 H Hg), map_map.
    apply map_ext. intros e. unfold startEntry.
    now destruct (String.eqb (tid t0) (fst e)).
  - rewrite Hr. apply NoDup_snoc; auto. apply (inv_nodup _ _ H).
  - intros k. rewrite Hr, startTask_get, in_app_iff. simpl.
    destruct (String.eqb k (tid t0)) eqn:E.
    + apply String.eqb_eq in E. subst k. split; eauto.
    + apply String.eqb_neq in E. rewrite (inv_running _ _ H). split.
      * intros [H1|[H1|[]]]; auto. congruence.
      * auto.
  - intros k t. rewrite startTask_get.
    destruct (String.eqb k (tid t0)) eqn:E.
    + intros [= <-]. unfold timesOk. simpl. exists (currentTime s).
      repeat split; [lia|].
      assert (Ht := inv_times _ _ H _ _ Hg). unfold timesOk in Ht.
      rewrite Hs in Ht. tauto.
    + apply (inv_times _ _ H).
  - assert (Hkeep : forall d td, map_get d (tasks s) = Some td ->
              status td = completed ->
              map_get d (tasks (startTask s t0)) = Some td).
    { intros d td Hd Hcd. rewrite startTask_get.
      destruct (String.eqb d (tid t0)) eqn:E; auto.
      apply String.eqb_eq in E. subst d. congruence. }
    intros k t d. rewrite startTask_get.
    destruct (String.eqb k (tid t0)) eqn:E.
    + intros [= <-] _ Hd. simpl in Hd.
      destruct (Hdeps d Hd) as [td [Hgd Hcd]].
      assert (Ht := inv_times _ _ H _ _ Hgd). unfold timesOk in Ht.
      rewrite Hcd in Ht. destruct Ht as [st [e [T1 [T2 [T3 T4]]]]].
      exists td, e, (currentTime s). simpl. repeat split; auto.
    + intros Hk Hsk Hd.
      destruct (inv_deps _ _ H k t d Hk Hsk Hd) as [td [e [st [G1 [G2 G3]]]]].
      exists td, e, st. split; auto.
  - rewrite Hr. simpl. unfold set_size in *. rewrite length_app. simpl.
    apply Z.ltb_lt in Hlt. lia.
Qed.

Lemma Inv_advance s : Inv tasks0 s -> Inv tasks0 (advance s).
Proof.
  intros H. constructor; simpl; try apply H.
  intros k t Hg. assert (Ht := inv_times _ _ H k t Hg). unfold timesOk in *.
  destruct (status t); auto.
  - destruct Ht as [st [H1 [H2 H3]]]. exists st. repeat split; auto. lia.
  - destruct Ht as [st [e [H1 [H2 [H3 H4]]]]]. exists st, e.
    repeat split; auto. lia.
Qed.

End Passes.

(** ** The invariant holds in every reachable configuration *)

Section Reachable.

Variable tasks0 : list Task.

Lemma step_Inv c c' : step c c' -> Inv tasks0 (snd c) -> Inv tasks0 (snd c').
Proof.
  intros Hstep. destruct Hstep as [s s' Hu|s t0 rest Hlt Ha|s _ _|s _ _ _|s _ _ _];
    simpl; intros H; auto.
  - rewrite (Inv_updateRunningTasks tasks0 s H) in Hu. injection Hu as <-.
    now apply Inv_completionPass.
  - now apply (Inv_startTask tasks0 s t0 rest).
  - now apply Inv_advance.
Qed.

Lemma steps_Inv c c' : steps c c' -> Inv tasks0 (snd c) -> Inv tasks0 (snd c').
Proof.
  intros Hs. apply clos_rt_rtn1 in Hs. induction Hs as [|c1 c2 Hstep _ IH]; auto.
  intros H. apply (step_Inv c1 c2 Hstep). auto.
Qed.

Lemma reachable_Inv mc c : reachable tasks0 mc c -> Inv tasks0 (snd c).
Proof.
  intros H. apply (steps_Inv _ _ H). simpl. apply Inv_initial.
Qed.

(** *** The functions follow the step relation *)

Lemma pendingCount_startEntry_le now k m :
  (pendingCount (List.map (startEntry now k) m) <= pendingCount m)%nat.
Proof.
  unfold pendingCount. induction m as [|e m IH]; simpl; auto.
  unfold startEntry at 1. destruct (String.eqb k (fst e)); simpl.
  - destruct (status_eqb (status (snd e)) pending); simpl; lia.
  - destruct (status_eqb (status (snd e)) pending); simpl; lia.
Qed.

Lemma pendingCount_startEntry_lt now k t m :
  In (k, t) m -> status t = pending ->
  (pendingCount (List.map (startEntry now k) m) < pendingCount m)%nat.
Proof.
  intros Hin Hs. induction m as [|e m IH]; simpl in *; [tauto|].
  destruct Hin as [->|Hin].
  - pose proof (pendingCount_startEntry_le now k m) as Hle.
    unfold pendingCount in *. simpl. unfold startEntry at 1. simpl.
    rewrite String.eqb_refl. simpl. rewrite Hs. simpl. lia.
  - specialize (IH Hin). unfold pendingCount in *. simpl.
    unfold startEntry at 1. destruct (String.eqb k (fst e)); simpl.
    + destruct (status_eqb (status (snd e)) pending); simpl; lia.
    + destruct (status_eqb (status (snd e)) pending); simpl; lia.
Qed.

Lemma startLoop_steps fuel : forall s,
  Inv tasks0 s -> (pendingCount (tasks s) < fuel)%nat ->
  exists s2, startLoop fuel s = Ok s2 /\
             steps (Admitting, s) (Admitting, s2) /\ loopExits s2.
Proof.
  induction fuel as [|fuel IH]; intros s H Hlt; [lia|].
  simpl. destruct (set_size (runningTasks s) <? maxConcurrent s) eqn:Hc.
  - destruct (getAvailableTasks s) as [|t0 rest] eqn:Ha.
    + exists s. repeat split; [apply rt_refl | now right].
    + destruct (available_head tasks0 s t0 rest H Ha) as [Hg Hcan].
      apply canStartTask_true in Hcan. destruct Hcan as [t0' [Hg' [Hs _]]].
      assert (t0' = t0) by congruence. subst t0'.
      destruct (IH (startTask s t0)) as [s2 [E [Hsteps Hexit]]].
      * now apply (Inv_startTask tasks0 s t0 rest).
      * rewrite (startTask_tasks tasks0 s t0 H Hg).
        pose proof (pendingCount_startEntry_lt (currentTime s) (tid t0) t0
                      (tasks s) (map_get_In _ _ _ Hg) Hs). lia.
      * exists s2. repeat split; auto.
        eapply rt_trans; [apply rt_step; eapply step_startTask; eauto | exact Hsteps].
  - exists s. repeat split; [apply rt_refl | now left].
Qed.

Lemma startNewTasks_steps s :
  Inv tasks0 s ->
  exists s2, startNewTasks s = Ok s2 /\
             steps (Admitting, s) (Admitting, s2) /\ loopExits s2.
Proof.
  intros H. apply startLoop_steps; auto.
  unfold pendingCount.
  pose proof (filter_length_le (fun e => status_eqb (status (snd e)) pending)
                (tasks s)). lia.
Qed.

Lemma next_steps s :
  Inv tasks0 s ->
  exists s2,
    steps (TickStart, s) (Admitting, s2) /\ loopExits s2 /\
    next s = Ok (tickEnd s2) /\
    step (Admitting, s2) (phaseAfter (snd (tickEnd s2)), fst (tickEnd s2)).
Proof.
  intros H.
  destruct (startNewTasks_steps (completionPass s)) as [s2 [E [Hsteps Hexit]]].
  { now apply Inv_completionPass. }
  exists s2. repeat split; auto.
  - eapply rt_trans; [|exact Hsteps]. apply rt_step. apply step_complete.
    now apply (Inv_updateRunningTasks tasks0).
  - unfold next. rewrite (Inv_updateRunningTasks tasks0 s H). simpl.
    rewrite E. simpl. unfold tickEnd.
    now destruct (0 <? set_size (runningTasks s2)).
  - unfold tickEnd. destruct (0 <? set_size (runningTasks s2)) eqn:E0; simpl.
    + now apply step_advance.
    + destruct (hasUnfinishedTasks s2) eqn:Eu; simpl.
      * now apply step_idle.
      * now apply step_stop.
Qed.

End Reachable.

(** ** Status changes along steps *)

Section Monotone.

Variable tasks0 : list Task.

Lemma step_status c c' k t :
  Inv tasks0 (snd c) -> step c c' ->
  map_get k (tasks (snd c)) = Some t ->
  exists t', map_get k (tasks (snd c')) = Some t' /\
    (rank (status t) <= rank (status t'))%nat /\
    (status t' = running -> status t = running \/
        (status t = pending /\ canStartTask k (snd c) = true)).
Proof.
  intros H Hstep.
  destruct Hstep as [s s' Hu|s t0 rest Hlt Ha|s _ _|s _ _ _|s _ _ _];
    simpl in *; intros Hg; try (exists t; repeat split; auto; fail).
  - rewrite (Inv_updateRunningTasks tasks0 s H) in Hu. injection Hu as <-.
    rewrite completionPass_get, Hg. simpl.
    destruct (set_has k (runningTasks s) && due (currentTime s) t).
    + eexists. split; [reflexivity|]. simpl.
      split; [destruct (status t); simpl; lia | discriminate].
    + exists t. repeat split; auto.
  - destruct (available_head tasks0 s t0 rest H Ha) as [Hg0 Hcan].
    destruct (proj1 (canStartTask_true _ _) Hcan) as [t0' [Hg' [Hs _]]].
    assert (t0' = t0) by congruence. subst t0'.
    change (map_set (tid t0) (start (currentTime s) t0) (tasks s))
      with (tasks (startTask s t0)).
    rewrite startTask_get. destruct (String.eqb k (tid t0)) eqn:E.
    + apply String.eqb_eq in E. subst k.
      assert (t = t0) by congruence. subst t.
      eexists. split; [reflexivity|]. simpl. rewrite Hs. simpl.
      split; [lia | auto].
    + exists t. repeat split; auto.
Qed.

Lemma steps_status c c' :
  steps c c' -> Inv tasks0 (snd c) ->
  forall k t, map_get k (tasks (snd c)) = Some t ->
  exists t', map_get k (tasks (snd c')) = Some t' /\
             (rank (status t) <= rank (status t'))%nat.
Proof.
  intros Hs H. apply clos_rt_rtn1 in Hs.
  induction Hs as [|c1 c2 Hstep Hs IH]; intros k t Hg.
  - exists t. split; auto.
  - destruct (IH k t Hg) as [t1 [Hg1 Hr1]].
    assert (H1 : Inv tasks0 (snd c1)).
    { apply (steps_Inv tasks0 c c1); auto. now apply clos_rtn1_rt. }
    destruct (step_status c1 c2 k t1 H1 Hstep Hg1) as [t2 [Hg2 [Hr2 _]]].
    exists t2. split; auto. lia.
Qed.

End Monotone.

(** ** The running set and the entries with status running *)

Lemma NoDup_same_length {A} (l l' : list A) :
  NoDup l -> NoDup l' -> (forall x, In x l <-> In x l') ->
  List.length l = List.length l'.
Proof.
  intros H H' Hiff. apply Nat.le_antisymm.
  - apply NoDup_incl_length; auto. intros x. apply Hiff.
  - apply NoDup_incl_length; auto. intros x. apply Hiff.
Qed.

Lemma NoDup_keys_filter (f : TaskId * TaskState -> bool) m :
  NoDup (map_keys m) -> NoDup (map_keys (filter f m)).
Proof.
  unfold map_keys. induction m as [|e m IH]; simpl; auto.
  intros Hnd. inversion Hnd as [|? ? Hni Hnd']; subst.
  destruct (f e); simpl; auto. constructor; auto.
  intros Hin. apply Hni. apply in_map_iff in Hin.
  destruct Hin as [e' [He Hin]]. apply filter_In in Hin.
  rewrite <- He. apply in_map. tauto.
Qed.

Lemma Inv_running_count tasks0 s :
  Inv tasks0 s ->
  List.length (filter isRunning (tasks s)) = List.length (runningTasks s).
Proof.
  intros H.
  assert (Hnd := Inv_NoDup_keys tasks0 s H).
  transitivity (List.length (map_keys (filter isRunning (tasks s)))).
  { unfold map_keys. now rewrite length_map. }
  apply NoDup_same_length.
  - now apply NoDup_keys_filter.
  - apply (inv_nodup _ _ H).
  - intros k. rewrite (inv_running _ _ H). unfold map_keys.
    rewrite in_map_iff. split.
    + intros [[k' t] [Hk Hin]]. simpl in Hk. subst k'.
      apply filter_In in Hin. destruct Hin as [Hin Hr].
      exists t. split; [now apply In_map_get|].
      now apply status_eqb_eq.
    + intros [t [Hg Hs]]. exists (k, t). split; auto.
      apply filter_In. split; [now apply map_get_In|].
      now apply status_eqb_eq.
Qed.

Lemma step_maxConcurrent c c' :
  step c c' -> maxConcurrent (snd c') = maxConcurrent (snd c).
Proof.
  intros Hstep. destruct Hstep as [s s' Hu| | | |]; simpl; auto.
  unfold updateRunningTasks in Hu.
  destruct (forEachRunning _ _ _ _); simpl in Hu; try discriminate.
  now injection Hu as <-.
Qed.

Lemma reachable_maxConcurrent tasks0 mc c :
  reachable tasks0 mc c -> maxConcurrent (snd c) = mc.
Proof.
  intros H. apply clos_rt_rtn1 in H. induction H as [|c1 c2 Hstep _ IH]; auto.
  rewrite (step_maxConcurrent _ _ Hstep). auto.
Qed.

(** ** Work left and time elapsed *)

Lemma sumZ_map_le {A} (f g : A -> Z) l :
  (forall x, In x l -> f x <= g x) ->
  sumZ (List.map f l) <= sumZ (List.map g l).
Proof.
  induction l as [|a l IH]; simpl; intros H; [lia|].
  assert (f a <= g a) by (apply H; auto).
  assert (sumZ (List.map f l) <= sumZ (List.map g l)) by (apply IH; auto).
  lia.
Qed.

Lemma sumZ_map_lt {A} (f g : A -> Z) l a :
  (forall x, In x l -> f x <= g x) -> In a l -> f a < g a ->
  sumZ (List.map f l) < sumZ (List.map g l).
Proof.
  induction l as [|b l IH]; simpl; intros H Hin Hlt; [tauto|].
  assert (f b <= g b) by (apply H; auto).
  assert (sumZ (List.map f l) <= sumZ (List.map g l))
    by (apply sumZ_map_le; auto).
  destruct Hin as [->|Hin].
  - lia.
  - assert (sumZ (List.map f l) < sumZ (List.map g l)) by (apply IH; auto).
    lia.
Qed.

Lemma sumZ_map_nonneg {A} (f : A -> Z) l :
  (forall x, In x l -> 0 <= f x) -> 0 <= sumZ (List.map f l).
Proof.
  induction l as [|a l IH]; simpl; intros H; [lia|].
  assert (0 <= f a) by (apply H; auto).
  assert (0 <= sumZ (List.map f l)) by (apply IH; auto). lia.
Qed.

Lemma durations_set k v m :
  0 <= ttime v -> (forall e, In e m -> 0 <= ttime (snd e)) ->
  durations (map_set k v m) <= durations m + ttime v.
Proof.
  unfold durations. intros Hv. induction m as [|[k' v'] m IH]; simpl; intros H.
  - lia.
  - assert (0 <= ttime v') by (apply (H (k', v')); auto).
    destruct (String.eqb k k'); simpl.
    + lia.
    + assert (sumZ (List.map (fun e => ttime (snd e)) (map_set k v m))
              <= sumZ (List.map (fun e => ttime (snd e)) m) + ttime v)
        by (apply IH; auto). lia.
Qed.

Lemma durations_cons e m : durations (e :: m) = ttime (snd e) + durations m.
Proof. reflexivity. Qed.

Lemma durations_fold es : forall acc,
  (forall e, In e acc -> 0 <= ttime (snd e)) ->
  (forall e, In e es -> 0 <= ttime (snd e)) ->
  durations (fold_left (fun m e => map_set (fst e) (snd e) m) es acc)
  <= durations acc + durations es.
Proof.
  induction es as [|e es IH]; intros acc Ha He; cbn [fold_left].
  - unfold durations at 3. simpl. lia.
  - assert (0 <= ttime (snd e)) by (apply He; now left).
    assert (H1 := durations_set (fst e) (snd e) acc H Ha).
    rewrite durations_cons.
    etransitivity; [apply IH|]; try lia.
    + intros e' Hin.
      destruct (map_set_In _ _ _ _ Hin) as [Hi| ->]; auto.
    + intros e' Hin. apply He. now right.
Qed.

Lemma work_initial tasks0 mc :
  (forall task, In task tasks0 -> 0 < time task) ->
  work (initializeWorkflow tasks0 mc) <= totalTime tasks0.
Proof.
  intros Hpos. unfold work. simpl currentTime.
  change (tasks (initializeWorkflow tasks0 mc)) with (initialTasks tasks0).
  transitivity (durations (initialTasks tasks0)).
  - unfold durations. apply sumZ_map_le. intros e Hin.
    apply initialTasks_In in Hin. destruct Hin as [task [_ ->]].
    unfold remaining. simpl. lia.
  - unfold initialTasks, initializeWorkflow, map_of_entries. simpl.
    etransitivity; [apply durations_fold|].
    + intros e [].
    + intros e Hin. apply in_map_iff in Hin. destruct Hin as [task [<- Hin]].
      simpl. apply Hpos in Hin. lia.
    + unfold durations, totalTime. rewrite map_map. simpl.
      apply Z.eq_le_incl. f_equal.
Qed.

Section Work.

Variable tasks0 : list Task.
Hypothesis Hpos : forall task, In task tasks0 -> 0 < time task.

Lemma Inv_positive s k t :
  Inv tasks0 s -> map_get k (tasks s) = Some t -> 0 < ttime t.
Proof.
  intros H Hg.
  destruct (Inv_get_origin tasks0 s k t H Hg) as [task [Hin [_ [_ [-> _]]]]].
  auto.
Qed.

Lemma TInv_initial mc : TInv tasks0 (TickStart, initializeWorkflow tasks0 mc).
Proof.
  constructor; simpl fst; simpl snd.
  - apply Inv_initial.
  - intros k t Hg Hs. initial_entry Hg. discriminate.
  - pose proof (work_initial tasks0 mc Hpos). simpl currentTime. lia.
Qed.

Lemma work_completionPass s :
  TInv tasks0 (TickStart, s) -> work (completionPass s) <= work s.
Proof.
  intros [H Hrem _]. simpl in *. unfold work. simpl. rewrite map_map.
  apply sumZ_map_le. intros [k t] Hin. unfold completeEntry. simpl.
  destruct (set_has k (runningTasks s) && due (currentTime s) t) eqn:E;
    simpl; [|lia].
  apply andb_true_iff in E. destruct E as [Hk _].
  apply set_has_In in Hk. apply (inv_running _ _ H) in Hk.
  destruct Hk as [t' [Hg Hs]].
  assert (Hg' : map_get k (tasks s) = Some t).
  { apply In_map_get; auto. now apply (Inv_NoDup_keys tasks0). }
  assert (t' = t) by congruence. subst t'.
  specialize (Hrem k t Hg Hs). unfold remaining at 1. simpl. lia.
Qed.

Lemma work_startTask s t0 :
  Inv tasks0 s -> map_get (tid t0) (tasks s) = Some t0 -> status t0 = pending ->
  work (startTask s t0) = work s.
Proof.
  intros H Hg Hs. unfold work. rewrite (startTask_tasks tasks0 s t0 H Hg).
  simpl currentTime. rewrite map_map. f_equal. apply map_ext_in.
  intros [k t] Hin. unfold startEntry. simpl.
  destruct (String.eqb (tid t0) k) eqn:E; auto.
  apply String.eqb_eq in E. subst k.
  rewrite (NoDup_keys_entry _ _ _ _ (Inv_NoDup_keys tasks0 s H) Hin Hg).
  unfold remaining. simpl. rewrite Hs. lia.
Qed.

Lemma remaining_advance now t :
  remaining (now + 1) t <= remaining now t
  /\ (status t = running -> remaining (now + 1) t = remaining now t - 1).
Proof. unfold remaining. destruct (status t); split; intros; try lia; discriminate. Qed.

Lemma work_advance s :
  Inv tasks0 s -> (0 <? set_size (runningTasks s)) = true ->
  work (advance s) <= work s - 1.
Proof.
  intros H Hr. unfold work. simpl.
  destruct (runningTasks s) as [|k r] eqn:ER; [discriminate|].
  assert (Hk : In k (runningTasks s)) by (rewrite ER; now left).
  apply (inv_running _ _ H) in Hk. destruct Hk as [t [Hg Hs]].
  assert (sumZ (List.map (fun e => remaining (currentTime s + 1) (snd e)) (tasks s))
          < sumZ (List.map (fun e => remaining (currentTime s) (snd e)) (tasks s))).
  { apply (sumZ_map_lt _ _ _ (k, t)).
    - intros e _. apply remaining_advance.
    - now apply map_get_In.
    - simpl. destruct (remaining_advance (currentTime s) t) as [_ E].
      rewrite E; auto. lia. }
  lia.
Qed.

Lemma step_TInv c c' : TInv tasks0 c -> step c c' -> TInv tasks0 c'.
Proof.
  intros HT Hstep.
  assert (HI' : Inv tasks0 (snd c')) by (apply (step_Inv tasks0 c c'); auto; apply HT).
  destruct Hstep as [s s' Hu|s t0 rest Hlt Ha|s Hexit Hr|s _ _ _|s _ _ _].
  - assert (H := tinv_inv _ _ HT). simpl in H.
    rewrite (Inv_updateRunningTasks tasks0 s H) in Hu. injection Hu as <-.
    constructor; auto; simpl fst; simpl snd.
    + intros k t'. rewrite completionPass_get.
      destruct (map_get k (tasks s)) as [t|] eqn:Hg; simpl; [|discriminate].
      intros [= <-].
      destruct (set_has k (runningTasks s) && due (currentTime s) t) eqn:E;
        [discriminate|].
      intros Hs.
      assert (Hk : set_has k (runningTasks s) = true).
      { apply set_has_In. apply (inv_running _ _ H). eauto. }
      rewrite Hk in E. simpl in E. unfold due in E. apply Z.leb_gt in E.
      unfold remaining. rewrite Hs. lia.
    + pose proof (work_completionPass s HT). pose proof (tinv_work _ _ HT).
      simpl in *. lia.
  - assert (H := tinv_inv _ _ HT). simpl in H.
    destruct (available_head tasks0 s t0 rest H Ha) as [Hg Hcan].
    destruct (proj1 (canStartTask_true _ _) Hcan) as [t0' [Hg' [Hs _]]].
    assert (t0' = t0) by congruence. subst t0'.
    constructor; auto; simpl fst; simpl snd.
    + intros k t. rewrite startTask_get. destruct (String.eqb k (tid t0)) eqn:E.
      * intros [= <-] _. unfold remaining. simpl.
        pose proof (Inv_positive s _ _ H Hg). lia.
      * intros Hk Hsk. apply (tinv_rem _ _ HT k t); auto.
    + rewrite (work_startTask s t0 H Hg Hs). apply (tinv_work _ _ HT).
  - assert (H := tinv_inv _ _ HT). simpl in H.
    constructor; auto; simpl fst; simpl snd.
    + intros k t Hg Hs. pose proof (tinv_rem _ _ HT k t Hg Hs) as Hrem.
      simpl in *. destruct (remaining_advance (currentTime s) t) as [_ E].
      rewrite E; auto. lia.
    + pose proof (work_advance s H Hr). pose proof (tinv_work _ _ HT).
      simpl in *. lia.
  - constructor; auto; simpl fst; simpl snd.
    + intros k t Hg Hs. pose proof (tinv_rem _ _ HT k t Hg Hs). simpl in *. lia.
    + apply (tinv_work _ _ HT).
  - constructor; auto; simpl fst; simpl snd.
    + intros k t Hg Hs. pose proof (tinv_rem _ _ HT k t Hg Hs). simpl in *. lia.
    + apply (tinv_work _ _ HT).
Qed.

Lemma steps_TInv c c' : steps c c' -> TInv tasks0 c -> TInv tasks0 c'.
Proof.
  intros Hs. apply clos_rt_rtn1 in Hs. induction Hs as [|c1 c2 Hstep _ IH]; auto.
  intros H. apply (step_TInv c1 c2); auto.
Qed.

Lemma work_nonneg c : TInv tasks0 c -> 0 <= work (snd c).
Proof.
  intros HT. unfold work. apply sumZ_map_nonneg. intros [k t] Hin. simpl.
  assert (H := tinv_inv _ _ HT).
  assert (Hg : map_get k (tasks (snd c)) = Some t).
  { apply In_map_get; auto. now apply (Inv_NoDup_keys tasks0). }
  pose proof (Inv_positive _ _ _ H Hg).
  destruct (status t) eqn:Hs.
  - unfold remaining. rewrite Hs. lia.
  - pose proof (tinv_rem _ _ HT k t Hg Hs).
    assert (0 <= slack (fst c)) by (destruct (fst c); simpl; lia). lia.
  - unfold remaining. rewrite Hs. lia.
Qed.

End Work.

(** ** A finite graph in which every node of a set has a successor in the
    set has a cycle *)

Section Pigeonhole.

Variable E : TaskId -> TaskId -> Prop.
Variable P : TaskId -> Prop.
Variable K : list TaskId.
Hypothesis PK : forall k, P k -> In k K.
Hypothesis Pnext : forall k, P k -> exists k', E k k' /\ P k'.

Lemma walk n : forall k, P k ->
  exists l, List.length l = n /\ chain E k l /\ Forall P l.
Proof.
  induction n as [|n IH]; intros k Hk.
  - exists []. simpl. auto.
  - destruct (Pnext k Hk) as [k' [He Hk']].
    destruct (IH k' Hk') as [l [Hl [Hc Hp]]].
    exists (k' :: l). simpl. repeat split; auto.
Qed.

Lemma chain_path l2 : forall a b l3,
  chain E a (l2 ++ b :: l3) -> clos_trans TaskId E a b.
Proof.
  induction l2 as [|c l2 IH]; simpl; intros a b l3 [He Hc].
  - now apply t_step.
  - eapply t_trans; [apply t_step; exact He | eapply IH; exact Hc].
Qed.

Lemma chain_app_r l1 : forall a b l2,
  chain E a (l1 ++ b :: l2) -> chain E b l2.
Proof.
  induction l1 as [|c l1 IH]; simpl; intros a b l2 [He Hc]; auto.
  eapply IH. exact Hc.
Qed.

Lemma cycle_exists k : P k -> exists x, clos_trans TaskId E x x.
Proof.
  intros Hk. destruct (walk (List.length K) k Hk) as [l [Hl [Hc Hp]]].
  assert (Hnd : ~ NoDup (k :: l)).
  { intros Hnd. apply (NoDup_incl_length (l' := K)) in Hnd.
    - simpl in Hnd. lia.
    - intros x [<-|Hx]; auto. apply PK.
      rewrite Forall_forall in Hp. auto. }
  apply ListDec.not_NoDup in Hnd.
  - destruct Hnd as [a [l1 [l2 [l3 Heq]]]]. exists a.
    destruct l1 as [|b l1]; simpl in Heq; injection Heq as -> ->.
    + eapply chain_path. exact Hc.
    + apply chain_app_r in Hc. eapply chain_path. exact Hc.
  - intros x y. destruct (string_dec x y); [left | right]; auto.
Qed.

End Pigeonhole.

(** ** Progress: when nothing runs and nothing is ready, all is completed *)

Lemma forallb_false {A} (f : A -> bool) l :
  forallb f l = false -> exists x, In x l /\ f x = false.
Proof.
  induction l as [|a l IH]; simpl; [discriminate|].
  destruct (f a) eqn:E; simpl.
  - intros H. destruct (IH H) as [x [H1 H2]]. eauto.
  - intros _. eauto.
Qed.

Lemma fold_set_keys es : forall acc k,
  In k (map_keys acc) \/ In k (List.map fst es) ->
  In k (map_keys (fold_left (fun m e => map_set (fst e) (snd e) m) es acc)).
Proof.
  induction es as [|e es IH]; simpl; intros acc k H.
  - tauto.
  - apply IH. rewrite map_keys_set.
    destruct (set_has (fst e) (map_keys acc)) eqn:Eh.
    + destruct H as [H|[H|H]]; auto. left. subst k. now apply set_has_In.
    + rewrite in_app_iff. simpl. tauto.
Qed.

Lemma initialTasks_keys tasks0 task :
  In task tasks0 -> In (id task) (map_keys (initialTasks tasks0)).
Proof.
  intros H. apply fold_set_keys. right. rewrite map_map. simpl.
  now apply (in_map id).
Qed.

Lemma allCompleted_hasUnfinishedTasks s :
  NoDup (map_keys (tasks s)) ->
  (allCompleted s <-> hasUnfinishedTasks s = false).
Proof.
  intros Hnd. unfold allCompleted, hasUnfinishedTasks. split.
  - intros H. destruct (existsb _ _) eqn:E; auto.
    apply existsb_exists in E. destruct E as [t [Hin Ht]].
    unfold map_values in Hin. apply in_map_iff in Hin.
    destruct Hin as [[k t'] [Heq Hin]]. simpl in Heq. subst t'.
    apply In_map_get in Hin; auto. apply H in Hin. rewrite Hin in Ht.
    discriminate.
  - intros H k t Hg. apply map_get_In in Hg.
    destruct (status_eqb (status t) completed) eqn:E.
    + now apply status_eqb_eq.
    + assert (existsb (fun task => negb (status_eqb (status task) completed))
                (map_values (tasks s)) = true); [|congruence].
      apply existsb_exists. exists t. split; [|now rewrite E].
      unfold map_values. change t with (snd (k, t)). now apply in_map.
Qed.

Section Progress.

Variable tasks0 : list Task.
Hypothesis Hacyclic : acyclic tasks0.
Hypothesis Hresolvable : resolvable tasks0.

Lemma nothing_ready_all_completed s :
  Inv tasks0 s -> runningTasks s = [] -> getAvailableTasks s = [] ->
  allCompleted s.
Proof.
  intros H Hr Ha.
  assert (Hnd := Inv_NoDup_keys tasks0 s H).
  set (P := fun k => exists t, map_get k (tasks s) = Some t /\ status t = pending).
  assert (Hnotrun : forall k t, map_get k (tasks s) = Some t -> status t <> running).
  { intros k t Hg Hs. assert (Hin : In k (runningTasks s))
      by (apply (inv_running _ _ H); eauto). rewrite Hr in Hin. destruct Hin. }
  assert (Hnext : forall k, P k -> exists k', depends tasks0 k k' /\ P k').
  { intros k [t [Hg Hs]].
    assert (Hc : canStartTask k s = false).
    { destruct (Inv_get_origin tasks0 s k t H Hg) as [_ [_ [_ [Hid _]]]].
      assert (Hin : In t (map_values (tasks s))).
      { unfold map_values. change t with (snd (k, t)). apply in_map.
        now apply map_get_In. }
      destruct (canStartTask k s) eqn:E; auto.
      assert (In t (getAvailableTasks s)).
      { unfold getAvailableTasks. apply filter_In. split; auto. now rewrite Hid. }
      rewrite Ha in H0. destruct H0. }
    unfold canStartTask in Hc. rewrite Hg, Hs in Hc. simpl in Hc.
    apply forallb_false in Hc. destruct Hc as [d [Hd Hdc]].
    destruct (Inv_get_origin tasks0 s k t H Hg) as [task [Hin [Hid [_ [_ Hdeps]]]]].
    rewrite Hdeps in Hd.
    destruct (Hresolvable task d Hin Hd) as [task' [Hin' Hid']].
    assert (Hkd : In d (map_keys (tasks s))).
    { rewrite (static_keys _ _ (inv_static _ _ H)), <- Hid'.
      now apply initialTasks_keys. }
    apply map_get_keys in Hkd. destruct Hkd as [td Hgd].
    exists d. split.
    - exists task. auto.
    - exists td. split; auto.
      unfold isDependencyCompleted in Hdc. rewrite Hgd in Hdc.
      specialize (Hnotrun d td Hgd).
      destruct (status td); auto; [congruence | discriminate]. }
  intros k t Hg.
  destruct (status t) eqn:Hs; auto.
  - exfalso.
    destruct (cycle_exists (depends tasks0) P (map_keys (tasks s))) with (k := k)
      as [x Hx].
    + intros k' [t' [Hg' _]]. apply map_get_keys. eauto.
    + exact Hnext.
    + exists t. auto.
    + exact (Hacyclic x Hx).
  - exfalso. exact (Hnotrun k t Hg Hs).
Qed.

End Progress.

(** ** Termination of the run *)

Lemma step_currentTime c c' :
  step c c' -> currentTime (snd c) <= currentTime (snd c').
Proof.
  intros Hstep. destruct Hstep as [s s' Hu| | | |]; simpl; try lia.
  unfold updateRunningTasks in Hu.
  destruct (forEachRunning _ _ _ _); simpl in Hu; try discriminate.
  injection Hu as <-. simpl. lia.
Qed.

Lemma steps_currentTime c c' :
  steps c c' -> currentTime (snd c) <= currentTime (snd c').
Proof.
  intros Hs. apply clos_rt_rtn1 in Hs. induction Hs as [|c1 c2 Hstep _ IH].
  - lia.
  - pose proof (step_currentTime _ _ Hstep). lia.
Qed.

Lemma steps_maxConcurrent c c' :
  steps c c' -> maxConcurrent (snd c') = maxConcurrent (snd c).
Proof.
  intros Hs. apply clos_rt_rtn1 in Hs. induction Hs as [|c1 c2 Hstep _ IH]; auto.
  rewrite (step_maxConcurrent _ _ Hstep). auto.
Qed.

Section Termination.

Variable tasks0 : list Task.
Hypothesis Hpos : forall task, In task tasks0 -> 0 < time task.
Hypothesis Hacyclic : acyclic tasks0.
Hypothesis Hresolvable : resolvable tasks0.

Lemma runAll_stops n : forall s,
  TInv tasks0 (TickStart, s) -> 1 <= maxConcurrent s ->
  totalTime tasks0 - currentTime s <= Z.of_nat n ->
  exists s', runAll (S n) s = Ok s' /\
             steps (TickStart, s) (Stopped, s') /\ allCompleted s'.
Proof.
  induction n as [|n IH]; intros s HT Hmc Hn.
  all: destruct (next_steps tasks0 s (tinv_inv _ _ HT))
         as [s2 [Hsteps [Hexit [Hnext Hlast]]]];
       assert (HT2 := steps_TInv tasks0 Hpos _ _ Hsteps HT);
       assert (HI2 := tinv_inv _ _ HT2); simpl in HI2;
       assert (Hmc2 := steps_maxConcurrent _ _ Hsteps); simpl in Hmc2;
       assert (Htime := steps_currentTime _ _ Hsteps); simpl in Htime;
       cbn [runAll]; rewrite Hnext; cbn [bind];
       unfold tickEnd in *;
       destruct (0 <? set_size (runningTasks s2)) eqn:Er; cbn [fst snd] in *.
  - exfalso.
    assert (HT3 := step_TInv tasks0 Hpos _ _ HT2 Hlast).
    pose proof (tinv_work _ _ HT3) as Hw. pose proof (work_nonneg tasks0 Hpos _ HT3).
    simpl in *. lia.
  - assert (Hall : allCompleted s2).
    { apply (nothing_ready_all_completed tasks0 Hacyclic Hresolvable); auto.
      - destruct (runningTasks s2); auto. discriminate.
      - destruct Hexit as [Hc|Hc]; auto.
        apply Z.ltb_ge in Hc. apply Z.ltb_ge in Er. lia. }
    assert (Hu : hasUnfinishedTasks s2 = false).
    { apply allCompleted_hasUnfinishedTasks; auto.
      now apply (Inv_NoDup_keys tasks0). }
    rewrite Hu in *. simpl in Hlast. exists s2. repeat split; auto.
    eapply rt_trans; [exact Hsteps | now apply rt_step].
  - assert (HT3 := step_TInv tasks0 Hpos _ _ HT2 Hlast).
    destruct (IH (advance s2) HT3) as [s' [Hrun [Hst Hall]]].
    + simpl. lia.
    + simpl. lia.
    + exists s'. repeat split; auto.
      eapply rt_trans; [exact Hsteps|].
      eapply rt_trans; [apply rt_step; exact Hlast | exact Hst].
  - assert (Hall : allCompleted s2).
    { apply (nothing_ready_all_completed tasks0 Hacyclic Hresolvable); auto.
      - destruct (runningTasks s2); auto. discriminate.
      - destruct Hexit as [Hc|Hc]; auto.
        apply Z.ltb_ge in Hc. apply Z.ltb_ge in Er. lia. }
    assert (Hu : hasUnfinishedTasks s2 = false).
    { apply allCompleted_hasUnfinishedTasks; auto.
      now apply (Inv_NoDup_keys tasks0). }
    rewrite Hu in *. simpl in Hlast. exists s2. repeat split; auto.
    eapply rt_trans; [exact Hsteps | now apply rt_step].
Qed.

End Termination.

(** ** The driver's ticks are runs of the step relation *)

Lemma next_reachable tasks0 mc s s' b :
  reachable tasks0 mc (TickStart, s) -> next s = Ok (s', b) ->
  steps (TickStart, s) (phaseAfter b, s') /\
  reachable tasks0 mc (phaseAfter b, s').
Proof.
  intros Hr Hn.
  destruct (next_steps tasks0 s (reachable_Inv tasks0 mc _ Hr))
    as [s2 [Hsteps [_ [Hnext Hlast]]]].
  rewrite Hn in Hnext. injection Hnext as Heq. rewrite <- Heq in Hlast.
  simpl in Hlast.
  assert (steps (TickStart, s) (phaseAfter b, s'))
    by (eapply rt_trans; [exact Hsteps | now apply rt_step]).
  split; auto. eapply rt_trans; [exact Hr | exact H].
Qed.

Lemma after_reachable tasks0 mc n : forall s,
  reachable tasks0 mc (TickStart, s) ->
  reachable tasks0 mc (TickStart, after n s).
Proof.
  induction n as [|n IH]; intros s Hr; simpl; auto.
  destruct (next s) as [[s' [|]]| |] eqn:E; auto.
  apply IH. exact (proj2 (next_reachable tasks0 mc s s' true Hr E)).
Qed.

Lemma runAll_reachable tasks0 mc n : forall s s',
  reachable tasks0 mc (TickStart, s) -> runAll n s = Ok s' ->
  reachable tasks0 mc (Stopped, s').
Proof.
  induction n as [|n IH]; intros s s' Hr; simpl; [discriminate|].
  destruct (next s) as [[s1 b]| |] eqn:E; simpl; try discriminate.
  destruct (next_reachable tasks0 mc s s1 b Hr E) as [_ Hr1].
  destruct b; simpl in *.
  - apply IH. exact Hr1.
  - intros [= <-]. exact Hr1.
Qed.

(** A run never throws and its admission loop never runs out of fuel. *)
Lemma next_returns tasks0 mc s :
  reachable tasks0 mc (TickStart, s) -> exists s' b, next s = Ok (s', b).
Proof.
  intros Hr.
  destruct (next_steps tasks0 s (reachable_Inv tasks0 mc _ Hr))
    as [s2 [_ [_ [Hnext _]]]].
  destruct (tickEnd s2) as [s' b]. eauto.
Qed.

(** ** The class-based executor: construction and readiness *)

Lemma TaskQueue_constructor tasks0 mc :
  TaskQueue.constructor tasks0 mc = initializeWorkflow tasks0 mc.
Proof.
  unfold TaskQueue.constructor, initializeWorkflow, map_of_entries. f_equal.
  generalize (@nil (TaskId * TaskState)).
  induction tasks0 as [|task l IH]; simpl; auto.
Qed.

Lemma TaskQueue_canStartTask k s : TaskQueue.canStartTask k s = canStartTask k s.
Proof.
  unfold TaskQueue.canStartTask, canStartTask, TaskQueue.nodes.
  destruct (map_get k (tasks s)) as [t|]; auto.
  destruct (status_eqb (status t) pending); simpl; auto.
Qed.

Lemma TaskQueue_forEachRunning now ids : forall m r,
  TaskQueue.forEachRunning now ids m r = forEachRunning now ids m r.
Proof.
  induction ids as [|k ids IH]; intros m r; [reflexivity|].
  cbn [TaskQueue.forEachRunning forEachRunning].
  destruct (map_get k m) as [t|]; [|reflexivity]. unfold due.
  destruct (num (startTime t) + ttime t <=? now); apply IH.
Qed.

(** ** The class-based tick is the functional tick *)

Lemma filter_map_snd (f : TaskState -> bool) (m : TaskMap) :
  filter f (List.map snd m) = List.map snd (filter (fun e => f (snd e)) m).
Proof.
  induction m as [|e m IH]; simpl; auto.
  destruct (f (snd e)); simpl; now rewrite IH.
Qed.

Lemma TaskQueue_getAvailableTasks s :
  List.map snd (TaskQueue.getAvailableTasks s) = getAvailableTasks s.
Proof.
  unfold TaskQueue.getAvailableTasks, getAvailableTasks, map_values,
    TaskQueue.nodes.
  rewrite filter_map_snd. f_equal. apply filter_ext.
  intros e. apply TaskQueue_canStartTask.
Qed.

Section ClassBased.

Variable tasks0 : list Task.

Lemma TaskQueue_startLoop fuel : forall s,
  Inv tasks0 s -> TaskQueue.startLoop fuel s = startLoop fuel s.
Proof.
  induction fuel as [|fuel IH]; intros s H; [reflexivity|].
  cbn [TaskQueue.startLoop startLoop].
  destruct (set_size (runningTasks s) <? maxConcurrent s) eqn:Hc; [|reflexivity].
  pose proof (TaskQueue_getAvailableTasks s) as Ha.
  destruct (TaskQueue.getAvailableTasks s) as [|[k t0] rest] eqn:Eq;
    simpl in Ha; rewrite <- Ha; [reflexivity|].
  assert (Hin : In (k, t0) (tasks s)).
  { assert (Hi : In (k, t0) (TaskQueue.getAvailableTasks s))
      by (rewrite Eq; now left).
    unfold TaskQueue.getAvailableTasks in Hi. apply filter_In in Hi. tauto. }
  destruct (Inv_origin tasks0 s k t0 H Hin) as [_ [_ [_ [Hid _]]]].
  cbn [fst snd]. rewrite <- Hid.
  change (TaskQueue.nodes s) with (tasks s).
  apply (IH (startTask s t0)).
  apply (Inv_startTask tasks0 s t0 (List.map snd rest)); auto.
Qed.

Lemma TaskQueue_next s : Inv tasks0 s -> TaskQueue.next s = next s.
Proof.
  intros H. unfold TaskQueue.next, next.
  pose proof (Inv_updateRunningTasks tasks0 s H) as Hu.
  rewrite Hu. unfold updateRunningTasks in Hu.
  change (TaskQueue.nodes s) with (tasks s).
  rewrite TaskQueue_forEachRunning.
  destruct (forEachRunning (currentTime s) (runningTasks s) (tasks s)
              (runningTasks s)) as [r| |]; simpl in Hu; try discriminate.
  apply (f_equal (fun o => match o with Ok x => x | _ => s end)) in Hu.
  cbn [bind]. rewrite Hu.
  assert (Hlen : List.length (fst r) = List.length (tasks (completionPass s)))
    by (rewrite <- Hu; reflexivity).
  rewrite Hlen.
  rewrite (TaskQueue_startLoop _ _ (Inv_completionPass tasks0 s H)).
  unfold startNewTasks.
  destruct (startLoop _ (completionPass s)) as [s2| |]; reflexivity.
Qed.

Lemma TaskQueue_runAll mc fuel : forall s,
  reachable tasks0 mc (TickStart, s) -> TaskQueue.runAll fuel s = runAll fuel s.
Proof.
  induction fuel as [|fuel IH]; intros s Hr; [reflexivity|].
  cbn [TaskQueue.runAll runAll].
  rewrite (TaskQueue_next s (reachable_Inv tasks0 mc _ Hr)).
  destruct (next s) as [[s' b]| |] eqn:E; cbn [bind fst snd]; auto.
  destruct b; auto. apply IH.
  exact (proj2 (next_reachable tasks0 mc s s' true Hr E)).
Qed.

End ClassBased.

(** ** Determinism *)

Lemma step_deterministic c c1 c2 : step c c1 -> step c c2 -> c1 = c2.
Proof.
  intros H1 H2.
  destruct H1 as [s s1 Hu|s t0 rest Hlt Ha|s Hexit Hr|s Hexit Hr Hf|s Hexit Hr Hf];
    inversion H2; subst; try congruence;
    try (match goal with
         | [ He : loopExits _ |- _ ] =>
             destruct He as [He|He]; congruence
         end).
Qed.

Lemma runAll_fuel n : forall m s a b,
  runAll n s = Ok a -> runAll m s = Ok b -> a = b.
Proof.
  induction n as [|n IH]; intros m s a b Hn Hm; [discriminate|].
  destruct m as [|m]; [discriminate|].
  cbn [runAll] in Hn, Hm.
  destruct (next s) as [[s' c]| |]; cbn [bind fst snd] in *; try discriminate.
  destruct c.
  - eapply IH; eauto.
  - congruence.
Qed.

(** ** The order of the map is the order of declaration *)

Lemma fold_set_keys_prefix es : forall acc,
  exists ext,
    map_keys (fold_left (fun m e => map_set (fst e) (snd e) m) es acc)
    = map_keys acc ++ ext.
Proof.
  induction es as [|e es IH]; intros acc; simpl.
  - exists []. now rewrite app_nil_r.
  - destruct (IH (map_set (fst e) (snd e) acc)) as [ext Hext].
    rewrite Hext, map_keys_set.
    destruct (set_has (fst e) (map_keys acc)).
    + eauto.
    + exists (fst e :: ext). now rewrite <- app_assoc.
Qed.

Lemma fold_set_keys_inv es acc k :
  In k (map_keys (fold_left (fun m e => map_set (fst e) (snd e) m) es acc)) ->
  In k (map_keys acc) \/ In k (List.map fst es).
Proof.
  unfold map_keys. intros H. apply in_map_iff in H.
  destruct H as [e [<- Hin]]. apply fold_set_In in Hin.
  destruct Hin as [Hin|Hin]; [left | right]; now apply in_map.
Qed.

Lemma first_occurrence (l : list Task) k :
  In k (List.map id l) ->
  exists before task later,
    l = before ++ task :: later /\ id task = k /\ ~ In k (List.map id before).
Proof.
  induction l as [|a l IH]; simpl; [tauto|]. intros H.
  destruct (string_dec (id a) k) as [E|E].
  - exists [], a, l. simpl. auto.
  - destruct IH as [before [task [after [-> [Hid Hni]]]]]; [tauto|].
    exists (a :: before), task, after. simpl. repeat split; auto. tauto.
Qed.

Lemma NoDup_split_unique {A} (a : A) l1 : forall l2 l1' l2',
  NoDup (l1 ++ a :: l2) -> l1 ++ a :: l2 = l1' ++ a :: l2' -> l1 = l1'.
Proof.
  induction l1 as [|b l1 IH]; intros l2 l1' l2' Hnd Heq.
  - destruct l1' as [|b' l1']; auto. simpl in *. injection Heq as <- ->.
    inversion Hnd as [|? ? Hni _]; subst. exfalso. apply Hni.
    rewrite in_app_iff. simpl. auto.
  - destruct l1' as [|b' l1']; simpl in *.
    + injection Heq as -> <-. inversion Hnd as [|? ? Hni _]; subst.
      exfalso. apply Hni. rewrite in_app_iff. simpl. auto.
    + injection Heq as <- Heq. inversion Hnd; subst. f_equal.
      eapply IH; eauto.
Qed.

Lemma initialTasks_keys_split before task after :
  ~ In (id task) (List.map id before) ->
  exists ext,
    map_keys (initialTasks (before ++ task :: after))
    = map_keys (initialTasks before) ++ id task :: ext.
Proof.
  intros Hni. unfold initialTasks, initializeWorkflow, map_of_entries. simpl.
  rewrite map_app, fold_left_app. simpl.
  match goal with
  | [ |- context [map_set (id task) ?v ?M] ] =>
      destruct (fold_set_keys_prefix
                  (List.map (fun t => (id t, createTaskState t)) after)
                  (map_set (id task) v M)) as [ext Hext];
      assert (HM : ~ In (id task) (map_keys M))
  end.
  { intros Hin. apply fold_set_keys_inv in Hin. destruct Hin as [[]|Hin].
    rewrite map_map in Hin. simpl in Hin. auto. }
  exists ext. rewrite Hext, map_keys_set.
  apply set_has_false in HM. rewrite HM. now rewrite <- app_assoc.
Qed.

Lemma initialTasks_keys_sub tasks0 k :
  In k (map_keys (initialTasks tasks0)) -> In k (List.map id tasks0).
Proof.
  intros H. apply fold_set_keys_inv in H. destruct H as [[]|H].
  rewrite map_map in H. exact H.
Qed.

Lemma first_available_in_input_order tasks0 s t0 rest :
  Inv tasks0 s -> getAvailableTasks s = t0 :: rest ->
  exists before task later,
    tasks0 = before ++ task :: later /\ id task = tid t0 /\
    ~ In (id task) (List.map id before) /\
    canStartTask (id task) s = true /\
    forall task', In task' before -> canStartTask (id task') s = false.
Proof.
  intros H Ha.
  destruct (available_head tasks0 s t0 rest H Ha) as [Hg Hcan].
  assert (Hnd := Inv_NoDup_keys tasks0 s H).
  assert (Hkeys := static_keys _ _ (inv_static _ _ H)).
  (* where the chosen entry stands in the map *)
  unfold getAvailableTasks in Ha. apply filter_head in Ha.
  destruct Ha as [l1 [l2 [Hval [Hl1 _]]]].
  unfold map_values in Hval.
  apply map_eq_app in Hval. destruct Hval as [e1 [e2' [Hm [He1 He2]]]].
  apply map_eq_cons in He2. destruct He2 as [e0 [e2 [-> [He0 _]]]].
  assert (Hk0 : fst e0 = tid t0).
  { assert (Hin0 : In e0 (tasks s)) by (rewrite Hm, in_app_iff; simpl; auto).
    destruct e0 as [k0 t0']. simpl in *. subst t0'.
    destruct (Inv_origin tasks0 s k0 t0 H Hin0) as [_ [_ [_ [Hid _]]]]. auto. }
  (* where its first declaration stands in the input *)
  assert (Hin : In (tid t0) (List.map id tasks0)).
  { apply initialTasks_keys_sub. rewrite <- Hkeys. apply map_get_keys. eauto. }
  destruct (first_occurrence tasks0 (tid t0) Hin)
    as [before [task [after [Htasks [Hid Hni]]]]].
  exists before, task, after. rewrite Hid. repeat split; auto.
  intros task' Hin'.
  destruct (initialTasks_keys_split before task after) as [ext Hext];
    [now rewrite Hid|].
  rewrite <- Htasks, <- Hkeys, Hid in Hext.
  assert (Hsplit : map_keys (tasks s)
                   = List.map fst e1 ++ tid t0 :: List.map fst e2).
  { rewrite Hm. unfold map_keys. rewrite map_app. simpl. now rewrite Hk0. }
  assert (Hpre : List.map fst e1 = map_keys (initialTasks before)).
  { eapply NoDup_split_unique.
    - rewrite <- Hsplit. exact Hnd.
    - rewrite <- Hsplit. exact Hext. }
  assert (Hk' : In (id task') (List.map fst e1)).
  { rewrite Hpre. now apply initialTasks_keys. }
  apply in_map_iff in Hk'. destruct Hk' as [[k' t'] [Hfst Hine]].
  simpl in Hfst. subst k'.
  assert (Hint : In (id task', t') (tasks s))
    by (rewrite Hm, in_app_iff; auto).
  destruct (Inv_origin tasks0 s _ t' H Hint) as [_ [_ [_ [Hid' _]]]].
  rewrite <- Hid'. apply Hl1. rewrite <- He1.
  change t' with (snd (id task', t')). now apply in_map.
Qed.

(** ** Acyclic graphs by rank *)

(** A graph whose edges go down along some rank has no cycle. *)
Lemma ranked_acyclic g (rk : TaskId -> nat) :
  (forall a b, depends g a b -> (rk b < rk a)%nat) -> acyclic g.
Proof.
  intros Hrk.
  assert (Ht : forall a b, clos_trans TaskId (depends g) a b -> (rk b < rk a)%nat).
  { intros a b Hab. induction Hab as [a b Hd|a b c _ IH1 _ IH2].
    - now apply Hrk.
    - lia. }
  intros a Ha. apply Ht in Ha. lia.
Qed.

Lemma single_task_acyclic k d : acyclic [mkTask k d []].
Proof.
  apply (ranked_acyclic _ (fun _ => O)).
  intros a b [task [[<-|[]] [_ []]]].
Qed.

Lemma tasks_2_positive : forall task, In task tasks_2 -> 0 < time task.
Proof.
  apply Forall_forall. unfold tasks_2.
  repeat (apply Forall_cons; [simpl; lia|]). apply Forall_nil.
Qed.

Lemma ranked_acyclic_Forall g (rk : TaskId -> nat) :
  Forall (fun task => Forall (fun d => (rk d < rk (id task))%nat) (deps task)) g ->
  acyclic g.
Proof.
  intros H. apply (ranked_acyclic g rk). intros a b [task [Hin [<- Hd]]].
  rewrite Forall_forall in H. specialize (H task Hin).
  rewrite Forall_forall in H. auto.
Qed.

Lemma resolvable_Forall g :
  Forall (fun task => Forall (fun d => In d (List.map id g)) (deps task)) g ->
  resolvable g.
Proof.
  intros H task d Hin Hd. rewrite Forall_forall in H. specialize (H task Hin).
  rewrite Forall_forall in H. apply H in Hd. apply in_map_iff in Hd.
  destruct Hd as [task' [E I]]. eauto.
Qed.

Lemma tasks_2_acyclic : acyclic tasks_2.
Proof.
  apply (ranked_acyclic_Forall _ rank_2). unfold tasks_2.
  repeat (apply Forall_cons;
          [simpl deps; repeat (apply Forall_cons; [vm_compute; lia|]);
           apply Forall_nil|]).
  apply Forall_nil.
Qed.

Lemma tasks_2_resolvable : resolvable tasks_2.
Proof.
  apply resolvable_Forall. unfold tasks_2.
  repeat (apply Forall_cons;
          [simpl; repeat (apply Forall_cons; [tauto|]); apply Forall_nil|]).
  apply Forall_nil.
Qed.

(** * The claims *)

(** ** The reference scenario *)

(** C1: on the task list A(3), B(2, after A), C(1, after A), D(4, after B
    and C), E(1, after D) with at most 2 tasks at a time, the run stops
    after 11 ticks: A runs from 0 to 3, B from 3 to 5, C from 3 to 4, D
    from 5 to 9, E from 9 to 10, and the final time is 10. *)
Theorem reference_scenario :
  exists s,
    runAll 11 initialState = Ok s /\
    times "A" s = Some (Some 0, Some 3) /\
    times "B" s = Some (Some 3, Some 5) /\
    times "C" s = Some (Some 3, Some 4) /\
    times "D" s = Some (Some 5, Some 9) /\
    times "E" s = Some (Some 9, Some 10) /\
    currentTime s = 10 /\
    hasUnfinishedTasks s = false.
Proof.
  eexists. split; [vm_compute; reflexivity|]. vm_compute. repeat split.
Qed.

(** ** Dependency safety *)

(** C2: in every reachable configuration of a run, a step makes a task
    Running only if the task was Pending and each of its dependencies was an
    entry with status Completed; a recorded start time is at least the end
    time of every dependency; and a Pending task without dependencies is
    ready. *)
Theorem dependency_safety tasks0 mc c :
  reachable tasks0 mc c ->
  (forall c' k t',
     step c c' -> map_get k (tasks (snd c')) = Some t' -> status t' = running ->
     exists t, map_get k (tasks (snd c)) = Some t /\
       (status t = running \/
        (status t = pending /\
         forall d, In d (tdeps t) ->
           exists td, map_get d (tasks (snd c)) = Some td /\
                      status td = completed))) /\
  (forall k t st d,
     map_get k (tasks (snd c)) = Some t -> startTime t = Some st ->
     In d (tdeps t) ->
     exists td e, map_get d (tasks (snd c)) = Some td /\
                  status td = completed /\ endTime td = Some e /\ e <= st) /\
  (forall k t,
     map_get k (tasks (snd c)) = Some t -> status t = pending ->
     tdeps t = [] ->
     canStartTask k (snd c) = true /\ In t (getAvailableTasks (snd c))).
Proof.
  intros Hr. assert (H := reachable_Inv tasks0 mc c Hr).
  split; [|split].
  - intros c' k t' Hstep Hg' Hs'.
    assert (H' := step_Inv tasks0 c c' Hstep H).
    assert (Hk : In k (map_keys (tasks (snd c)))).
    { rewrite (static_keys _ _ (inv_static _ _ H)).
      rewrite <- (static_keys _ _ (inv_static _ _ H')).
      apply map_get_keys. eauto. }
    apply map_get_keys in Hk. destruct Hk as [t Hg]. exists t. split; auto.
    destruct (step_status tasks0 c c' k t H Hstep Hg) as [t2 [Hg2 [_ Hrun]]].
    assert (t2 = t') by congruence. subst t2.
    destruct (Hrun Hs') as [Hs|[Hs Hcan]]; auto.
    right. split; auto.
    apply canStartTask_true in Hcan. destruct Hcan as [t3 [Hg3 [_ Hd]]].
    assert (t3 = t) by congruence. subst t3. exact Hd.
  - intros k t st d Hg Hst Hd.
    assert (Hs : status t <> pending).
    { intros Hs. assert (Ht := inv_times _ _ H k t Hg). unfold timesOk in Ht.
      rewrite Hs in Ht. destruct Ht. congruence. }
    destruct (inv_deps _ _ H k t d Hg Hs Hd) as [td [e [st' [G1 [G2 [G3 [G4 G5]]]]]]].
    exists td, e. repeat split; auto. congruence.
  - intros k t Hg Hs Hd.
    assert (Hcan : canStartTask k (snd c) = true)
      by (unfold canStartTask; rewrite Hg, Hs, Hd; reflexivity).
    split; auto.
    unfold getAvailableTasks. apply filter_In. split.
    + unfold map_values. change t with (snd (k, t)). apply in_map.
      now apply map_get_In.
    + destruct (Inv_get_origin tasks0 _ k t H Hg) as [_ [_ [_ [-> _]]]].
      exact Hcan.
Qed.

Lemma dependency_safety_witness :
  reachable tasks_2 2 (TickStart, after 6 initialState) /\
  times "A" (after 6 initialState) = Some (Some 0, Some 3) /\
  times "D" (after 6 initialState) = Some (Some 5, None) /\
  forall k t st d,
    map_get k (tasks (after 6 initialState)) = Some t -> startTime t = Some st ->
    In d (tdeps t) ->
    exists td e, map_get d (tasks (after 6 initialState)) = Some td /\
                 status td = completed /\ endTime td = Some e /\ e <= st.
Proof.
  assert (Hr : reachable tasks_2 2 (TickStart, after 6 initialState))
    by (apply after_reachable; apply rt_refl).
  split; [exact Hr|]. split; [reflexivity|]. split; [reflexivity|].
  exact (proj1 (proj2 (dependency_safety tasks_2 2 _ Hr))).
Defined.

(** ** The concurrency bound *)

(** C3: in every reachable configuration of a run, before and after each
    pass, the size of the running set is at most the maximum concurrency,
    for every maximum concurrency that is not negative (the configuration
    of a run has a limit of at least 1); the running set has as many
    members as there are entries with status Running, so the count of
    Running tasks obeys the same bound.  Without any assumption on the
    limit the size is at most the larger of 0 and the limit.  The
    class-based executor builds the same initial state and takes the same
    ticks, so its runs go through the same states. *)
Theorem running_set_bounded tasks0 mc c :
  reachable tasks0 mc c ->
  maxConcurrent (snd c) = mc /\
  set_size (runningTasks (snd c)) <= Z.max 0 mc /\
  Z.of_nat (List.length (filter isRunning (tasks (snd c))))
    = set_size (runningTasks (snd c)) /\
  (0 <= mc ->
   set_size (runningTasks (snd c)) <= maxConcurrent (snd c) /\
   Z.of_nat (List.length (filter isRunning (tasks (snd c))))
     <= maxConcurrent (snd c)) /\
  TaskQueue.constructor tasks0 mc = initializeWorkflow tasks0 mc /\
  (fst c = TickStart -> TaskQueue.next (snd c) = next (snd c)) /\
  (forall fuel,
     TaskQueue.runAll fuel (TaskQueue.constructor tasks0 mc)
     = runAll fuel (initializeWorkflow tasks0 mc)).
Proof.
  intros Hr. assert (H := reachable_Inv tasks0 mc c Hr).
  assert (Hmc := reachable_maxConcurrent tasks0 mc c Hr).
  pose proof (inv_bound _ _ H) as Hb.
  assert (Hcount :
            Z.of_nat (List.length (filter isRunning (tasks (snd c))))
            = set_size (runningTasks (snd c)))
    by (unfold set_size; now rewrite (Inv_running_count tasks0)).
  split; [exact Hmc|].
  split; [rewrite <- Hmc; exact Hb|].
  split; [exact Hcount|].
  split; [intros Hpos; rewrite Hcount; split; lia|].
  split; [apply TaskQueue_constructor|].
  split; [intros _; now apply (TaskQueue_next tasks0)|].
  intros fuel. rewrite TaskQueue_constructor.
  apply (TaskQueue_runAll tasks0 mc). apply rt_refl.
Qed.

Lemma running_set_bounded_witness :
  reachable tasks_2 2 (TickStart, after 4 initialState) /\
  0 <= 2 /\
  runningTasks (after 4 initialState) = ["B"; "C"] /\
  set_size (runningTasks (after 4 initialState))
    <= maxConcurrent (after 4 initialState) /\
  Z.of_nat (List.length (filter isRunning (tasks (after 4 initialState))))
    <= maxConcurrent (after 4 initialState).
Proof.
  assert (Hr : reachable tasks_2 2 (TickStart, after 4 initialState))
    by (apply after_reachable; apply rt_refl).
  assert (Hpos : 0 <= 2) by lia.
  split; [exact Hr|]. split; [exact Hpos|]. split; [reflexivity|].
  exact (proj1 (proj2 (proj2 (proj2
           (running_set_bounded tasks_2 2 _ Hr)))) Hpos).
Defined.

(** ** Missing validation of the graph *)

(** C4, on the code: the two-task cycle and the list with an undeclared
    dependency are accepted by both constructions, the first tick runs on
    them, and it reports continue without changing the state. *)
Theorem cycle_accepted :
  ~ acyclic cyclic_tasks /\
  initialize cyclic_tasks 2 = Ok (initializeWorkflow cyclic_tasks 2) /\
  next (initializeWorkflow cyclic_tasks 2)
    = Ok (initializeWorkflow cyclic_tasks 2, true) /\
  ~ resolvable dangling_tasks /\
  initialize dangling_tasks 2 = Ok (initializeWorkflow dangling_tasks 2) /\
  next (initializeWorkflow dangling_tasks 2)
    = Ok (initializeWorkflow dangling_tasks 2, true) /\
  TaskQueue.next (TaskQueue.constructor cyclic_tasks 2)
    = Ok (TaskQueue.constructor cyclic_tasks 2, true).
Proof.
  assert (H1 : ~ acyclic cyclic_tasks).
  { intros H. apply (H "A"). apply t_trans with "B"; apply t_step.
    - exists (mkTask "A" 1 ["B"]). simpl. auto.
    - exists (mkTask "B" 1 ["A"]). simpl. auto. }
  assert (H2 : ~ resolvable dangling_tasks).
  { intros H.
    destruct (H (mkTask "A" 1 ["X"]) "X") as [task [[<-|[]] Hid]];
      simpl; auto. discriminate Hid. }
  split; [exact H1|]. split; [reflexivity|]. split; [reflexivity|].
  split; [exact H2|]. split; [reflexivity|]. split; reflexivity.
Qed.

(** ** Termination *)

(** C5 as stated fails by one tick: a single task of duration 1 is valid
    input, the durations add up to 1, and the driver reports stop in its
    second tick, not in its first.  With a duration of 0 the sum is 0 and the
    run still takes two ticks, so a bound of the sum plus one needs positive
    durations. *)
Lemma ticks_exceed_total_time :
  (forall task, In task [mkTask "A" 1 []] -> 0 < time task) /\
  acyclic [mkTask "A" 1 []] /\ resolvable [mkTask "A" 1 []] /\
  totalTime [mkTask "A" 1 []] = 1 /\
  next (initializeWorkflow [mkTask "A" 1 []] 1)
    = Ok (after 1 (initializeWorkflow [mkTask "A" 1 []] 1), true) /\
  ~ (exists n s',
      (n <= Z.to_nat (totalTime [mkTask "A" 1 []]))%nat /\
      runAll n (initializeWorkflow [mkTask "A" 1 []] 1) = Ok s') /\
  acyclic [mkTask "A" 0 []] /\ resolvable [mkTask "A" 0 []] /\
  totalTime [mkTask "A" 0 []] = 0 /\
  ~ (exists n s',
      (n <= S (Z.to_nat (totalTime [mkTask "A" 0 []])))%nat /\
      runAll n (initializeWorkflow [mkTask "A" 0 []] 1) = Ok s').
Proof.
  split; [intros task [<-|[]]; simpl; lia|].
  split; [apply single_task_acyclic|].
  split; [intros task d [<-|[]] []|].
  split; [reflexivity|]. split; [reflexivity|].
  split.
  { intros [n [s' [Hn Hrun]]]. change (Z.to_nat _) with 1%nat in Hn.
    destruct n as [|[|n]]; [discriminate Hrun | discriminate Hrun | lia]. }
  split; [apply single_task_acyclic|].
  split; [intros task d [<-|[]] []|].
  split; [reflexivity|].
  intros [n [s' [Hn Hrun]]]. change (Z.to_nat _) with 0%nat in Hn.
  destruct n as [|[|n]]; [discriminate Hrun | discriminate Hrun | lia].
Qed.

(** C5, amended: for an acyclic input list whose dependencies are all
    declared, with positive durations and a maximum concurrency of at least
    1, the driver reports stop after at most one tick more than the sum of
    the durations; then every task is Completed, nothing is running, and the
    final time is at most the sum of the durations. *)
Theorem run_terminates tasks0 mc :
  (forall task, In task tasks0 -> 0 < time task) ->
  acyclic tasks0 -> resolvable tasks0 -> 1 <= mc ->
  exists s',
    runAll (S (Z.to_nat (totalTime tasks0))) (initializeWorkflow tasks0 mc) = Ok s' /\
    reachable tasks0 mc (Stopped, s') /\
    allCompleted s' /\ hasUnfinishedTasks s' = false /\
    runningTasks s' = [] /\
    currentTime s' <= totalTime tasks0.
Proof.
  intros Hpos Hac Hres Hmc.
  assert (HT := TInv_initial tasks0 Hpos mc).
  destruct (runAll_stops tasks0 Hpos Hac Hres (Z.to_nat (totalTime tasks0))
              (initializeWorkflow tasks0 mc) HT Hmc) as [s' [Hrun [Hst Hall]]].
  { simpl. pose proof (tinv_work _ _ HT) as Hw.
    pose proof (work_nonneg tasks0 Hpos _ HT). simpl in *. lia. }
  assert (HT' := steps_TInv tasks0 Hpos _ _ Hst HT).
  assert (H' := tinv_inv _ _ HT'). simpl in H'.
  exists s'. repeat split; auto.
  - apply allCompleted_hasUnfinishedTasks; auto.
    now apply (Inv_NoDup_keys tasks0).
  - destruct (runningTasks s') as [|k r] eqn:E; auto.
    assert (Hk : In k (runningTasks s')) by (rewrite E; now left).
    apply (inv_running _ _ H') in Hk. destruct Hk as [t [Hg Hs]].
    apply Hall in Hg. congruence.
  - pose proof (tinv_work _ _ HT') as Hw.
    pose proof (work_nonneg tasks0 Hpos _ HT'). simpl in *. lia.
Qed.

Lemma run_terminates_witness :
  exists s',
    runAll (S (Z.to_nat (totalTime tasks_2))) (initializeWorkflow tasks_2 2) = Ok s' /\
    reachable tasks_2 2 (Stopped, s') /\
    allCompleted s' /\ hasUnfinishedTasks s' = false /\
    runningTasks s' = [] /\
    currentTime s' <= totalTime tasks_2.
Proof.
  apply (run_terminates tasks_2 2).
  - exact tasks_2_positive.
  - exact tasks_2_acyclic.
  - exact tasks_2_resolvable.
  - lia.
Defined.

(** ** No iteration ceiling *)

(** C6, on the code: on the two-task cycle a tick returns the state it was
    given and reports continue, in both executors, so the loop of [runAll]
    is still running after any number of ticks; there is no ceiling, no
    tick throws and none reports stop. *)
Theorem cycle_never_stops :
  next (initializeWorkflow cyclic_tasks 2)
    = Ok (initializeWorkflow cyclic_tasks 2, true) /\
  TaskQueue.next (TaskQueue.constructor cyclic_tasks 2)
    = Ok (TaskQueue.constructor cyclic_tasks 2, true) /\
  forall fuel,
    runAll fuel (initializeWorkflow cyclic_tasks 2) = OutOfFuel /\
    TaskQueue.runAll fuel (TaskQueue.constructor cyclic_tasks 2) = OutOfFuel.
Proof.
  split; [reflexivity|]. split; [reflexivity|].
  induction fuel as [|fuel [IH1 IH2]]; split; try reflexivity.
  - exact IH1.
  - exact IH2.
Qed.

(** ** Monotonic status *)

(** C7: from a reachable configuration, along any number of steps (so
    across any number of ticks), the status of each task only moves forward
    in the order Pending, Running, Completed: a Completed task stays
    Completed and a Running task never becomes Pending again. *)
Theorem status_monotonic tasks0 mc c c' :
  reachable tasks0 mc c -> steps c c' ->
  forall k t, map_get k (tasks (snd c)) = Some t ->
  exists t', map_get k (tasks (snd c')) = Some t' /\
    (rank (status t) <= rank (status t'))%nat /\
    (status t = completed -> status t' = completed) /\
    (status t = running -> status t' <> pending).
Proof.
  intros Hr Hs k t Hg.
  destruct (steps_status tasks0 c c' Hs (reachable_Inv tasks0 mc c Hr) k t Hg)
    as [t' [Hg' Hrank]].
  exists t'. repeat split; auto.
  - intros E. rewrite E in Hrank. destruct (status t'); simpl in *; auto; lia.
  - intros E E'. rewrite E, E' in Hrank. simpl in Hrank. lia.
Qed.

Lemma status_monotonic_witness :
  reachable tasks_2 2 (TickStart, after 4 initialState) /\
  steps (TickStart, after 4 initialState) (TickStart, after 2 (after 4 initialState)) /\
  option_map status (map_get "B" (tasks (after 4 initialState))) = Some running /\
  forall k t, map_get k (tasks (after 4 initialState)) = Some t ->
  exists t', map_get k (tasks (after 2 (after 4 initialState))) = Some t' /\
    (rank (status t) <= rank (status t'))%nat /\
    (status t = completed -> status t' = completed) /\
    (status t = running -> status t' <> pending).
Proof.
  assert (Hr : reachable tasks_2 2 (TickStart, after 4 initialState))
    by (apply after_reachable; apply rt_refl).
  assert (Hs : steps (TickStart, after 4 initialState)
                     (TickStart, after 2 (after 4 initialState))).
  { assert (N1 : next (after 4 initialState)
                 = Ok (after 1 (after 4 initialState), true)) by reflexivity.
    destruct (next_reachable tasks_2 2 _ _ _ Hr N1) as [S1 R1].
    assert (N2 : next (after 1 (after 4 initialState))
                 = Ok (after 2 (after 4 initialState), true)) by reflexivity.
    destruct (next_reachable tasks_2 2 _ _ _ R1 N2) as [S2 _].
    eapply rt_trans; [exact S1 | exact S2]. }
  split; [exact Hr|]. split; [exact Hs|]. split; [reflexivity|].
  exact (status_monotonic tasks_2 2 _ _ Hr Hs).
Defined.

(** ** Initialization *)

(** C8 as stated fails: with a maximum concurrency of 0 initialization
    returns a state. *)
Lemma zero_limit_accepted :
  0 < 1 /\
  initialize tasks_2 0 = Ok (initializeWorkflow tasks_2 0) /\
  ~ exists e, initialize tasks_2 0 = Throw e.
Proof.
  split; [lia|]. split; [reflexivity|]. intros [e H]. discriminate H.
Qed.

(** C8, amended: initialization checks nothing and never fails; whatever the
    task list and the maximum concurrency, below 1 included, it returns the
    state with time 0, every task Pending without times, and an empty
    running set, in both executors; on the empty list the first tick reports
    stop and leaves that state, at time 0. *)
Theorem initialize_never_fails tasks0 mc :
  initialize tasks0 mc = Ok (initializeWorkflow tasks0 mc) /\
  TaskQueue.constructor tasks0 mc = initializeWorkflow tasks0 mc /\
  currentTime (initializeWorkflow tasks0 mc) = 0 /\
  runningTasks (initializeWorkflow tasks0 mc) = [] /\
  maxConcurrent (initializeWorkflow tasks0 mc) = mc /\
  (forall k t, map_get k (tasks (initializeWorkflow tasks0 mc)) = Some t ->
     status t = pending /\ startTime t = None /\ endTime t = None) /\
  (forall task, In task tasks0 ->
     exists t, map_get (id task) (tasks (initializeWorkflow tasks0 mc)) = Some t) /\
  runAll 1 (initializeWorkflow [] mc) = Ok (initializeWorkflow [] mc).
Proof.
  split; [reflexivity|]. split; [apply TaskQueue_constructor|].
  split; [reflexivity|]. split; [reflexivity|]. split; [reflexivity|].
  split; [|split].
  - intros k t Hg. initial_entry Hg. repeat split.
  - intros task Hin. apply map_get_keys. now apply initialTasks_keys.
  - unfold runAll, next, updateRunningTasks, startNewTasks. simpl.
    destruct (set_size [] <? mc); reflexivity.
Qed.

(** ** Tie-break *)

(** C9: in the admission pass of a run, the task chosen is the first ready
    task in the order of declaration: the input list splits at the first
    declaration of the chosen identifier, and no task declared before it is
    ready.  The choice, like every other step, is a function of the
    configuration, so two runs of [runAll] from the same list and limit end
    in the same state. *)
Theorem admission_in_input_order tasks0 mc s taskToStart rest :
  reachable tasks0 mc (Admitting, s) ->
  getAvailableTasks s = taskToStart :: rest ->
  (exists before task later,
     tasks0 = before ++ task :: later /\ id task = tid taskToStart /\
     ~ In (id task) (List.map id before) /\
     canStartTask (id task) s = true /\
     forall task', In task' before -> canStartTask (id task') s = false) /\
  (forall c',
     step (Admitting, s) c' ->
     (set_size (runningTasks s) <? maxConcurrent s) = true ->
     c' = (Admitting, startTask s taskToStart)) /\
  (forall c c1 c2, step c c1 -> step c c2 -> c1 = c2) /\
  (forall n m a b,
     runAll n (initializeWorkflow tasks0 mc) = Ok a ->
     runAll m (initializeWorkflow tasks0 mc) = Ok b -> a = b).
Proof.
  intros Hr Ha. split; [|split; [|split]].
  - apply (first_available_in_input_order tasks0 s taskToStart rest); auto.
    exact (reachable_Inv tasks0 mc _ Hr).
  - intros c' Hstep Hlt. apply (step_deterministic (Admitting, s)); auto.
    now apply (step_startTask s taskToStart rest).
  - exact step_deterministic.
  - intros n m a b. apply runAll_fuel.
Qed.

Lemma admission_in_input_order_witness :
  reachable tasks_2 2 (Admitting, completionPass (after 3 initialState)) /\
  getAvailableTasks (completionPass (after 3 initialState))
    = [createTaskState (mkTask "B" 2 ["A"]); createTaskState (mkTask "C" 1 ["A"])] /\
  exists before task later,
    tasks_2 = before ++ task :: later /\ id task = "B" /\
    ~ In (id task) (List.map id before) /\
    canStartTask (id task) (completionPass (after 3 initialState)) = true /\
    forall task', In task' before ->
      canStartTask (id task') (completionPass (after 3 initialState)) = false.
Proof.
  assert (Hr : reachable tasks_2 2
                 (Admitting, completionPass (after 3 initialState))).
  { eapply rt_trans.
    - apply (after_reachable tasks_2 2 3). apply rt_refl.
    - apply rt_step. apply step_complete. reflexivity. }
  split; [exact Hr|]. split; [reflexivity|].
  exact (proj1 (admission_in_input_order tasks_2 2 _
                  (createTaskState (mkTask "B" 2 ["A"]))
                  [createTaskState (mkTask "C" 1 ["A"])] Hr eq_refl)).
Defined.

(** ** Unknown dependencies *)

(** C10: in any state, an identifier that is not a key of the map counts as
    not completed, a task with such an identifier among its dependencies
    cannot start, it is not the task an admission picks, and the same holds
    for the class-based executor; no lookup throws. *)
Theorem unknown_dependency_never_ready s k t d :
  map_get k (tasks s) = Some t -> In d (tdeps t) -> map_get d (tasks s) = None ->
  isDependencyCompleted d (tasks s) = false /\
  canStartTask k s = false /\
  (forall t0, In t0 (getAvailableTasks s) -> tid t0 <> k) /\
  TaskQueue.canStartTask k s = false /\
  (forall slot, In slot (TaskQueue.getAvailableTasks s) -> tid (snd slot) <> k).
Proof.
  intros Hg Hd Hn.
  assert (Hdc : isDependencyCompleted d (tasks s) = false)
    by (unfold isDependencyCompleted; now rewrite Hn).
  assert (Hc : canStartTask k s = false).
  { unfold canStartTask. rewrite Hg.
    destruct (forallb _ (tdeps t)) eqn:E; [|apply andb_false_r].
    rewrite forallb_forall in E. rewrite (E d Hd) in Hdc. discriminate. }
  repeat split; auto.
  - intros t0 Hin Heq. unfold getAvailableTasks in Hin.
    apply filter_In in Hin. destruct Hin as [_ Hin]. simpl in Hin.
    rewrite Heq, Hc in Hin. discriminate Hin.
  - now rewrite TaskQueue_canStartTask.
  - intros [k' t'] Hin Heq. unfold TaskQueue.getAvailableTasks in Hin.
    apply filter_In in Hin. destruct Hin as [_ Hin]. cbn [snd] in *.
    rewrite TaskQueue_canStartTask, Heq, Hc in Hin. discriminate Hin.
Qed.

Lemma unknown_dependency_never_ready_witness :
  canStartTask "A" (initializeWorkflow dangling_tasks 2) = false /\
  getAvailableTasks (initializeWorkflow dangling_tasks 2) = [] /\
  TaskQueue.canStartTask "A" (initializeWorkflow dangling_tasks 2) = false.
Proof.
  pose proof (unknown_dependency_never_ready
                (initializeWorkflow dangling_tasks 2) "A"
                (createTaskState (mkTask "A" 1 ["X"])) "X"
                eq_refl (or_introl eq_refl) eq_refl) as [_ [H1 [_ [H2 _]]]].
  split; [exact H1|]. split; [reflexivity | exact H2].
Defined.


(** * Further properties of the executors *)

(** ** Initialization: the map that is built *)

Lemma fold_set_get_other es : forall acc k,
  ~ In k (List.map fst es) ->
  map_get k (fold_left (fun m e => map_set (fst e) (snd e) m) es acc)
  = map_get k acc.
Proof.
  induction es as [|e es IH]; intros acc k Hni; simpl; auto.
  rewrite IH by (simpl in Hni; tauto).
  apply map_get_set_other. simpl in Hni. intros E. apply Hni. auto.
Qed.

Lemma initialTasks_get_last before task later :
  ~ In (id task) (List.map id later) ->
  map_get (id task) (initialTasks (before ++ task :: later))
  = Some (createTaskState task).
Proof.
  intros Hni. unfold initialTasks, initializeWorkflow, map_of_entries. simpl.
  rewrite map_app, fold_left_app. simpl.
  rewrite fold_set_get_other.
  - apply map_get_set_same.
  - rewrite map_map. exact Hni.
Qed.

Lemma fold_set_fresh es : forall acc,
  NoDup (map_keys acc ++ List.map fst es) ->
  fold_left (fun m e => map_set (fst e) (snd e) m) es acc = acc ++ es.
Proof.
  induction es as [|[k v] es IH]; intros acc Hnd; simpl.
  - now rewrite app_nil_r.
  - simpl in Hnd.
    assert (Hk : ~ In k (map_keys acc)).
    { apply NoDup_remove_2 in Hnd. rewrite in_app_iff in Hnd. tauto. }
    assert (Hset : map_set k v acc = acc ++ [(k, v)]).
    { clear - Hk. induction acc as [|[k' v'] acc IHa]; simpl in *; auto.
      destruct (String.eqb k k') eqn:E.
      - apply String.eqb_eq in E. subst. tauto.
      - f_equal. apply IHa. tauto. }
    rewrite Hset, IH.
    + now rewrite <- app_assoc.
    + unfold map_keys in *. rewrite map_app, <- app_assoc. exact Hnd.
Qed.

Lemma initialTasks_unique tasks0 :
  NoDup (List.map id tasks0) ->
  initialTasks tasks0
  = List.map (fun task => (id task, createTaskState task)) tasks0.
Proof.
  intros Hnd. unfold initialTasks, initializeWorkflow, map_of_entries. simpl.
  rewrite fold_set_fresh; auto. simpl. now rewrite map_map.
Qed.

(** X1: when the identifiers of the input are pairwise distinct, the map of
    the initial state lists the tasks in the order of declaration, each as
    a Pending entry under its identifier. *)
Theorem initializeWorkflow_unique_ids tasks0 mc :
  NoDup (List.map id tasks0) ->
  tasks (initializeWorkflow tasks0 mc)
    = List.map (fun task => (id task, createTaskState task)) tasks0 /\
  map_keys (tasks (initializeWorkflow tasks0 mc)) = List.map id tasks0 /\
  tasks (TaskQueue.constructor tasks0 mc)
    = List.map (fun task => (id task, createTaskState task)) tasks0.
Proof.
  intros Hnd. pose proof (initialTasks_unique tasks0 Hnd) as H.
  unfold initialTasks in H. simpl in H.
  split; [exact H|]. split.
  - simpl. rewrite H. unfold map_keys. now rewrite map_map.
  - rewrite TaskQueue_constructor. exact H.
Qed.

Lemma initializeWorkflow_unique_ids_witness :
  NoDup (List.map id tasks_2) /\
  map_keys (tasks (initializeWorkflow tasks_2 2)) = ["A"; "B"; "C"; "D"; "E"].
Proof.
  assert (Hnd : NoDup (List.map id tasks_2)).
  { simpl. repeat (constructor; [simpl; intuition discriminate|]). constructor. }
  split; [exact Hnd|].
  exact (proj1 (proj2 (initializeWorkflow_unique_ids tasks_2 2 Hnd))).
Defined.

(** X2: when an identifier is declared more than once, the entry of the
    initial state carries the fields of the last declaration; the keys of
    the map have no duplicates and are exactly the declared identifiers. *)
Theorem initializeWorkflow_last_declaration_wins tasks0 mc before task later :
  tasks0 = before ++ task :: later ->
  ~ In (id task) (List.map id later) ->
  map_get (id task) (tasks (initializeWorkflow tasks0 mc))
    = Some (createTaskState task) /\
  NoDup (map_keys (tasks (initializeWorkflow tasks0 mc))) /\
  (forall k, In k (map_keys (tasks (initializeWorkflow tasks0 mc)))
             <-> In k (List.map id tasks0)).
Proof.
  intros -> Hni. split; [|split].
  - now apply initialTasks_get_last.
  - apply initialTasks_NoDup.
  - intros k. split.
    + apply initialTasks_keys_sub.
    + intros Hin. apply in_map_iff in Hin. destruct Hin as [t [<- Hin]].
      now apply initialTasks_keys.
Qed.

Lemma initializeWorkflow_last_declaration_wins_witness :
  tasks (initializeWorkflow
           [mkTask "A" 3 []; mkTask "B" 2 ["A"]; mkTask "A" 7 ["B"]] 2)
  = [("A", createTaskState (mkTask "A" 7 ["B"]));
     ("B", createTaskState (mkTask "B" 2 ["A"]))] /\
  map_get "A" (tasks (initializeWorkflow
                        [mkTask "A" 3 []; mkTask "B" 2 ["A"]; mkTask "A" 7 ["B"]] 2))
  = Some (createTaskState (mkTask "A" 7 ["B"])).
Proof.
  split; [reflexivity|].
  refine (proj1 (initializeWorkflow_last_declaration_wins
                   [mkTask "A" 3 []; mkTask "B" 2 ["A"]; mkTask "A" 7 ["B"]] 2
                   [mkTask "A" 3 []; mkTask "B" 2 ["A"]] (mkTask "A" 7 ["B"]) []
                   eq_refl _)).
  simpl. tauto.
Defined.

(** ** What a run leaves alone *)

Lemma static_get m m' k t :
  NoDup (map_keys m') -> List.map static m = List.map static m' ->
  map_get k m = Some t ->
  exists t0, map_get k m' = Some t0 /\ tid t = tid t0 /\
             ttime t = ttime t0 /\ tdeps t = tdeps t0.
Proof.
  intros Hnd Hs Hg. apply map_get_In in Hg.
  assert (H1 : In (static (k, t)) (List.map static m')).
  { rewrite <- Hs. now apply in_map. }
  apply in_map_iff in H1. destruct H1 as [[k0 t0] [Heq Hin]].
  unfold static in Heq. simpl in Heq. injection Heq as -> E1 E2 E3.
  exists t0. repeat split; auto. now apply In_map_get.
Qed.

(** X3: a run never adds, removes or reorders the entries of the task map
    and never changes the identifier, the duration or the dependencies of
    an entry; each entry sits under its own identifier, and the limit stays
    the one given at initialization. *)
Theorem run_keeps_the_tasks tasks0 mc c :
  reachable tasks0 mc c ->
  map_keys (tasks (snd c)) = map_keys (tasks (initializeWorkflow tasks0 mc)) /\
  maxConcurrent (snd c) = mc /\
  forall k t, map_get k (tasks (snd c)) = Some t ->
    tid t = k /\
    exists t0, map_get k (tasks (initializeWorkflow tasks0 mc)) = Some t0 /\
               ttime t = ttime t0 /\ tdeps t = tdeps t0.
Proof.
  intros Hr. assert (H := reachable_Inv tasks0 mc c Hr).
  split; [|split].
  - exact (static_keys _ _ (inv_static _ _ H)).
  - exact (reachable_maxConcurrent tasks0 mc c Hr).
  - intros k t Hg. split.
    + destruct (Inv_get_origin tasks0 _ k t H Hg) as [_ [_ [_ [E _]]]]. exact E.
    + destruct (static_get _ _ k t (initialTasks_NoDup tasks0)
                  (inv_static _ _ H) Hg) as [t0 [G [_ [E1 E2]]]].
      exists t0. auto.
Qed.

Lemma run_keeps_the_tasks_witness :
  reachable tasks_2 2 (TickStart, after 6 initialState) /\
  map_keys (tasks (after 6 initialState)) = ["A"; "B"; "C"; "D"; "E"].
Proof.
  assert (Hr : reachable tasks_2 2 (TickStart, after 6 initialState))
    by (apply after_reachable; apply rt_refl).
  split; [exact Hr|].
  exact (proj1 (run_keeps_the_tasks tasks_2 2 _ Hr)).
Defined.

(** X4: in every reachable state the running set lists, without
    repetition, exactly the identifiers whose entry has status Running; an
    entry has a start time exactly when it is not Pending and an end time
    exactly when it is Completed; and no recorded time is later than the
    current time. *)
Theorem status_and_times_agree tasks0 mc c :
  reachable tasks0 mc c ->
  NoDup (runningTasks (snd c)) /\
  (forall k, In k (runningTasks (snd c)) <->
     exists t, map_get k (tasks (snd c)) = Some t /\ status t = running) /\
  forall k t, map_get k (tasks (snd c)) = Some t ->
    (startTime t = None <-> status t = pending) /\
    (endTime t <> None <-> status t = completed) /\
    (forall st, startTime t = Some st -> st <= currentTime (snd c)) /\
    (forall e, endTime t = Some e -> e <= currentTime (snd c)).
Proof.
  intros Hr. assert (H := reachable_Inv tasks0 mc c Hr).
  split; [apply H|]. split; [apply H|].
  intros k t Hg. assert (Ht := inv_times _ _ H k t Hg). unfold timesOk in Ht.
  destruct (status t).
  - destruct Ht as [E1 E2]. rewrite E1, E2.
    repeat split; intros; try discriminate; congruence.
  - destruct Ht as [st [E1 [Hle E2]]]. rewrite E1, E2.
    repeat split; intros; try discriminate; congruence.
  - destruct Ht as [st [e [E1 [E2 [H1 H2]]]]]. rewrite E1, E2.
    repeat split; intros; try discriminate; try congruence;
      match goal with [ Hs : Some _ = Some _ |- _ ] => injection Hs as <- end;
      lia.
Qed.

Lemma status_and_times_agree_witness :
  reachable tasks_2 2 (TickStart, after 4 initialState) /\
  runningTasks (after 4 initialState) = ["B"; "C"] /\
  NoDup (runningTasks (after 4 initialState)).
Proof.
  assert (Hr : reachable tasks_2 2 (TickStart, after 4 initialState))
    by (apply after_reachable; apply rt_refl).
  split; [exact Hr|]. split; [reflexivity|].
  exact (proj1 (status_and_times_agree tasks_2 2 _ Hr)).
Defined.

(** ** Exceptions *)

Lemma runAll_no_throw tasks0 mc fuel : forall s e,
  reachable tasks0 mc (TickStart, s) -> runAll fuel s <> Throw e.
Proof.
  induction fuel as [|fuel IH]; intros s e Hr; [discriminate|].
  cbn [runAll]. destruct (next_returns tasks0 mc s Hr) as [s' [b E]].
  rewrite E. cbn [bind fst snd]. destruct b; [|discriminate].
  apply IH. exact (proj2 (next_reachable tasks0 mc s s' true Hr E)).
Qed.

(** X5: a run never throws: from every state a run reaches at the start of
    a tick, [next] returns a state and a flag (the non-null assertions on
    the running tasks hold and the admission loop ends), and [runAll] never
    ends in an exception, whatever the input. *)
Theorem run_never_throws tasks0 mc s :
  reachable tasks0 mc (TickStart, s) ->
  (exists s' b, next s = Ok (s', b) /\ TaskQueue.next s = Ok (s', b)) /\
  (forall fuel e, runAll fuel s <> Throw e) /\
  (forall fuel e, runAll fuel (initializeWorkflow tasks0 mc) <> Throw e).
Proof.
  intros Hr. split; [|split].
  - destruct (next_returns tasks0 mc s Hr) as [s' [b E]]. exists s', b.
    split; auto.
    rewrite (TaskQueue_next tasks0 s (reachable_Inv tasks0 mc _ Hr)). exact E.
  - intros fuel e. now apply (runAll_no_throw tasks0 mc).
  - intros fuel e. apply (runAll_no_throw tasks0 mc). apply rt_refl.
Qed.

Lemma run_never_throws_witness :
  reachable cyclic_tasks 2 (TickStart, initializeWorkflow cyclic_tasks 2) /\
  exists s' b, next (initializeWorkflow cyclic_tasks 2) = Ok (s', b) /\
               TaskQueue.next (initializeWorkflow cyclic_tasks 2) = Ok (s', b).
Proof.
  assert (Hr : reachable cyclic_tasks 2
                 (TickStart, initializeWorkflow cyclic_tasks 2))
    by apply rt_refl.
  split; [exact Hr|].
  exact (proj1 (run_never_throws cyclic_tasks 2 _ Hr)).
Defined.

Lemma forEachRunning_missing now ids : forall m r k,
  In k ids -> map_get k m = None ->
  forEachRunning now ids m r = Throw TypeError.
Proof.
  induction ids as [|a ids IH]; intros m r k Hin Hk; [destruct Hin|].
  cbn [forEachRunning]. destruct (map_get a m) as [t|] eqn:Ha; [|reflexivity].
  assert (Hne : k <> a) by (intros ->; congruence).
  destruct Hin as [->|Hin]; [congruence|].
  destruct (due now t).
  - apply (IH _ _ k); auto. now rewrite map_get_set_other.
  - now apply (IH _ _ k).
Qed.

Lemma forEachRunning_present now ids : forall m r,
  (forall k, In k ids -> In k (map_keys m)) ->
  exists r', forEachRunning now ids m r = Ok r'.
Proof.
  induction ids as [|a ids IH]; intros m r Hsub; [simpl; eauto|].
  cbn [forEachRunning].
  assert (Ha : In a (map_keys m)) by (apply Hsub; now left).
  destruct (proj1 (map_get_keys a m) Ha) as [t Ht]. rewrite Ht.
  destruct (due now t).
  - apply IH. intros k Hk. rewrite map_keys_set.
    apply set_has_In in Ha. rewrite Ha. apply Hsub. now right.
  - apply IH. intros k Hk. apply Hsub. now right.
Qed.

(** X6: in any state, the completion pass returns exactly when every
    identifier of the running set is a key of the task map; if one is
    missing, [updateRunningTasks] throws a TypeError, and so does the tick
    of either executor. *)
Theorem updateRunningTasks_throws_on_missing s :
  ((exists s', updateRunningTasks s = Ok s') <->
   (forall k, In k (runningTasks s) -> exists t, map_get k (tasks s) = Some t)) /\
  (forall k, In k (runningTasks s) -> map_get k (tasks s) = None ->
     updateRunningTasks s = Throw TypeError /\
     next s = Throw TypeError /\
     TaskQueue.next s = Throw TypeError).
Proof.
  assert (Hmiss : forall k, In k (runningTasks s) -> map_get k (tasks s) = None ->
            forEachRunning (currentTime s) (runningTasks s) (tasks s)
              (runningTasks s) = Throw TypeError).
  { intros k Hin Hk. now apply (forEachRunning_missing _ _ _ _ k). }
  split.
  - split.
    + intros [s' E] k Hin.
      destruct (map_get k (tasks s)) as [t|] eqn:Hk; eauto.
      unfold updateRunningTasks in E. rewrite (Hmiss k Hin Hk) in E.
      discriminate E.
    + intros Hall.
      destruct (forEachRunning_present (currentTime s) (runningTasks s)
                  (tasks s) (runningTasks s)) as [r' E].
      { intros k Hk. apply map_get_keys. auto. }
      unfold updateRunningTasks. rewrite E. simpl. eauto.
  - intros k Hin Hk. specialize (Hmiss k Hin Hk).
    assert (Hu : updateRunningTasks s = Throw TypeError)
      by (unfold updateRunningTasks; now rewrite Hmiss).
    split; [exact Hu|]. split.
    + unfold next. now rewrite Hu.
    + unfold TaskQueue.next. change (TaskQueue.nodes s) with (tasks s).
      now rewrite TaskQueue_forEachRunning, Hmiss.
Qed.

Lemma updateRunningTasks_throws_on_missing_witness :
  updateRunningTasks (mkState [] 0 ["Z"] 1) = Throw TypeError /\
  next (mkState [] 0 ["Z"] 1) = Throw TypeError /\
  TaskQueue.next (mkState [] 0 ["Z"] 1) = Throw TypeError.
Proof.
  exact (proj2 (updateRunningTasks_throws_on_missing (mkState [] 0 ["Z"] 1))
               "Z" (or_introl eq_refl) eq_refl).
Defined.

(** ** How long a task holds its slot *)

Section Timing.

Variable tasks0 : list Task.

Lemma Inv_running_entry s k t :
  Inv tasks0 s -> map_get k (tasks s) = Some t -> status t = running ->
  In k (runningTasks s) /\ exists st, startTime t = Some st.
Proof.
  intros H Hg Hs. split.
  - apply (inv_running _ _ H). eauto.
  - assert (Ht := inv_times _ _ H k t Hg). unfold timesOk in Ht.
    rewrite Hs in Ht. destruct Ht as [st [E _]]. eauto.
Qed.

Lemma step_Timing c c' :
  Inv tasks0 (snd c) -> Timing c -> step c c' -> Timing c'.
Proof.
  intros H HT Hstep.
  destruct Hstep as [s s' Hu|s t0 rest Hlt Ha|s Hexit Hr|s Hexit Hr Hf|s Hexit Hr Hf];
    simpl in H; intros k t'; simpl fst; simpl snd.
  - rewrite (Inv_updateRunningTasks tasks0 s H) in Hu.
    apply (f_equal (fun o => match o with Ok x => x | _ => s end)) in Hu.
    subst s'. rewrite completionPass_get.
    destruct (map_get k (tasks s)) as [t|] eqn:Hg; simpl; [|discriminate].
    intros [= <-]. specialize (HT k t Hg). simpl in HT. unfold timingOk in *.
    destruct (set_has k (runningTasks s) && due (currentTime s) t) eqn:E.
    + apply andb_true_iff in E. destruct E as [Hk Hd].
      apply set_has_In in Hk. apply (inv_running _ _ H) in Hk.
      destruct Hk as [t2 [Hg2 Hs]]. assert (t2 = t) by congruence. subst t2.
      rewrite Hs in HT. simpl. intros st e Hst [= <-].
      specialize (HT st Hst). unfold due in Hd. rewrite Hst in Hd. simpl in Hd.
      apply Z.leb_le in Hd. lia.
    + destruct (status t) eqn:Hs; auto.
      destruct (Inv_running_entry s k t H Hg Hs) as [Hk _].
      apply set_has_In in Hk. rewrite Hk in E. simpl in E.
      intros st Hst. specialize (HT st Hst). unfold due in E.
      rewrite Hst in E. simpl in E. apply Z.leb_gt in E. lia.
  - destruct (available_head tasks0 s t0 rest H Ha) as [Hg0 _].
    rewrite startTask_get. destruct (String.eqb k (tid t0)).
    + intros [= <-]. unfold timingOk. simpl. intros st [= <-]. lia.
    + intros Hg. exact (HT k t' Hg).
  - simpl. intros Hg. specialize (HT k t' Hg). simpl in HT.
    unfold timingOk in *. destruct (status t'); auto.
    intros st Hst. specialize (HT st Hst). lia.
  - intros Hg. specialize (HT k t' Hg). simpl in HT.
    unfold timingOk in *. destruct (status t') eqn:Hs; auto.
    destruct (Inv_running_entry s k t' H Hg Hs) as [Hk _].
    destruct (runningTasks s); [destruct Hk | discriminate Hr].
  - intros Hg. specialize (HT k t' Hg). simpl in HT.
    unfold timingOk in *. destruct (status t') eqn:Hs; auto.
    destruct (Inv_running_entry s k t' H Hg Hs) as [Hk _].
    destruct (runningTasks s); [destruct Hk | discriminate Hr].
Qed.

Lemma reachable_Timing mc c : reachable tasks0 mc c -> Timing c.
Proof.
  intros Hr. unfold reachable in Hr. apply clos_rt_rtn1 in Hr.
  induction Hr as [|c1 c2 Hstep Hs IH].
  - intros k t Hg. simpl in Hg. initial_entry Hg. exact I.
  - apply (step_Timing c1 c2); auto.
    apply (reachable_Inv tasks0 mc). now apply clos_rtn1_rt.
Qed.

End Timing.

(** X7: in every reachable state, a Completed task ended exactly
    [max(duration, 1)] time units after it started, that is, after exactly
    its duration when the duration is positive; and a Running task started
    no later than now and is at most that far from its start. *)
Theorem end_is_start_plus_duration tasks0 mc c :
  reachable tasks0 mc c ->
  forall k t st, map_get k (tasks (snd c)) = Some t -> startTime t = Some st ->
    (forall e, endTime t = Some e ->
       e = st + Z.max (ttime t) 1 /\ (0 < ttime t -> e = st + ttime t)) /\
    (status t = running ->
       st <= currentTime (snd c) <= st + Z.max (ttime t) 1).
Proof.
  intros Hr k t st Hg Hst.
  assert (H := reachable_Inv tasks0 mc c Hr).
  assert (HT := reachable_Timing tasks0 mc c Hr k t Hg).
  assert (Ht := inv_times _ _ H k t Hg).
  unfold timingOk in HT. unfold timesOk in Ht. split.
  - intros e He. destruct (status t).
    + destruct Ht. congruence.
    + destruct Ht as [st' [_ [_ E]]]. congruence.
    + specialize (HT st e Hst He). split; [exact HT | lia].
  - intros Hs. rewrite Hs in HT. specialize (HT st Hst).
    destruct (fst c); lia.
Qed.

Lemma end_is_start_plus_duration_witness :
  reachable tasks_2 2 (TickStart, after 6 initialState) /\
  map_get "B" (tasks (after 6 initialState))
    = Some (mkTaskState "B" 2 ["A"] completed (Some 3) (Some 5)) /\
  (5 = 3 + Z.max 2 1 /\ (0 < 2 -> 5 = 3 + 2)).
Proof.
  assert (Hr : reachable tasks_2 2 (TickStart, after 6 initialState))
    by (apply after_reachable; apply rt_refl).
  split; [exact Hr|]. split; [reflexivity|].
  exact (proj1 (end_is_start_plus_duration tasks_2 2 _ Hr "B"
                  (mkTaskState "B" 2 ["A"] completed (Some 3) (Some 5)) 3
                  eq_refl eq_refl) 5 eq_refl).
Defined.

(** ** The completion pass in closed form *)

Section CompletionPass.

Variable tasks0 : list Task.

Lemma Inv_set_has_running s k t :
  Inv tasks0 s -> map_get k (tasks s) = Some t ->
  set_has k (runningTasks s) = status_eqb (status t) running.
Proof.
  intros H Hg. destruct (status_eqb (status t) running) eqn:E.
  - apply status_eqb_eq in E. apply set_has_In. apply (inv_running _ _ H). eauto.
  - apply set_has_false. intros Hin. apply (inv_running _ _ H) in Hin.
    destruct Hin as [t' [Hg' Hs]]. assert (t' = t) by congruence. subst t'.
    rewrite Hs in E. discriminate E.
Qed.

Lemma dueAt_completionPass s k :
  dueAt (currentTime s) (tasks s) k = false ->
  dueAt (currentTime s) (tasks (completionPass s)) k = false.
Proof.
  unfold dueAt. rewrite completionPass_get.
  destruct (map_get k (tasks s)) as [t|]; simpl; auto.
  intros Hd. rewrite Hd, andb_false_r. exact Hd.
Qed.

Lemma completionPass_idem s :
  Inv tasks0 s -> completionPass (completionPass s) = completionPass s.
Proof.
  intros H. assert (Hnd := Inv_NoDup_keys tasks0 s H).
  assert (HT : List.map (completeEntry (currentTime s)
                           (runningTasks (completionPass s)))
                 (tasks (completionPass s))
               = tasks (completionPass s)).
  { simpl. rewrite map_map.
    apply map_ext_in. intros [k t] Hin.
    assert (Hg := In_map_get k t _ Hnd Hin).
    assert (Hdue : dueAt (currentTime s) (tasks s) k = due (currentTime s) t)
      by (unfold dueAt; now rewrite Hg).
    remember (completeEntry (currentTime s) (runningTasks s) (k, t)) as e1 eqn:He1.
    unfold completeEntry in He1. simpl in He1.
    destruct (set_has k (runningTasks s) && due (currentTime s) t) eqn:E; subst e1.
    - apply andb_true_iff in E. destruct E as [_ Hd].
      unfold completeEntry. simpl.
      replace (set_has k _) with false; [reflexivity|].
      symmetry. apply set_has_false. intros Hk. apply filter_In in Hk.
      destruct Hk as [_ Hk]. rewrite Hdue, Hd in Hk. discriminate Hk.
    - unfold completeEntry. simpl.
      destruct (set_has k (filter _ (runningTasks s))) eqn:Ek; auto.
      apply set_has_In in Ek. apply filter_In in Ek. destruct Ek as [_ Ek].
      rewrite Hdue in Ek. apply negb_true_iff in Ek. rewrite Ek. reflexivity. }
  assert (HR : filter (fun k => negb (dueAt (currentTime s)
                                        (tasks (completionPass s)) k))
                 (runningTasks (completionPass s))
               = runningTasks (completionPass s)).
  { change (runningTasks (completionPass s))
      with (filter (fun k => negb (dueAt (currentTime s) (tasks s) k))
                   (runningTasks s)).
    apply filter_filter_ext. intros k _. cbv beta.
    destruct (dueAt (currentTime s) (tasks s) k) eqn:E; auto.
    rewrite (dueAt_completionPass s k E). reflexivity. }
  unfold completionPass at 1.
  change (currentTime (completionPass s)) with (currentTime s).
  rewrite HT, HR. reflexivity.
Qed.

End CompletionPass.

(** X8: on a state a run reaches at the start of a tick, the completion
    pass returns; it leaves the clock and the limit alone; it rewrites
    exactly the entries that are Running with [start + duration <= now],
    which become Completed with end time now; it removes exactly those from
    the running set, keeping the order of the others; and running it a
    second time changes nothing. *)
Theorem completion_pass_closed_form tasks0 mc s :
  reachable tasks0 mc (TickStart, s) ->
  exists s1,
    updateRunningTasks s = Ok s1 /\
    currentTime s1 = currentTime s /\ maxConcurrent s1 = maxConcurrent s /\
    (forall k t, map_get k (tasks s) = Some t ->
       map_get k (tasks s1)
       = Some (if status_eqb (status t) running && due (currentTime s) t
               then complete (currentTime s) t else t)) /\
    runningTasks s1
    = filter (fun k => negb (dueAt (currentTime s) (tasks s) k)) (runningTasks s) /\
    updateRunningTasks s1 = Ok s1.
Proof.
  intros Hr. assert (H := reachable_Inv tasks0 mc _ Hr). simpl in H.
  exists (completionPass s). split; [now apply (Inv_updateRunningTasks tasks0)|].
  split; [reflexivity|]. split; [reflexivity|]. split; [|split].
  - intros k t Hg. rewrite completionPass_get, Hg. simpl.
    now rewrite (Inv_set_has_running tasks0 s k t H Hg).
  - reflexivity.
  - rewrite (Inv_updateRunningTasks tasks0 _ (Inv_completionPass tasks0 s H)).
    f_equal. now apply (completionPass_idem tasks0).
Qed.

Lemma completion_pass_closed_form_witness :
  reachable tasks_2 2 (TickStart, after 3 initialState) /\
  exists s1,
    updateRunningTasks (after 3 initialState) = Ok s1 /\
    times "A" s1 = Some (Some 0, Some 3) /\
    runningTasks (after 3 initialState) = ["A"] /\ runningTasks s1 = [] /\
    updateRunningTasks s1 = Ok s1.
Proof.
  assert (Hr : reachable tasks_2 2 (TickStart, after 3 initialState))
    by (apply after_reachable; apply rt_refl).
  split; [exact Hr|].
  destruct (completion_pass_closed_form tasks_2 2 _ Hr)
    as [s1 [E [_ [_ [_ [Hrun Hidem]]]]]].
  exists s1. split; [exact E|].
  assert (Hs1 : s1 = completionPass (after 3 initialState)).
  { assert (E' : updateRunningTasks (after 3 initialState)
                 = Ok (completionPass (after 3 initialState))) by reflexivity.
    rewrite E in E'.
    exact (f_equal (fun o => match o with Ok x => x | _ => s1 end) E'). }
  split; [rewrite Hs1; reflexivity|]. split; [reflexivity|].
  split; [rewrite Hs1; reflexivity | exact Hidem].
Defined.

(** ** The admission pass in closed form *)

Lemma filter_map_comm {A B} (f : B -> bool) (g : A -> B) l :
  filter f (List.map g l) = List.map g (filter (fun x => f (g x)) l).
Proof.
  induction l as [|a l IH]; simpl; auto.
  destruct (f (g a)); simpl; now rewrite IH.
Qed.

Lemma filter_all {A} (f : A -> bool) l :
  (forall x, In x l -> f x = true) -> filter f l = l.
Proof.
  induction l as [|a l IH]; simpl; auto. intros H.
  rewrite (H a) by auto. f_equal. apply IH. auto.
Qed.

Lemma forallb_eq {A} (f g : A -> bool) l :
  (forall x, f x = g x) -> forallb f l = forallb g l.
Proof.
  intros H. induction l as [|a l IH]; simpl; auto. now rewrite H, IH.
Qed.

Section AdmissionPass.

Variable tasks0 : list Task.

Lemma isDependencyCompleted_startTask s t0 d :
  map_get (tid t0) (tasks s) = Some t0 -> status t0 = pending ->
  isDependencyCompleted d (tasks (startTask s t0))
  = isDependencyCompleted d (tasks s).
Proof.
  intros Hg Hs. unfold isDependencyCompleted. rewrite startTask_get.
  destruct (String.eqb d (tid t0)) eqn:E; auto.
  apply String.eqb_eq in E. subst d. rewrite Hg, Hs. reflexivity.
Qed.

Lemma canStartTask_startTask s t0 k :
  map_get (tid t0) (tasks s) = Some t0 -> status t0 = pending ->
  canStartTask k (startTask s t0)
  = canStartTask k s && negb (String.eqb k (tid t0)).
Proof.
  intros Hg Hs. unfold canStartTask. rewrite startTask_get.
  destruct (String.eqb k (tid t0)) eqn:E.
  - simpl. now rewrite andb_false_r.
  - rewrite andb_true_r. destruct (map_get k (tasks s)) as [t|]; auto.
    f_equal. apply forallb_eq. intros d.
    now apply isDependencyCompleted_startTask.
Qed.

Lemma available_entries s :
  getAvailableTasks s
  = List.map snd (filter (fun e => canStartTask (tid (snd e)) s) (tasks s)).
Proof. unfold getAvailableTasks, map_values. apply filter_map_snd. Qed.

Lemma available_tids s :
  Inv tasks0 s ->
  List.map tid (getAvailableTasks s)
  = map_keys (filter (fun e => canStartTask (tid (snd e)) s) (tasks s)).
Proof.
  intros H. rewrite available_entries, map_map. unfold map_keys.
  apply map_ext_in. intros [k t] Hin. apply filter_In in Hin.
  destruct Hin as [Hin _].
  destruct (Inv_origin tasks0 s k t H Hin) as [_ [_ [_ [E _]]]]. exact E.
Qed.

Lemma available_NoDup s :
  Inv tasks0 s -> NoDup (List.map tid (getAvailableTasks s)).
Proof.
  intros H. rewrite (available_tids s H). apply NoDup_keys_filter.
  now apply (Inv_NoDup_keys tasks0).
Qed.

Lemma available_after_start s t0 rest :
  Inv tasks0 s -> getAvailableTasks s = t0 :: rest ->
  getAvailableTasks (startTask s t0) = rest.
Proof.
  intros H Ha.
  destruct (available_head tasks0 s t0 rest H Ha) as [Hg Hcan].
  destruct (proj1 (canStartTask_true _ _) Hcan) as [t0' [Hg' [Hs _]]].
  assert (t0' = t0) by congruence. subst t0'. clear Hg'.
  assert (Hnd := available_NoDup s H). rewrite Ha in Hnd. simpl in Hnd.
  assert (Hni : ~ In (tid t0) (List.map tid rest)) by (inversion Hnd; auto).
  rewrite available_entries, (startTask_tasks tasks0 s t0 H Hg).
  rewrite filter_map_comm.
  rewrite available_entries in Ha.
  remember (filter (fun e => canStartTask (tid (snd e)) s) (tasks s)) as E eqn:HE.
  assert (Hflt : filter (fun x => canStartTask
                           (tid (snd (startEntry (currentTime s) (tid t0) x)))
                           (startTask s t0)) (tasks s)
                 = filter (fun e => negb (String.eqb (tid t0) (fst e))) E).
  { rewrite HE. symmetry. apply filter_filter_ext. intros [k t] Hin.
    destruct (Inv_origin tasks0 s k t H Hin) as [_ [_ [_ [Hid _]]]].
    cbv beta. cbn [fst snd].
    assert (Htid : tid (snd (startEntry (currentTime s) (tid t0) (k, t))) = k).
    { unfold startEntry. simpl. destruct (String.eqb (tid t0) k); simpl; auto. }
    rewrite Htid, Hid, (canStartTask_startTask s t0 k Hg Hs).
    now rewrite (String.eqb_sym k (tid t0)). }
  assert (HinE : forall e, In e E -> In e (tasks s)).
  { intros e He. rewrite HE in He. apply filter_In in He. tauto. }
  rewrite Hflt. clear Hflt HE.
  destruct E as [|e0 restE]; [discriminate Ha|].
  simpl in Ha. injection Ha as He0 Hrest. subst rest.
  assert (Hk0 : fst e0 = tid t0).
  { destruct e0 as [k0 t0']. simpl in *. subst t0'.
    assert (Hi : In (k0, t0) (tasks s)) by (apply HinE; now left).
    destruct (Inv_origin tasks0 s k0 t0 H Hi) as [_ [_ [_ [E _]]]]. auto. }
  assert (Hrest : forall k t, In (k, t) restE -> k <> tid t0).
  { intros k t Hin Heq. apply Hni. rewrite map_map. apply in_map_iff.
    exists (k, t). split; auto. simpl.
    assert (Hi : In (k, t) (tasks s)) by (apply HinE; now right).
    destruct (Inv_origin tasks0 s k t H Hi) as [_ [_ [_ [E _]]]]. congruence. }
  destruct e0 as [k0 t0']. simpl in Hk0. subst k0.
  cbn [filter fst]. rewrite String.eqb_refl. cbn [negb].
  rewrite filter_all.
  - rewrite map_map. apply map_ext_in. intros [k t] Hin.
    unfold startEntry. simpl. destruct (String.eqb (tid t0) k) eqn:Ek; auto.
    apply String.eqb_eq in Ek. exfalso. exact (Hrest k t Hin (eq_sym Ek)).
  - intros [k t] Hin. simpl. apply negb_true_iff. apply String.eqb_neq.
    intros Heq. exact (Hrest k t Hin (eq_sym Heq)).
Qed.

End AdmissionPass.

Lemma firstn_subset {A} n : forall (l : list A) x, In x (firstn n l) -> In x l.
Proof.
  induction n as [|n IH]; intros [|a l] x; simpl; try tauto.
  intros [->|H]; auto.
Qed.

Section AdmissionLoop.

Variable tasks0 : list Task.

Lemma startLoop_closed_form fuel : forall s,
  Inv tasks0 s -> (pendingCount (tasks s) < fuel)%nat ->
  exists s2,
    startLoop fuel s = Ok s2 /\
    currentTime s2 = currentTime s /\ maxConcurrent s2 = maxConcurrent s /\
    runningTasks s2
    = runningTasks s
      ++ List.map tid
           (firstn (Z.to_nat (maxConcurrent s - set_size (runningTasks s)))
                   (getAvailableTasks s)) /\
    getAvailableTasks s2
    = skipn (Z.to_nat (maxConcurrent s - set_size (runningTasks s)))
            (getAvailableTasks s) /\
    (forall t,
       In t (firstn (Z.to_nat (maxConcurrent s - set_size (runningTasks s)))
                    (getAvailableTasks s)) ->
       map_get (tid t) (tasks s2) = Some (start (currentTime s) t)) /\
    (forall k,
       ~ In k (List.map tid
                 (firstn (Z.to_nat (maxConcurrent s - set_size (runningTasks s)))
                         (getAvailableTasks s))) ->
       map_get k (tasks s2) = map_get k (tasks s)).
Proof.
  induction fuel as [|fuel IH]; intros s H Hlt; [lia|].
  cbn [startLoop].
  destruct (set_size (runningTasks s) <? maxConcurrent s) eqn:Hc.
  - destruct (getAvailableTasks s) as [|t0 rest] eqn:Ha.
    + exists s. rewrite firstn_nil, skipn_nil, app_nil_r. simpl.
      repeat split; auto. intros t [].
    + destruct (available_head tasks0 s t0 rest H Ha) as [Hg Hcan].
      destruct (proj1 (canStartTask_true _ _) Hcan) as [t0' [Hg' [Hs _]]].
      assert (t0' = t0) by congruence. subst t0'. clear Hg'.
      destruct (startTask_running tasks0 s t0 H Hg Hs) as [Hr Hnir].
      assert (Hav := available_after_start tasks0 s t0 rest H Ha).
      assert (Hnd := available_NoDup tasks0 s H). rewrite Ha in Hnd.
      simpl in Hnd. assert (Hni : ~ In (tid t0) (List.map tid rest))
        by (inversion Hnd; auto).
      apply Z.ltb_lt in Hc.
      assert (Hn : Z.to_nat (maxConcurrent s - set_size (runningTasks s))
                   = S (Z.to_nat (maxConcurrent (startTask s t0)
                                  - set_size (runningTasks (startTask s t0))))).
      { rewrite Hr. unfold set_size. rewrite length_app. simpl.
        unfold set_size in Hc. lia. }
      destruct (IH (startTask s t0)) as [s2 [E [T [M [R [A [S1 S2]]]]]]].
      * apply (Inv_startTask tasks0 s t0 rest); auto. now apply Z.ltb_lt.
      * rewrite (startTask_tasks tasks0 s t0 H Hg).
        pose proof (pendingCount_startEntry_lt (currentTime s) (tid t0) t0
                      (tasks s) (map_get_In _ _ _ Hg) Hs). lia.
      * exists s2. rewrite Hn. rewrite Hav in *. cbn [firstn skipn List.map].
        split; [exact E|]. split; [exact T|]. split; [exact M|].
        split; [|split; [|split]].
        -- rewrite R, Hr, <- app_assoc. reflexivity.
        -- exact A.
        -- intros t [<-|Hin].
           ++ rewrite S2.
              ** rewrite startTask_get, String.eqb_refl. reflexivity.
              ** intros Hin. apply Hni. apply in_map_iff in Hin.
                 destruct Hin as [x [Hx Hin]]. apply in_map_iff.
                 exists x. split; auto. eapply firstn_subset; eauto.
           ++ apply (S1 t Hin).
        -- intros k Hk. rewrite S2 by (intros Hin; apply Hk; now right).
           rewrite startTask_get. destruct (String.eqb k (tid t0)) eqn:Ek; auto.
           apply String.eqb_eq in Ek. exfalso. apply Hk. now left.
  - exists s. apply Z.ltb_ge in Hc.
    replace (Z.to_nat (maxConcurrent s - set_size (runningTasks s))) with O by lia.
    simpl. rewrite app_nil_r. repeat split; auto. intros t [].
Qed.

Lemma tick_unfold s :
  Inv tasks0 s ->
  exists s2,
    startNewTasks (completionPass s) = Ok s2 /\ next s = Ok (tickEnd s2) /\
    loopExits s2 /\ Inv tasks0 s2 /\ currentTime s2 = currentTime s.
Proof.
  intros H. assert (H1 := Inv_completionPass tasks0 s H).
  destruct (startNewTasks_steps tasks0 (completionPass s) H1)
    as [s2 [E [Hsteps Hexit]]].
  exists s2. split; [exact E|]. split; [|split; [exact Hexit|split]].
  - unfold next. rewrite (Inv_updateRunningTasks tasks0 s H). simpl.
    rewrite E. simpl. unfold tickEnd.
    now destruct (0 <? set_size (runningTasks s2)).
  - exact (steps_Inv tasks0 _ _ Hsteps H1).
  - destruct (startLoop_closed_form (S (List.length (tasks (completionPass s))))
                (completionPass s) H1) as [s2' [E' [T _]]].
    + unfold pendingCount.
      pose proof (filter_length_le
                    (fun e => status_eqb (status (snd e)) pending)
                    (tasks (completionPass s))). lia.
    + unfold startNewTasks in E. rewrite E in E'.
      apply (f_equal (fun o => match o with Ok x => x | _ => s end)) in E'.
      subst s2'. exact T.
Qed.

End AdmissionLoop.

(** X9: on a state a run reaches in its admission pass, [startNewTasks]
    returns; with [n] the number of free slots it starts the first [n]
    ready tasks in map order (all of them if fewer are ready): each gets
    status Running and the current time as start time, their identifiers
    are appended to the running set in that order, every other entry is
    untouched, the clock does not move, and the tasks ready afterwards are
    the ready tasks that were not started. *)
Theorem admission_pass_closed_form tasks0 mc s :
  reachable tasks0 mc (Admitting, s) ->
  exists s2,
    startNewTasks s = Ok s2 /\
    currentTime s2 = currentTime s /\
    runningTasks s2
    = runningTasks s
      ++ List.map tid
           (firstn (Z.to_nat (maxConcurrent s - set_size (runningTasks s)))
                   (getAvailableTasks s)) /\
    getAvailableTasks s2
    = skipn (Z.to_nat (maxConcurrent s - set_size (runningTasks s)))
            (getAvailableTasks s) /\
    (forall t,
       In t (firstn (Z.to_nat (maxConcurrent s - set_size (runningTasks s)))
                    (getAvailableTasks s)) ->
       map_get (tid t) (tasks s2) = Some (start (currentTime s) t)) /\
    (forall k,
       ~ In k (List.map tid
                 (firstn (Z.to_nat (maxConcurrent s - set_size (runningTasks s)))
                         (getAvailableTasks s))) ->
       map_get k (tasks s2) = map_get k (tasks s)).
Proof.
  intros Hr. assert (H := reachable_Inv tasks0 mc _ Hr). simpl in H.
  destruct (startLoop_closed_form tasks0 (S (List.length (tasks s))) s H)
    as [s2 [E [T [_ [R [A [S1 S2]]]]]]].
  - unfold pendingCount.
    pose proof (filter_length_le (fun e => status_eqb (status (snd e)) pending)
                  (tasks s)). lia.
  - exists s2. repeat split; auto.
Qed.

Lemma admission_pass_closed_form_witness :
  reachable tasks_2 2 (Admitting, completionPass (after 3 initialState)) /\
  exists s2,
    startNewTasks (completionPass (after 3 initialState)) = Ok s2 /\
    runningTasks s2 = ["B"; "C"] /\ getAvailableTasks s2 = [].
Proof.
  assert (Hr : reachable tasks_2 2
                 (Admitting, completionPass (after 3 initialState))).
  { eapply rt_trans.
    - apply (after_reachable tasks_2 2 3). apply rt_refl.
    - apply rt_step. apply step_complete. reflexivity. }
  split; [exact Hr|].
  destruct (admission_pass_closed_form tasks_2 2 _ Hr)
    as [s2 [E [_ [R [A _]]]]].
  exists s2. split; [exact E|]. split; [exact R | exact A].
Defined.

(** ** What a tick reports *)

Lemma Inv_running_unfinished tasks0 s :
  Inv tasks0 s -> (0 <? set_size (runningTasks s)) = true ->
  hasUnfinishedTasks s = true.
Proof.
  intros H Hr. destruct (runningTasks s) as [|k r] eqn:E; [discriminate Hr|].
  assert (Hk : In k (runningTasks s)) by (rewrite E; now left).
  apply (inv_running _ _ H) in Hk. destruct Hk as [t [Hg Hs]].
  unfold hasUnfinishedTasks. apply existsb_exists. exists t. split.
  - unfold map_values. change t with (snd (k, t)). apply in_map.
    now apply map_get_In.
  - now rewrite Hs.
Qed.

(** X10: for a tick taken from a state a run reaches, [next] reports
    continue exactly when some task of the new state is not Completed; the
    clock advances by one when the running set is non-empty after the two
    passes and stays otherwise; a slot is left free only when no task is
    ready; and when stop is reported every task is Completed and nothing is
    running. *)
Theorem tick_outcome tasks0 mc s s' b :
  reachable tasks0 mc (TickStart, s) -> next s = Ok (s', b) ->
  b = hasUnfinishedTasks s' /\
  currentTime s'
    = currentTime s + (if 0 <? set_size (runningTasks s') then 1 else 0) /\
  (set_size (runningTasks s') < maxConcurrent s' -> getAvailableTasks s' = []) /\
  (b = false -> allCompleted s' /\ runningTasks s' = []).
Proof.
  intros Hr Hn. assert (H := reachable_Inv tasks0 mc _ Hr). simpl in H.
  destruct (tick_unfold tasks0 s H) as [s2 [_ [E [Hexit [H2 T]]]]].
  rewrite Hn in E.
  apply (f_equal (fun o => match o with Ok x => x | _ => (s, b) end)) in E.
  unfold tickEnd in E.
  assert (Hfree : set_size (runningTasks s2) < maxConcurrent s2 ->
                  getAvailableTasks s2 = []).
  { intros Hlt. destruct Hexit as [Hc|Hc]; auto. apply Z.ltb_ge in Hc. lia. }
  destruct (0 <? set_size (runningTasks s2)) eqn:Er;
    injection E as -> ->.
  - split; [|split; [|split]].
    + symmetry. apply (Inv_running_unfinished tasks0); auto.
      now apply Inv_advance.
    + simpl. rewrite Er. lia.
    + exact Hfree.
    + discriminate.
  - split; [reflexivity|]. split; [|split].
    + rewrite Er. lia.
    + exact Hfree.
    + intros Hu. split.
      * apply allCompleted_hasUnfinishedTasks; auto.
        now apply (Inv_NoDup_keys tasks0).
      * destruct (runningTasks s2); auto. discriminate Er.
Qed.

Lemma tick_outcome_witness :
  reachable tasks_2 2 (TickStart, after 3 initialState) /\
  next (after 3 initialState) = Ok (after 4 initialState, true) /\
  currentTime (after 4 initialState)
    = currentTime (after 3 initialState)
      + (if 0 <? set_size (runningTasks (after 4 initialState)) then 1 else 0).
Proof.
  assert (Hr : reachable tasks_2 2 (TickStart, after 3 initialState))
    by (apply after_reachable; apply rt_refl).
  split; [exact Hr|]. split; [reflexivity|].
  exact (proj1 (proj2 (tick_outcome tasks_2 2 _ _ true Hr eq_refl))).
Defined.

(** ** Readiness lasts *)

(** X11: a task that is ready in a reachable configuration stays ready
    along the steps of the run for as long as it is Pending: later it is
    either still ready or no longer Pending. *)
Theorem ready_until_started tasks0 mc c c' k :
  reachable tasks0 mc c -> steps c c' ->
  canStartTask k (snd c) = true ->
  canStartTask k (snd c') = true \/
  exists t', map_get k (tasks (snd c')) = Some t' /\ status t' <> pending.
Proof.
  intros Hr Hs Hcan. assert (H := reachable_Inv tasks0 mc c Hr).
  assert (H' := steps_Inv tasks0 c c' Hs H).
  apply canStartTask_true in Hcan. destruct Hcan as [t [Hg [Hp Hdeps]]].
  destruct (steps_status tasks0 c c' Hs H k t Hg) as [t' [Hg' _]].
  destruct (status t') eqn:Hs'.
  - left. apply canStartTask_true. exists t'. repeat split; auto.
    intros d Hd.
    assert (Hd0 : In d (tdeps t)).
    { destruct (static_get _ _ k t (initialTasks_NoDup tasks0)
                  (inv_static _ _ H) Hg) as [t0 [G0 [_ [_ E]]]].
      destruct (static_get _ _ k t' (initialTasks_NoDup tasks0)
                  (inv_static _ _ H') Hg') as [t0' [G0' [_ [_ E']]]].
      assert (t0' = t0) by congruence. subst t0'. congruence. }
    destruct (Hdeps d Hd0) as [td [Hgd Hcd]].
    destruct (steps_status tasks0 c c' Hs H d td Hgd) as [td' [Hgd' Hrk]].
    exists td'. split; auto. rewrite Hcd in Hrk.
    destruct (status td'); simpl in Hrk; auto; lia.
  - right. exists t'. split; auto. congruence.
  - right. exists t'. split; auto. congruence.
Qed.

Lemma ready_until_started_witness :
  reachable tasks_2 2 (TickStart, initialState) /\
  steps (TickStart, initialState) (TickStart, after 1 initialState) /\
  canStartTask "A" initialState = true /\
  (canStartTask "A" (after 1 initialState) = true \/
   exists t', map_get "A" (tasks (after 1 initialState)) = Some t' /\
              status t' <> pending).
Proof.
  assert (Hr : reachable tasks_2 2 (TickStart, initialState)) by apply rt_refl.
  assert (Hs : steps (TickStart, initialState) (TickStart, after 1 initialState)).
  { assert (N : next initialState = Ok (after 1 initialState, true))
      by reflexivity.
    exact (proj1 (next_reachable tasks_2 2 _ _ _ Hr N)). }
  split; [exact Hr|]. split; [exact Hs|]. split; [reflexivity|].
  exact (ready_until_started tasks_2 2 _ _ "A" Hr Hs eq_refl).
Defined.

(** ** When the run stops, and when it cannot *)

Lemma reachable_Stopped tasks0 mc s :
  reachable tasks0 mc (Stopped, s) ->
  hasUnfinishedTasks s = false /\ runningTasks s = [].
Proof.
  intros Hr. unfold reachable in Hr. apply clos_rt_rtn1 in Hr.
  inversion Hr as [|c1 c2 Hstep _]; subst.
  inversion Hstep; subst. split; auto.
  destruct (runningTasks s); auto. discriminate.
Qed.

Lemma ranked_acyclic_Z g (rk : TaskId -> Z) :
  (forall a b, depends g a b -> rk b < rk a) -> acyclic g.
Proof.
  intros Hrk.
  assert (Ht : forall a b, clos_trans TaskId (depends g) a b -> rk b < rk a).
  { intros a b Hab. induction Hab as [a b Hd|a b c _ IH1 _ IH2].
    - now apply Hrk.
    - lia. }
  intros a Ha. apply Ht in Ha. lia.
Qed.

Lemma idle_forever s :
  next s = Ok (s, true) -> forall fuel, runAll fuel s = OutOfFuel.
Proof.
  intros Hn fuel. induction fuel as [|fuel IH]; [reflexivity|].
  cbn [runAll]. rewrite Hn. exact IH.
Qed.

Section Stops.

Variable tasks0 : list Task.
Hypothesis Hunique : NoDup (List.map id tasks0).

Lemma unique_entry s task :
  Inv tasks0 s -> In task tasks0 ->
  exists t, map_get (id task) (tasks s) = Some t /\ tdeps t = deps task /\
            ttime t = time task.
Proof.
  intros H Hin.
  assert (Hg0 : map_get (id task) (initialTasks tasks0)
                = Some (createTaskState task)).
  { apply In_map_get; [apply initialTasks_NoDup|].
    rewrite (initialTasks_unique tasks0 Hunique).
    apply in_map_iff. eauto. }
  destruct (static_get _ _ _ _ (Inv_NoDup_keys tasks0 s H)
              (eq_sym (inv_static _ _ H)) Hg0) as [t [Hg [_ [E1 E2]]]].
  exists t. simpl in *. auto.
Qed.

Lemma stopped_valid mc s :
  reachable tasks0 mc (Stopped, s) ->
  allCompleted s /\ acyclic tasks0 /\ resolvable tasks0.
Proof.
  intros Hr. assert (H := reachable_Inv tasks0 mc _ Hr). simpl in H.
  destruct (reachable_Stopped tasks0 mc s Hr) as [Hu _].
  assert (Hall : allCompleted s).
  { apply allCompleted_hasUnfinishedTasks; auto.
    now apply (Inv_NoDup_keys tasks0). }
  assert (HT := reachable_Timing tasks0 mc _ Hr). simpl in HT.
  assert (Hedge : forall a b, depends tasks0 a b ->
            exists ta tb sa sb,
              map_get a (tasks s) = Some ta /\ map_get b (tasks s) = Some tb /\
              startTime ta = Some sa /\ startTime tb = Some sb /\ sb < sa).
  { intros a b [task [Hin [<- Hd]]].
    destruct (unique_entry s task H Hin) as [ta [Hga [Hdeps _]]].
    assert (Hca := Hall _ _ Hga).
    assert (Hnp : status ta <> pending) by congruence.
    rewrite <- Hdeps in Hd.
    destruct (inv_deps _ _ H _ ta b Hga Hnp Hd)
      as [tb [e [sa [Hgb [Hcb [He [Hsa Hle]]]]]]].
    assert (Htb := inv_times _ _ H b tb Hgb). unfold timesOk in Htb.
    rewrite Hcb in Htb. destruct Htb as [sb [e' [Hsb [He' _]]]].
    assert (e' = e) by congruence. subst e'.
    specialize (HT b tb Hgb). unfold timingOk in HT. rewrite Hcb in HT.
    specialize (HT sb e Hsb He).
    exists ta, tb, sa, sb. repeat split; auto. lia. }
  split; [exact Hall|]. split.
  - apply (ranked_acyclic_Z tasks0
             (fun k => match map_get k (tasks s) with
                       | Some t => num (startTime t)
                       | None => 0
                       end)).
    intros a b Hab.
    destruct (Hedge a b Hab) as [ta [tb [sa [sb [Ga [Gb [Sa [Sb Hlt]]]]]]]].
    rewrite Ga, Gb, Sa, Sb. exact Hlt.
  - intros task d Hin Hd.
    destruct (Hedge (id task) d) as [_ [tb [_ [_ [_ [Gb _]]]]]].
    { exists task. auto. }
    assert (Hk : In d (map_keys (tasks s))) by (apply map_get_keys; eauto).
    rewrite (static_keys _ _ (inv_static _ _ H)) in Hk.
    apply initialTasks_keys_sub in Hk. apply in_map_iff in Hk.
    destruct Hk as [task' [E Hin']]. eauto.
Qed.

End Stops.

(** X12: with pairwise distinct identifiers, [runAll] returns only on an
    input whose dependency relation is acyclic and whose dependencies are
    all declared, and then every task is Completed; on an input with a
    cycle or an undeclared dependency the loop never ends, whatever the
    limit. *)
Theorem run_stops_only_on_valid_graphs tasks0 mc :
  NoDup (List.map id tasks0) ->
  (forall fuel s',
     runAll fuel (initializeWorkflow tasks0 mc) = Ok s' ->
     allCompleted s' /\ acyclic tasks0 /\ resolvable tasks0) /\
  (~ (acyclic tasks0 /\ resolvable tasks0) ->
   forall fuel, runAll fuel (initializeWorkflow tasks0 mc) = OutOfFuel).
Proof.
  intros Hnd.
  assert (Hok : forall fuel s',
            runAll fuel (initializeWorkflow tasks0 mc) = Ok s' ->
            allCompleted s' /\ acyclic tasks0 /\ resolvable tasks0).
  { intros fuel s' Hrun. apply (stopped_valid tasks0 Hnd mc).
    apply (runAll_reachable tasks0 mc fuel (initializeWorkflow tasks0 mc)); auto.
    apply rt_refl. }
  split; [exact Hok|].
  intros Hbad fuel.
  destruct (runAll fuel (initializeWorkflow tasks0 mc)) as [s'|e|] eqn:E; auto.
  - exfalso. apply Hbad. destruct (Hok fuel s' E) as [_ Hv]. exact Hv.
  - exfalso. apply (runAll_no_throw tasks0 mc fuel _ e (rt_refl _ _ _)). exact E.
Qed.

Lemma run_stops_only_on_valid_graphs_witness :
  NoDup (List.map id cyclic_tasks) /\
  ~ (acyclic cyclic_tasks /\ resolvable cyclic_tasks) /\
  runAll 100 (initializeWorkflow cyclic_tasks 1) = OutOfFuel.
Proof.
  assert (Hnd : NoDup (List.map id cyclic_tasks)).
  { simpl. repeat (constructor; [simpl; intuition discriminate|]). constructor. }
  assert (Hbad : ~ (acyclic cyclic_tasks /\ resolvable cyclic_tasks)).
  { intros [H _]. apply (H "A"). apply t_trans with "B"; apply t_step.
    - exists (mkTask "A" 1 ["B"]). simpl. auto.
    - exists (mkTask "B" 1 ["A"]). simpl. auto. }
  split; [exact Hnd|]. split; [exact Hbad|].
  exact (proj2 (run_stops_only_on_valid_graphs cyclic_tasks 1 Hnd) Hbad 100%nat).
Defined.

(** X13: with a maximum concurrency of 0 or less and at least one task,
    nothing is ever started: each tick returns the initial state and
    reports continue, and [runAll] never ends, in either executor. *)
Theorem no_slot_never_stops tasks0 mc :
  mc <= 0 -> tasks0 <> [] ->
  next (initializeWorkflow tasks0 mc) = Ok (initializeWorkflow tasks0 mc, true) /\
  (forall fuel, runAll fuel (initializeWorkflow tasks0 mc) = OutOfFuel) /\
  (forall fuel,
     TaskQueue.runAll fuel (TaskQueue.constructor tasks0 mc) = OutOfFuel).
Proof.
  intros Hmc Hne.
  assert (Hu : hasUnfinishedTasks (initializeWorkflow tasks0 mc) = true).
  { destruct tasks0 as [|task l]; [now elim Hne|].
    assert (Hk : In (id task) (map_keys (initialTasks (task :: l))))
      by (apply initialTasks_keys; now left).
    apply map_get_keys in Hk. destruct Hk as [t Hg].
    unfold hasUnfinishedTasks. apply existsb_exists. exists t. split.
    - unfold map_values. change t with (snd (id task, t)). apply in_map.
      now apply map_get_In.
    - initial_entry Hg. reflexivity. }
  assert (Hn : next (initializeWorkflow tasks0 mc)
               = Ok (initializeWorkflow tasks0 mc, true)).
  { unfold next, updateRunningTasks, startNewTasks. simpl.
    replace (set_size [] <? mc) with false
      by (symmetry; apply Z.ltb_ge; unfold set_size; simpl; lia).
    simpl. fold (initializeWorkflow tasks0 mc). now rewrite Hu. }
  split; [exact Hn|]. split.
  - now apply idle_forever.
  - intros fuel. rewrite TaskQueue_constructor.
    rewrite (TaskQueue_runAll tasks0 mc fuel _ (rt_refl _ _ _)).
    now apply idle_forever.
Qed.

Lemma no_slot_never_stops_witness :
  0 <= 0 /\ tasks_2 <> [] /\
  runAll 50 (initializeWorkflow tasks_2 0) = OutOfFuel.
Proof.
  split; [lia|]. split; [discriminate|].
  refine (proj1 (proj2 (no_slot_never_stops tasks_2 0 _ _)) 50%nat).
  - lia.
  - discriminate.
Defined.

(** ** Bounds on the total time *)

Lemma sumZ_map_count {A} (f g : A -> Z) (p : A -> bool) l :
  (forall x, f x = g x - (if p x then 1 else 0)) ->
  sumZ (List.map f l)
  = sumZ (List.map g l) - Z.of_nat (List.length (filter p l)).
Proof.
  intros H. induction l as [|a l IH]; simpl; auto.
  rewrite H, IH. destruct (p a); simpl List.length; lia.
Qed.

Section Capacity.

Variable tasks0 : list Task.

Lemma work_advance_exact s :
  Inv tasks0 s -> work (advance s) = work s - set_size (runningTasks s).
Proof.
  intros H. unfold work, set_size. simpl.
  rewrite <- (Inv_running_count tasks0 s H).
  apply sumZ_map_count. intros [k t]. unfold isRunning, remaining. simpl.
  destruct (status t); simpl; lia.
Qed.

Lemma work_completionPass_ge s :
  Inv tasks0 s -> work s <= work (completionPass s).
Proof.
  intros H. unfold work. simpl. rewrite map_map.
  apply sumZ_map_le. intros [k t] Hin. unfold completeEntry. simpl.
  destruct (set_has k (runningTasks s) && due (currentTime s) t) eqn:E;
    simpl; [|lia].
  apply andb_true_iff in E. destruct E as [Hk Hd].
  assert (Hg : map_get k (tasks s) = Some t).
  { apply In_map_get; auto. now apply (Inv_NoDup_keys tasks0). }
  rewrite (Inv_set_has_running tasks0 s k t H Hg) in Hk.
  apply status_eqb_eq in Hk. unfold due in Hd. apply Z.leb_le in Hd.
  unfold remaining at 1. rewrite Hk. unfold remaining. simpl. lia.
Qed.

Lemma work_initial_exact mc :
  work (initializeWorkflow tasks0 mc) = durations (initialTasks tasks0).
Proof.
  unfold work, durations. simpl currentTime.
  change (tasks (initializeWorkflow tasks0 mc)) with (initialTasks tasks0).
  f_equal. apply map_ext_in. intros e Hin.
  apply initialTasks_In in Hin. destruct Hin as [task [_ ->]]. reflexivity.
Qed.

Lemma work_allCompleted s :
  NoDup (map_keys (tasks s)) -> allCompleted s -> work s = 0.
Proof.
  intros Hnd Hall. unfold work.
  assert (Hz : forall e, In e (tasks s) -> remaining (currentTime s) (snd e) = 0).
  { intros [k t] Hin. simpl. unfold remaining.
    now rewrite (Hall k t (In_map_get k t _ Hnd Hin)). }
  induction (tasks s) as [|e m IH]; simpl; auto.
  rewrite Hz by (now left). rewrite IH; auto.
  - now inversion Hnd.
  - intros e' Hin. apply Hz. now right.
Qed.

Lemma reachable_capacity mc c :
  reachable tasks0 mc c ->
  durations (initialTasks tasks0)
  <= work (snd c) + Z.max 0 mc * currentTime (snd c).
Proof.
  intros Hr. unfold reachable in Hr. apply clos_rt_rtn1 in Hr.
  induction Hr as [|c1 c2 Hstep Hs IH].
  - simpl snd. rewrite work_initial_exact. simpl currentTime. lia.
  - assert (Hr1 : reachable tasks0 mc c1) by now apply clos_rtn1_rt.
    assert (H := reachable_Inv tasks0 mc c1 Hr1).
    assert (Hmc := reachable_maxConcurrent tasks0 mc c1 Hr1).
    destruct Hstep as [s s' Hu|s t0 rest Hlt Ha|s Hexit Hrun| |]; simpl in *.
    + rewrite (Inv_updateRunningTasks tasks0 s H) in Hu.
      apply (f_equal (fun o => match o with Ok x => x | _ => s end)) in Hu.
      subst s'. pose proof (work_completionPass_ge s H). simpl. lia.
    + destruct (available_head tasks0 s t0 rest H Ha) as [Hg Hcan].
      destruct (proj1 (canStartTask_true _ _) Hcan) as [t0' [Hg' [Hp _]]].
      assert (t0' = t0) by congruence. subst t0'.
      rewrite (work_startTask tasks0 s t0 H Hg Hp). exact IH.
    + rewrite (work_advance_exact s H).
      pose proof (inv_bound _ _ H) as Hb. rewrite Hmc in Hb. nia.
    + exact IH.
    + exact IH.
Qed.

End Capacity.

(** X14: when [runAll] returns, the durations kept in the task map add up
    to at most the limit times the final time: the total time is at least
    the work divided by the number of slots.  With pairwise distinct
    identifiers these are the durations of the input. *)
Theorem total_time_lower_bound tasks0 mc fuel s' :
  runAll fuel (initializeWorkflow tasks0 mc) = Ok s' ->
  durations (tasks (initializeWorkflow tasks0 mc))
    <= Z.max 0 mc * currentTime s' /\
  (NoDup (List.map id tasks0) ->
   totalTime tasks0 <= Z.max 0 mc * currentTime s').
Proof.
  intros Hrun.
  assert (Hr : reachable tasks0 mc (Stopped, s')).
  { apply (runAll_reachable tasks0 mc fuel (initializeWorkflow tasks0 mc)); auto.
    apply rt_refl. }
  assert (H := reachable_Inv tasks0 mc _ Hr). simpl in H.
  assert (Hnd := Inv_NoDup_keys tasks0 s' H).
  destruct (reachable_Stopped tasks0 mc s' Hr) as [Hu _].
  apply allCompleted_hasUnfinishedTasks in Hu; auto.
  pose proof (reachable_capacity tasks0 mc _ Hr) as Hcap. simpl in Hcap.
  rewrite (work_allCompleted s' Hnd Hu) in Hcap.
  assert (Hd : durations (tasks (initializeWorkflow tasks0 mc))
               <= Z.max 0 mc * currentTime s') by (exact Hcap || (simpl; lia)).
  split; [exact Hd|].
  intros Hunique.
  assert (Heq : durations (initialTasks tasks0) = totalTime tasks0).
  { rewrite (initialTasks_unique tasks0 Hunique). unfold durations, totalTime.
    rewrite map_map. reflexivity. }
  rewrite <- Heq. exact Hd.
Qed.

Lemma total_time_lower_bound_witness :
  exists s',
    runAll 11 (initializeWorkflow tasks_2 2) = Ok s' /\
    durations (tasks (initializeWorkflow tasks_2 2))
      <= Z.max 0 2 * currentTime s'.
Proof.
  destruct (runAll 11 (initializeWorkflow tasks_2 2)) as [s'|e|] eqn:E.
  - exists s'. split; [reflexivity|].
    exact (proj1 (total_time_lower_bound tasks_2 2 11%nat s' E)).
  - vm_compute in E. discriminate E.
  - vm_compute in E. discriminate E.
Defined.

(** X15: with one slot, pairwise distinct identifiers and positive
    durations, a run that stops has taken exactly the sum of the durations:
    the tasks ran one after the other without a gap. *)
Theorem sequential_total_time tasks0 fuel s' :
  NoDup (List.map id tasks0) ->
  (forall task, In task tasks0 -> 0 < time task) ->
  runAll fuel (initializeWorkflow tasks0 1) = Ok s' ->
  currentTime s' = totalTime tasks0.
Proof.
  intros Hunique Hpos Hrun.
  assert (Hr : reachable tasks0 1 (Stopped, s')).
  { apply (runAll_reachable tasks0 1 fuel (initializeWorkflow tasks0 1)); auto.
    apply rt_refl. }
  assert (HT := steps_TInv tasks0 Hpos _ _ Hr (TInv_initial tasks0 Hpos 1)).
  pose proof (tinv_work _ _ HT) as Hw.
  pose proof (work_nonneg tasks0 Hpos _ HT) as Hw0. simpl in Hw, Hw0.
  assert (H := reachable_Inv tasks0 1 _ Hr). simpl in H.
  assert (Hnd := Inv_NoDup_keys tasks0 s' H).
  destruct (reachable_Stopped tasks0 1 s' Hr) as [Hu _].
  apply allCompleted_hasUnfinishedTasks in Hu; auto.
  pose proof (reachable_capacity tasks0 1 _ Hr) as Hcap. simpl snd in Hcap.
  rewrite (work_allCompleted s' Hnd Hu) in Hcap.
  assert (Heq : durations (initialTasks tasks0) = totalTime tasks0).
  { rewrite (initialTasks_unique tasks0 Hunique). unfold durations, totalTime.
    rewrite map_map. reflexivity. }
  rewrite Heq in Hcap. change (Z.max 0 1) with 1 in Hcap. lia.
Qed.

Lemma sequential_total_time_witness :
  totalTime tasks_2 = 11 /\
  exists s',
    runAll 12 (initializeWorkflow tasks_2 1) = Ok s' /\
    currentTime s' = totalTime tasks_2.
Proof.
  split; [reflexivity|].
  assert (Hnd : NoDup (List.map id tasks_2)).
  { simpl. repeat (constructor; [simpl; intuition discriminate|]). constructor. }
  destruct (runAll 12 (initializeWorkflow tasks_2 1)) as [s'|e|] eqn:E.
  - exists s'. split; [reflexivity|].
    exact (sequential_total_time tasks_2 12%nat s' Hnd tasks_2_positive E).
  - vm_compute in E. discriminate E.
  - vm_compute in E. discriminate E.
Defined.

(** ** What is printed *)

Lemma forEachRunningL_drop now ids : forall m r,
  dropLog (forEachRunningL now ids m r) = forEachRunning now ids m r.
Proof.
  induction ids as [|a ids IH]; intros m r; [reflexivity|].
  cbn [forEachRunningL forEachRunning].
  destruct (map_get a m) as [t|]; [|reflexivity].
  destruct (due now t); [|apply IH].
  rewrite <- IH. unfold dropLog.
  destruct (forEachRunningL now ids _ _) as [[x l]| |]; reflexivity.
Qed.

Lemma startLoopL_drop fuel : forall s,
  dropLog (startLoopL fuel s) = startLoop fuel s.
Proof.
  induction fuel as [|fuel IH]; intros s; [reflexivity|].
  cbn [startLoopL startLoop].
  destruct (set_size (runningTasks s) <? maxConcurrent s); [|reflexivity].
  destruct (getAvailableTasks s) as [|t0 rest]; [reflexivity|].
  rewrite <- IH. unfold dropLog.
  destruct (startLoopL fuel _) as [[x l]| |]; reflexivity.
Qed.

Lemma nextL_drop s : dropLog (nextL s) = next s.
Proof.
  unfold nextL, next, updateRunningTasksL, updateRunningTasks,
    startNewTasksL, startNewTasks.
  rewrite <- forEachRunningL_drop. unfold dropLog at 2.
  destruct (forEachRunningL _ _ _ _) as [[[m r] l]| |]; try reflexivity.
  cbn [bind fst snd]. rewrite <- startLoopL_drop. unfold dropLog at 2.
  destruct (startLoopL _ _) as [[s2 l2]| |]; try reflexivity.
  cbn [bind fst snd]. unfold dropLog.
  destruct (0 <? set_size (runningTasks s2)); reflexivity.
Qed.

Lemma runAllL_drop fuel : forall s, dropLog (runAllL fuel s) = runAll fuel s.
Proof.
  induction fuel as [|fuel IH]; intros s; [reflexivity|].
  cbn [runAllL runAll]. rewrite <- nextL_drop. unfold dropLog at 2.
  destruct (nextL s) as [[[s' b] l]| |]; try reflexivity.
  cbn [bind fst snd]. destruct b; [|reflexivity].
  rewrite <- IH. unfold dropLog.
  destruct (runAllL fuel s') as [[x l']| |]; reflexivity.
Qed.

Lemma forEachRunningL_lines now ids : forall m r,
  NoDup (map_keys m) -> NoDup ids ->
  (forall k, In k ids -> In k (map_keys m)) ->
  (forall k t, In (k, t) m -> tid t = k) ->
  forEachRunningL now ids m r
  = r0 <- forEachRunning now ids m r ;;
    Ok (r0, List.map (fun k => LineCompleted k now) (filter (dueAt now m) ids)).
Proof.
  induction ids as [|a rest IH]; intros m r Hnd Hids Hsub Hkey; [reflexivity|].
  cbn [forEachRunningL forEachRunning filter].
  inversion Hids as [|? ? Hni Hrest]; subst.
  assert (Hin : In a (map_keys m)) by (apply Hsub; now left).
  destruct (proj1 (map_get_keys a m) Hin) as [t Ht]. rewrite Ht.
  assert (Hd : dueAt now m a = due now t) by (unfold dueAt; now rewrite Ht).
  rewrite Hd. destruct (due now t) eqn:Hdue.
  - rewrite IH; auto.
    + assert (Hf : filter (dueAt now (map_set a (complete now t) m)) rest
                   = filter (dueAt now m) rest).
      { apply filter_ext_in. intros k Hk. unfold dueAt.
        rewrite map_get_set_other; auto. intros ->. contradiction. }
      rewrite Hf, (Hkey a t (map_get_In _ _ _ Ht)).
      destruct (forEachRunning now rest _ _) as [r0| |]; reflexivity.
    + now apply map_set_NoDup.
    + intros k Hk. rewrite map_keys_set. apply set_has_In in Hin.
      rewrite Hin. apply Hsub. now right.
    + intros k t' Hi. destruct (map_set_In _ _ _ _ Hi) as [Hi'|[= -> ->]].
      * now apply Hkey.
      * simpl. apply (Hkey a t). now apply map_get_In.
  - apply IH; auto. intros k Hk. apply Hsub. now right.
Qed.

Section Printed.

Variable tasks0 : list Task.

Lemma updateRunningTasksL_spec s :
  Inv tasks0 s ->
  updateRunningTasksL s
  = Ok (completionPass s,
        List.map (fun k => LineCompleted k (currentTime s))
          (filter (dueAt (currentTime s) (tasks s)) (runningTasks s))).
Proof.
  intros H. unfold updateRunningTasksL.
  rewrite forEachRunningL_lines.
  - pose proof (Inv_updateRunningTasks tasks0 s H) as Hu.
    unfold updateRunningTasks in Hu.
    destruct (forEachRunning _ _ _ _) as [r0| |]; simpl in Hu; try discriminate.
    apply (f_equal (fun o => match o with Ok x => x | _ => s end)) in Hu.
    cbn [bind fst snd]. now rewrite Hu.
  - now apply (Inv_NoDup_keys tasks0).
  - apply (inv_nodup _ _ H).
  - intros k. now apply (Inv_running_keys tasks0).
  - intros k t Hin.
    destruct (Inv_origin tasks0 s k t H Hin) as [_ [_ [_ [E _]]]]. exact E.
Qed.

Lemma startLoopL_lines fuel : forall s,
  Inv tasks0 s -> (pendingCount (tasks s) < fuel)%nat ->
  startLoopL fuel s
  = s2 <- startLoop fuel s ;;
    Ok (s2, List.map (fun t => LineStarting (tid t) (currentTime s))
              (firstn (Z.to_nat (maxConcurrent s - set_size (runningTasks s)))
                      (getAvailableTasks s))).
Proof.
  induction fuel as [|fuel IH]; intros s H Hlt; [lia|].
  cbn [startLoopL startLoop].
  destruct (set_size (runningTasks s) <? maxConcurrent s) eqn:Hc.
  - destruct (getAvailableTasks s) as [|t0 rest] eqn:Ha.
    + now rewrite firstn_nil.
    + destruct (available_head tasks0 s t0 rest H Ha) as [Hg Hcan].
      destruct (proj1 (canStartTask_true _ _) Hcan) as [t0' [Hg' [Hs _]]].
      assert (t0' = t0) by congruence. subst t0'. clear Hg'.
      destruct (startTask_running tasks0 s t0 H Hg Hs) as [Hr _].
      assert (Hav := available_after_start tasks0 s t0 rest H Ha).
      assert (Hc' := Hc). apply Z.ltb_lt in Hc'.
      assert (Hn : Z.to_nat (maxConcurrent s - set_size (runningTasks s))
                   = S (Z.to_nat (maxConcurrent (startTask s t0)
                                  - set_size (runningTasks (startTask s t0))))).
      { rewrite Hr. unfold set_size. rewrite length_app. simpl.
        unfold set_size in Hc'. lia. }
      rewrite IH.
      * rewrite Hn, Hav. cbn [firstn List.map].
        change (currentTime (startTask s t0)) with (currentTime s).
        destruct (startLoop fuel (startTask s t0)) as [s2| |]; reflexivity.
      * apply (Inv_startTask tasks0 s t0 rest); auto.
      * rewrite (startTask_tasks tasks0 s t0 H Hg).
        pose proof (pendingCount_startEntry_lt (currentTime s) (tid t0) t0
                      (tasks s) (map_get_In _ _ _ Hg) Hs). lia.
  - apply Z.ltb_ge in Hc.
    replace (Z.to_nat (maxConcurrent s - set_size (runningTasks s))) with O by lia.
    reflexivity.
Qed.

End Printed.

Lemma filter_about_map (mk : TaskId -> Line) k ids :
  (forall x, about k (mk x) = String.eqb k x) -> NoDup ids ->
  filter (about k) (List.map mk ids) = if set_has k ids then [mk k] else [].
Proof.
  intros Hmk. induction ids as [|a ids IH]; intros Hnd; [reflexivity|].
  inversion Hnd as [|? ? Hni Hnd']; subst.
  cbn [List.map filter]. rewrite Hmk, (IH Hnd').
  unfold set_has. cbn [existsb]. fold (set_has k ids).
  destruct (String.eqb k a) eqn:E; [|reflexivity].
  apply String.eqb_eq in E. subst a.
  apply set_has_false in Hni. rewrite Hni. reflexivity.
Qed.

Lemma NoDup_firstn {A} n : forall (l : list A), NoDup l -> NoDup (firstn n l).
Proof.
  induction n as [|n IH]; intros [|a l] Hnd; simpl; try constructor.
  - inversion Hnd; subst. intros Hin. apply firstn_subset in Hin. contradiction.
  - inversion Hnd; subst. now apply IH.
Qed.

Section Trace.

Variable tasks0 : list Task.

Lemma nextL_spec s :
  Inv tasks0 s ->
  exists s2,
    startNewTasks (completionPass s) = Ok s2 /\
    next s = Ok (tickEnd s2) /\
    nextL s
    = Ok (tickEnd s2,
          List.map (fun k => LineCompleted k (currentTime s))
            (filter (dueAt (currentTime s) (tasks s)) (runningTasks s))
          ++ List.map (fun t => LineStarting (tid t) (currentTime s))
               (firstn (Z.to_nat (maxConcurrent (completionPass s)
                                  - set_size (runningTasks (completionPass s))))
                       (getAvailableTasks (completionPass s)))).
Proof.
  intros H. assert (H1 := Inv_completionPass tasks0 s H).
  destruct (tick_unfold tasks0 s H) as [s2 [E [Hn _]]].
  exists s2. split; [exact E|]. split; [exact Hn|].
  unfold nextL. rewrite (updateRunningTasksL_spec tasks0 s H).
  cbn [bind fst snd]. unfold startNewTasksL.
  rewrite (startLoopL_lines tasks0).
  - unfold startNewTasks in E. rewrite E. cbn [bind fst snd].
    change (currentTime (completionPass s)) with (currentTime s).
    unfold tickEnd. destruct (0 <? set_size (runningTasks s2)); reflexivity.
  - exact H1.
  - unfold pendingCount.
    pose proof (filter_length_le (fun e => status_eqb (status (snd e)) pending)
                  (tasks (completionPass s))). lia.
Qed.

Lemma tick_Logged s L :
  Inv tasks0 s -> Logged L s ->
  exists s' b l,
    nextL s = Ok (s', b, l) /\ next s = Ok (s', b) /\ Logged (L ++ l) s' /\
    Forall (fun line => exists k now,
              line = LineCompleted k now \/ line = LineStarting k now) l.
Proof.
  intros H HL. assert (H1 := Inv_completionPass tasks0 s H).
  destruct (nextL_spec s H) as [s2 [E [Hn HnL]]].
  destruct (startLoop_closed_form tasks0 (S (List.length (tasks (completionPass s))))
              (completionPass s) H1) as [s2' [E' [_ [_ [_ [_ [S1 S2]]]]]]].
  { unfold pendingCount.
    pose proof (filter_length_le (fun e => status_eqb (status (snd e)) pending)
                  (tasks (completionPass s))). lia. }
  unfold startNewTasks in E. rewrite E in E'.
  apply (f_equal (fun o => match o with Ok x => x | _ => s end)) in E'.
  subst s2'.
  set (now := currentTime s) in *.
  set (dueR := filter (dueAt now (tasks s)) (runningTasks s)) in *.
  set (started := firstn (Z.to_nat (maxConcurrent (completionPass s)
                                    - set_size (runningTasks (completionPass s))))
                         (getAvailableTasks (completionPass s))) in *.
  exists (fst (tickEnd s2)), (snd (tickEnd s2)),
    (List.map (fun k => LineCompleted k now) dueR
     ++ List.map (fun t => LineStarting (tid t) now) started).
  split; [rewrite HnL; now destruct (tickEnd s2)|].
  split; [rewrite Hn; now destruct (tickEnd s2)|].
  assert (Htasks : tasks (fst (tickEnd s2)) = tasks s2)
    by (unfold tickEnd; destruct (0 <? set_size (runningTasks s2)); reflexivity).
  split.
  - intros k. rewrite Htasks, !filter_app, HL.
    rewrite (filter_about_map (fun x => LineCompleted x now) k dueR)
      by (try reflexivity; apply NoDup_filter; apply (inv_nodup _ _ H)).
    assert (Hmm : List.map (fun t => LineStarting (tid t) now) started
                  = List.map (fun x => LineStarting x now) (List.map tid started))
      by (now rewrite map_map).
    rewrite Hmm.
    rewrite (filter_about_map (fun x => LineStarting x now) k (List.map tid started)).
    2: reflexivity.
    2: { unfold started. rewrite <- firstn_map. apply NoDup_firstn.
         now apply (available_NoDup tasks0). }
    destruct (set_has k (List.map tid started)) eqn:Hks.
    + (* started in this tick *)
      apply set_has_In in Hks. apply in_map_iff in Hks.
      destruct Hks as [t1 [Htid Hin1]]. subst k.
      rewrite (S1 t1 Hin1).
      assert (Hav : In t1 (getAvailableTasks (completionPass s)))
        by (eapply firstn_subset; exact Hin1).
      unfold getAvailableTasks in Hav. apply filter_In in Hav.
      destruct Hav as [Hval Hcan].
      apply canStartTask_true in Hcan. destruct Hcan as [t1' [Hg1 [Hp1 _]]].
      assert (t1' = t1).
      { unfold map_values in Hval. apply in_map_iff in Hval.
        destruct Hval as [[k' x] [Hx Hin']]. simpl in Hx. subst x.
        destruct (Inv_origin tasks0 _ k' t1 H1 Hin') as [_ [_ [_ [Hk' _]]]].
        subst k'. apply In_map_get in Hin'.
        - congruence.
        - now apply (Inv_NoDup_keys tasks0). }
      subst t1'.
      assert (Ht1 := inv_times _ _ H1 _ _ Hg1). unfold timesOk in Ht1.
      rewrite Hp1 in Ht1. destruct Ht1 as [Hs1 He1].
      rewrite completionPass_get in Hg1.
      destruct (map_get (tid t1) (tasks s)) as [t|] eqn:Hg; [|discriminate Hg1].
      simpl in Hg1.
      destruct (set_has (tid t1) (runningTasks s) && due (currentTime s) t) eqn:Ec.
      * injection Hg1 as Hc. rewrite <- Hc in Hp1. discriminate Hp1.
      * injection Hg1 as ->.
        assert (Hnd : set_has (tid t1) dueR = false).
        { apply set_has_false. intros Hd. unfold dueR in Hd.
          apply filter_In in Hd. destruct Hd as [Hr Hd].
          unfold dueAt in Hd. rewrite Hg in Hd. apply set_has_In in Hr.
          fold now in Ec. rewrite Hr, Hd in Ec. discriminate Ec. }
        rewrite Hnd. unfold linesOf. simpl. rewrite Hs1, He1. reflexivity.
    + (* not started in this tick *)
      rewrite S2 by (now apply set_has_false).
      rewrite completionPass_get. rewrite app_nil_r.
      destruct (map_get k (tasks s)) as [t|] eqn:Hg.
      * simpl. assert (Hd : dueAt now (tasks s) k = due now t)
          by (unfold dueAt; now rewrite Hg).
        destruct (set_has k dueR) eqn:Hkd.
        -- apply set_has_In in Hkd. unfold dueR in Hkd. apply filter_In in Hkd.
           destruct Hkd as [Hr Hdue]. rewrite Hd in Hdue.
           assert (Hrun := Hr). apply (inv_running _ _ H) in Hrun.
           destruct Hrun as [t' [Hg' Hs]]. assert (t' = t) by congruence. subst t'.
           apply set_has_In in Hr. fold now. rewrite Hr, Hdue. simpl.
           assert (Ht := inv_times _ _ H _ _ Hg). unfold timesOk in Ht.
           rewrite Hs in Ht. destruct Ht as [st [Hst [_ He]]].
           unfold linesOf. simpl. rewrite Hst, He. reflexivity.
        -- apply set_has_false in Hkd.
           assert (Hc : set_has k (runningTasks s) && due now t = false).
           { destruct (set_has k (runningTasks s)) eqn:Hr; auto. simpl.
             destruct (due now t) eqn:Hdue; auto. exfalso. apply Hkd.
             unfold dueR. apply filter_In. split; [now apply set_has_In|].
             now rewrite Hd. }
           fold now. rewrite Hc, app_nil_r. reflexivity.
      * simpl. destruct (set_has k dueR) eqn:Hkd; [|reflexivity].
        exfalso. apply set_has_In in Hkd. unfold dueR in Hkd.
        apply filter_In in Hkd. destruct Hkd as [Hr _].
        apply (inv_running _ _ H) in Hr. destruct Hr as [t [Hg' _]]. congruence.
  - apply Forall_app. split; apply Forall_forall; intros line Hin;
      apply in_map_iff in Hin; destruct Hin as [x [<- _]]; eauto.
Qed.

End Trace.

Section RunLog.

Variable tasks0 : list Task.
Variable mc : Z.

Lemma runAllL_Logged fuel : forall s L s' l,
  reachable tasks0 mc (TickStart, s) -> Logged L s ->
  runAllL fuel s = Ok (s', l) ->
  exists lt,
    l = lt ++ printWorkflowSummary s' /\ Logged (L ++ lt) s' /\
    Forall (fun line => exists k now,
              line = LineCompleted k now \/ line = LineStarting k now) lt.
Proof.
  induction fuel as [|fuel IH]; intros s L s' l Hr HL Hrun; [discriminate Hrun|].
  destruct (tick_Logged tasks0 s L (reachable_Inv tasks0 mc _ Hr) HL)
    as [s1 [b [l1 [HnL [Hn [HL1 Hf1]]]]]].
  cbn [runAllL] in Hrun. rewrite HnL in Hrun. cbn [bind fst snd] in Hrun.
  destruct b.
  - destruct (runAllL fuel s1) as [[s2 l2]| |] eqn:E; try discriminate Hrun.
    cbn [bind fst snd] in Hrun. injection Hrun as <- <-.
    destruct (IH s1 (L ++ l1) s2 l2) as [lt [-> [HL2 Hf2]]]; auto.
    { exact (proj2 (next_reachable tasks0 mc s s1 true Hr Hn)). }
    exists (l1 ++ lt). rewrite <- !app_assoc in *.
    repeat split; auto. apply Forall_app. auto.
  - injection Hrun as <- <-. exists l1. repeat split; auto.
Qed.

End RunLog.

(** X16: a tick taken from a state a run reaches prints, stamped with the
    time at which the tick starts, one "completed" line for each running
    task that is due, in the order of the running set, and then one
    "Starting" line for each task it starts, in the order in which they
    join the running set; printing does not change the state or the
    flag. *)
Theorem tick_prints tasks0 mc s :
  reachable tasks0 mc (TickStart, s) ->
  exists s' b startedNow,
    next s = Ok (s', b) /\
    nextL s
    = Ok (s', b,
          List.map (fun k => LineCompleted k (currentTime s))
            (filter (dueAt (currentTime s) (tasks s)) (runningTasks s))
          ++ List.map (fun k => LineStarting k (currentTime s)) startedNow) /\
    runningTasks s'
    = filter (fun k => negb (dueAt (currentTime s) (tasks s) k)) (runningTasks s)
      ++ startedNow.
Proof.
  intros Hr. assert (H := reachable_Inv tasks0 mc _ Hr). simpl in H.
  assert (H1 := Inv_completionPass tasks0 s H).
  destruct (nextL_spec tasks0 s H) as [s2 [E [Hn HnL]]].
  destruct (startLoop_closed_form tasks0 (S (List.length (tasks (completionPass s))))
              (completionPass s) H1) as [s2' [E' [_ [_ [R _]]]]].
  { unfold pendingCount.
    pose proof (filter_length_le (fun e => status_eqb (status (snd e)) pending)
                  (tasks (completionPass s))). lia. }
  unfold startNewTasks in E. rewrite E in E'.
  apply (f_equal (fun o => match o with Ok x => x | _ => s end)) in E'.
  subst s2'.
  exists (fst (tickEnd s2)), (snd (tickEnd s2)),
    (List.map tid
       (firstn (Z.to_nat (maxConcurrent (completionPass s)
                          - set_size (runningTasks (completionPass s))))
               (getAvailableTasks (completionPass s)))).
  split; [rewrite Hn; now destruct (tickEnd s2)|]. split.
  - rewrite HnL, map_map. now destruct (tickEnd s2).
  - assert (Hrs : runningTasks (fst (tickEnd s2)) = runningTasks s2)
      by (unfold tickEnd; destruct (0 <? set_size (runningTasks s2)); reflexivity).
    rewrite Hrs, R. reflexivity.
Qed.

Lemma tick_prints_witness :
  reachable tasks_2 2 (TickStart, after 3 initialState) /\
  option_map (fun r => console (snd r)) 
    (match nextL (after 3 initialState) with Ok r => Some r | _ => None end)
  = Some ["Task A completed at time 3"; "Starting task B at time 3";
          "Starting task C at time 3"] /\
  exists s' b startedNow,
    next (after 3 initialState) = Ok (s', b) /\
    runningTasks s'
    = filter (fun k => negb (dueAt (currentTime (after 3 initialState))
                               (tasks (after 3 initialState)) k))
             (runningTasks (after 3 initialState))
      ++ startedNow.
Proof.
  assert (Hr : reachable tasks_2 2 (TickStart, after 3 initialState))
    by (apply after_reachable; apply rt_refl).
  split; [exact Hr|]. split; [vm_compute; reflexivity|].
  destruct (tick_prints tasks_2 2 _ Hr) as [s' [b [st [Hn [_ Hrun]]]]].
  exists s', b, st. split; [exact Hn | exact Hrun].
Defined.

(** X17: when [runAll] returns, what it has printed is the lines of the
    ticks followed by the summary.  Among the lines of the ticks each task
    of the map has exactly two, its "Starting" line and after it its
    "completed" line, stamped with the start and end times recorded in the
    final state, and no line is about an identifier outside the map.  The
    summary shows no [null]. Printing changes nothing of the result. *)
Theorem run_prints tasks0 mc fuel s' l :
  runAllL fuel (initializeWorkflow tasks0 mc) = Ok (s', l) ->
  runAll fuel (initializeWorkflow tasks0 mc) = Ok s' /\
  exists lt,
    l = lt ++ printWorkflowSummary s' /\
    Forall (fun line => exists k now,
              line = LineCompleted k now \/ line = LineStarting k now) lt /\
    (forall k, map_get k (tasks s') = None -> filter (about k) lt = []) /\
    (forall k t, map_get k (tasks s') = Some t ->
       exists st e, startTime t = Some st /\ endTime t = Some e /\
         filter (about k) lt = [LineStarting k st; LineCompleted k e]) /\
    (forall k st e d, In (LineSummaryTask k st e d) (printWorkflowSummary s') ->
       st <> None /\ e <> None).
Proof.
  intros HrunL.
  assert (Hrun : runAll fuel (initializeWorkflow tasks0 mc) = Ok s').
  { rewrite <- runAllL_drop, HrunL. reflexivity. }
  split; [exact Hrun|].
  assert (Hr : reachable tasks0 mc (Stopped, s')).
  { apply (runAll_reachable tasks0 mc fuel (initializeWorkflow tasks0 mc)); auto.
    apply rt_refl. }
  assert (H := reachable_Inv tasks0 mc _ Hr). simpl in H.
  assert (Hnd := Inv_NoDup_keys tasks0 s' H).
  destruct (reachable_Stopped tasks0 mc s' Hr) as [Hu _].
  apply allCompleted_hasUnfinishedTasks in Hu; auto.
  assert (Htimes : forall k t, map_get k (tasks s') = Some t ->
            exists st e, startTime t = Some st /\ endTime t = Some e).
  { intros k t Hg. assert (Ht := inv_times _ _ H k t Hg). unfold timesOk in Ht.
    rewrite (Hu k t Hg) in Ht. destruct Ht as [st [e [E1 [E2 _]]]]. eauto. }
  destruct (runAllL_Logged tasks0 mc fuel (initializeWorkflow tasks0 mc) []
              s' l (rt_refl _ _ _)) as [lt [Hl [HL Hf]]]; auto.
  { intros k. simpl. destruct (map_get k _) as [t|] eqn:Hg; auto.
    initial_entry Hg. reflexivity. }
  exists lt. split; [exact Hl|]. split; [exact Hf|]. simpl in HL.
  split; [|split].
  - intros k Hg. rewrite (HL k), Hg. reflexivity.
  - intros k t Hg. destruct (Htimes k t Hg) as [st [e [E1 E2]]].
    exists st, e. repeat split; auto.
    rewrite (HL k), Hg. unfold linesOf. now rewrite E1, E2.
  - intros k st e d Hin. unfold printWorkflowSummary in Hin.
    rewrite !in_app_iff in Hin.
    destruct Hin as [[Hin|[Hin|[]]]|[Hin|[Hin|[]]]]; try discriminate Hin.
    apply in_map_iff in Hin. destruct Hin as [t [Heq Hin]].
    injection Heq as _ <- <- _.
    unfold map_values in Hin. apply in_map_iff in Hin.
    destruct Hin as [[k' t'] [E Hin]]. simpl in E. subst t'.
    apply In_map_get in Hin; auto.
    destruct (Htimes k' t Hin) as [st' [e' [E1 E2]]].
    rewrite E1, E2. split; discriminate.
Qed.

Lemma run_prints_witness :
  exists s' l,
    runAllL 11 (initializeWorkflow tasks_2 2) = Ok (s', l) /\
    runAll 11 (initializeWorkflow tasks_2 2) = Ok s' /\
    List.length l = 18%nat.
Proof.
  destruct (runAllL 11 (initializeWorkflow tasks_2 2)) as [[s' l]|e|] eqn:E.
  - exists s', l. split; [reflexivity|]. split.
    + exact (proj1 (run_prints tasks_2 2 11%nat s' l E)).
    + vm_compute in E. injection E as _ <-. reflexivity.
  - vm_compute in E. discriminate E.
  - vm_compute in E. discriminate E.
Defined.

(** ** The total time is the last end time *)

Section LastEnd.

Variable tasks0 : list Task.
Variable mc : Z.

Lemma reachable_last_end c :
  reachable tasks0 mc c ->
  (currentTime (snd c) = 0 /\
   (forall k t, map_get k (tasks (snd c)) = Some t -> status t <> completed) /\
   (fst c <> Admitting -> runningTasks (snd c) = [])) \/
  (0 < currentTime (snd c) /\
   (runningTasks (snd c) <> [] \/
    exists k t, map_get k (tasks (snd c)) = Some t /\
                endTime t = Some (currentTime (snd c)))).
Proof.
  intros Hr. unfold reachable in Hr. apply clos_rt_rtn1 in Hr.
  induction Hr as [|c1 c2 Hstep Hs IH].
  - left. simpl. repeat split; auto.
    intros k t Hg. initial_entry Hg. discriminate.
  - assert (Hr1 : reachable tasks0 mc c1) by now apply clos_rtn1_rt.
    assert (H := reachable_Inv tasks0 mc c1 Hr1).
    destruct Hstep as [s s' Hu|s t0 rest Hlt Ha|s Hexit Hrun|s Hexit Hrun Hf|s Hexit Hrun Hf];
      simpl in *.
    + rewrite (Inv_updateRunningTasks tasks0 s H) in Hu.
      apply (f_equal (fun o => match o with Ok x => x | _ => s end)) in Hu.
      subst s'.
      destruct IH as [[T0 [Hnc HR]]|[Tpos Hcase]].
      * left. split; [exact T0|]. split; [|intros Hne; now elim Hne].
        intros k t'. rewrite completionPass_get.
        rewrite HR by discriminate. simpl.
        destruct (map_get k (tasks s)) as [t|] eqn:Hg; simpl; [|discriminate].
        intros [= <-]. now apply (Hnc k).
      * right. split; [exact Tpos|].
        destruct Hcase as [HR|[k [t [Hg He]]]].
        -- destruct (runningTasks s) as [|k r] eqn:ER; [now elim HR|].
           assert (Hk : In k (runningTasks s)) by (rewrite ER; now left).
           destruct (proj1 (inv_running _ _ H k) Hk) as [t [Hg Hst]].
           destruct (due (currentTime s) t) eqn:Hd.
           ++ right. exists k, (complete (currentTime s) t).
              rewrite completionPass_get, Hg. simpl.
              apply set_has_In in Hk. rewrite Hk, Hd. auto.
           ++ left. simpl. intros Hnil.
              assert (Hin : In k (filter (fun k => negb (dueAt (currentTime s)
                                                     (tasks s) k))
                                   (runningTasks s))).
              { apply filter_In. split; auto. unfold dueAt.
                now rewrite Hg, Hd. }
              rewrite Hnil in Hin. destruct Hin.
        -- right. exists k, t. split; auto.
           rewrite completionPass_get, Hg. simpl.
           assert (Hst : status t = completed).
           { assert (Ht := inv_times _ _ H k t Hg). unfold timesOk in Ht.
             destruct (status t); auto.
             - destruct Ht. congruence.
             - destruct Ht as [st [_ [_ E]]]. congruence. }
           rewrite (Inv_set_has_running tasks0 s k t H Hg), Hst. reflexivity.
    + destruct (available_head tasks0 s t0 rest H Ha) as [Hg0 Hcan].
      destruct (proj1 (canStartTask_true _ _) Hcan) as [t0' [Hg' [Hp _]]].
      assert (t0' = t0) by congruence. subst t0'.
      destruct (startTask_running tasks0 s t0 H Hg0 Hp) as [HR' _].
      change (map_set (tid t0) (start (currentTime s) t0) (tasks s))
        with (tasks (startTask s t0)).
      change (set_add (tid t0) (runningTasks s))
        with (runningTasks (startTask s t0)).
      destruct IH as [[T0 [Hnc HR]]|[Tpos Hcase]].
      * left. split; [exact T0|]. split; [|intros Hne; now elim Hne].
        intros k t. rewrite startTask_get.
        destruct (String.eqb k (tid t0)).
        -- intros [= <-]. discriminate.
        -- apply Hnc.
      * right. split; [exact Tpos|].
        destruct Hcase as [HR|[k [t [Hg He]]]].
        -- left. rewrite HR'. destruct (runningTasks s); discriminate.
        -- right. exists k, t. split; auto. rewrite startTask_get.
           destruct (String.eqb k (tid t0)) eqn:E; auto.
           apply String.eqb_eq in E. subst k.
           assert (t = t0) by congruence. subst t.
           assert (Ht := inv_times _ _ H _ _ Hg0). unfold timesOk in Ht.
           rewrite Hp in Ht. destruct Ht. congruence.
    + right.
      assert (HR : runningTasks s <> [])
        by (destruct (runningTasks s); [discriminate Hrun | discriminate]).
      pose proof (steps_currentTime _ _ Hr1) as Hmono. simpl in Hmono.
      split; [lia | left; exact HR].
    + assert (HR : runningTasks s = [])
        by (destruct (runningTasks s); [reflexivity | discriminate Hrun]).
      destruct IH as [[T0 [Hnc _]]|[Tpos Hcase]].
      * left. repeat split; auto.
      * right. split; [exact Tpos | exact Hcase].
    + assert (HR : runningTasks s = [])
        by (destruct (runningTasks s); [reflexivity | discriminate Hrun]).
      destruct IH as [[T0 [Hnc _]]|[Tpos Hcase]].
      * left. repeat split; auto.
      * right. split; [exact Tpos | exact Hcase].
Qed.

End LastEnd.

(** X18: when [runAll] returns, no end time is later than the final time,
    and unless the task list is empty the final time is positive and is
    the end time of some task: the total time reported is the time at which
    the last task completed.  On the empty list the final time is 0. *)
Theorem total_time_is_last_end tasks0 mc fuel s' :
  runAll fuel (initializeWorkflow tasks0 mc) = Ok s' ->
  (forall k t e, map_get k (tasks s') = Some t -> endTime t = Some e ->
     e <= currentTime s') /\
  ((tasks0 = [] /\ currentTime s' = 0) \/
   (0 < currentTime s' /\
    exists k t, map_get k (tasks s') = Some t /\
                endTime t = Some (currentTime s'))).
Proof.
  intros Hrun.
  assert (Hr : reachable tasks0 mc (Stopped, s')).
  { apply (runAll_reachable tasks0 mc fuel (initializeWorkflow tasks0 mc)); auto.
    apply rt_refl. }
  assert (H := reachable_Inv tasks0 mc _ Hr). simpl in H.
  assert (Hnd := Inv_NoDup_keys tasks0 s' H).
  destruct (reachable_Stopped tasks0 mc s' Hr) as [Hu HR].
  apply allCompleted_hasUnfinishedTasks in Hu; auto.
  split.
  - intros k t e Hg He. assert (Ht := inv_times _ _ H k t Hg).
    unfold timesOk in Ht. rewrite (Hu k t Hg) in Ht.
    destruct Ht as [st [e' [_ [E [_ Hle]]]]]. congruence.
  - destruct (reachable_last_end tasks0 mc _ Hr) as [[T0 [Hnc _]]|[Tpos Hcase]];
      simpl in *.
    + left. split; auto. destruct tasks0 as [|task l]; auto. exfalso.
      assert (Hk : In (id task) (map_keys (tasks s'))).
      { rewrite (static_keys _ _ (inv_static _ _ H)).
        apply initialTasks_keys. now left. }
      apply map_get_keys in Hk. destruct Hk as [t Hg].
      exact (Hnc _ t Hg (Hu _ t Hg)).
    + right. split; auto. destruct Hcase as [Hc|Hc]; auto. now elim Hc.
Qed.

Lemma total_time_is_last_end_witness :
  exists s',
    runAll 11 (initializeWorkflow tasks_2 2) = Ok s' /\
    ((tasks_2 = [] /\ currentTime s' = 0) \/
     (0 < currentTime s' /\
      exists k t, map_get k (tasks s') = Some t /\
                  endTime t = Some (currentTime s'))).
Proof.
  destruct (runAll 11 (initializeWorkflow tasks_2 2)) as [s'|e|] eqn:E.
  - exists s'. split; [reflexivity|].
    exact (proj2 (total_time_is_last_end tasks_2 2 11%nat s' E)).
  - vm_compute in E. discriminate E.
  - vm_compute in E. discriminate E.
Defined.

(** ** Chains of dependencies *)

Section Chains.

Variable tasks0 : list Task.
Variable mc : Z.

Lemma reachable_start_nonneg c :
  reachable tasks0 mc c ->
  0 <= currentTime (snd c) /\
  forall k t st, map_get k (tasks (snd c)) = Some t ->
                 startTime t = Some st -> 0 <= st.
Proof.
  intros Hr. unfold reachable in Hr. apply clos_rt_rtn1 in Hr.
  induction Hr as [|c1 c2 Hstep Hs [IH0 IH]].
  - simpl. split; [lia|]. intros k t st Hg. initial_entry Hg. discriminate.
  - assert (Hr1 : reachable tasks0 mc c1) by now apply clos_rtn1_rt.
    assert (H := reachable_Inv tasks0 mc c1 Hr1).
    destruct Hstep as [s s' Hu|s t0 rest Hlt Ha|s _ _|s _ _ _|s _ _ _];
      simpl in *; try (split; [lia | exact IH]).
    + rewrite (Inv_updateRunningTasks tasks0 s H) in Hu.
      apply (f_equal (fun o => match o with Ok x => x | _ => s end)) in Hu.
      subst s'. split; [exact IH0|].
      intros k t' st. rewrite completionPass_get.
      destruct (map_get k (tasks s)) as [t|] eqn:Hg; simpl; [|discriminate].
      intros [= <-] Hst. apply (IH k t st Hg).
      destruct (set_has k (runningTasks s) && due (currentTime s) t); exact Hst.
    + split; [exact IH0|]. intros k t st.
      change (map_set (tid t0) (start (currentTime s) t0) (tasks s))
        with (tasks (startTask s t0)).
      rewrite startTask_get. destruct (String.eqb k (tid t0)).
      * intros [= <-] [= <-]. exact IH0.
      * apply IH.
Qed.

Lemma chain_before_start c :
  reachable tasks0 mc c ->
  forall l a t st,
    chain (dependsOn (snd c)) a l ->
    map_get a (tasks (snd c)) = Some t -> startTime t = Some st ->
    sumZ (List.map (occupancy (snd c)) l) <= st.
Proof.
  intros Hr. assert (H := reachable_Inv tasks0 mc c Hr).
  assert (HT := reachable_Timing tasks0 mc c Hr).
  destruct (reachable_start_nonneg c Hr) as [_ Hnn].
  induction l as [|b l IH]; intros a t st Hc Hg Hst.
  - simpl. exact (Hnn a t st Hg Hst).
  - destruct Hc as [[ta [Hga Hd]] Hc]. assert (ta = t) by congruence. subst ta.
    assert (Hnp : status t <> pending).
    { intros Hp. assert (Ht := inv_times _ _ H a t Hg). unfold timesOk in Ht.
      rewrite Hp in Ht. destruct Ht. congruence. }
    destruct (inv_deps _ _ H a t b Hg Hnp Hd)
      as [tb [e [st' [Hgb [Hcb [He [Hst' Hle]]]]]]].
    assert (st' = st) by congruence. subst st'.
    assert (Htb := inv_times _ _ H b tb Hgb). unfold timesOk in Htb.
    rewrite Hcb in Htb. destruct Htb as [sb [e' [Hsb [He' _]]]].
    assert (e' = e) by congruence. subst e'.
    specialize (HT b tb Hgb). unfold timingOk in HT. rewrite Hcb in HT.
    specialize (HT sb e Hsb He).
    specialize (IH b tb sb Hc Hgb Hsb).
    cbn [List.map sumZ fold_right]. fold (sumZ (List.map (occupancy (snd c)) l)).
    unfold occupancy at 1. rewrite Hgb. lia.
Qed.

End Chains.

(** X19: in every reachable state, along a chain of tasks in which each
    depends on the next, the time units the tasks of the chain hold a slot
    for (the duration, at least 1 each) add up to at most the end time of
    the task at the head of the chain, hence to at most the current time:
    the total time is at least the length of every dependency chain. *)
Theorem dependency_chain_lower_bound tasks0 mc c a l t e :
  reachable tasks0 mc c ->
  chain (dependsOn (snd c)) a l ->
  map_get a (tasks (snd c)) = Some t -> endTime t = Some e ->
  sumZ (List.map (occupancy (snd c)) (a :: l)) <= e /\
  e <= currentTime (snd c).
Proof.
  intros Hr Hc Hg He. assert (H := reachable_Inv tasks0 mc c Hr).
  assert (Ht := inv_times _ _ H a t Hg). unfold timesOk in Ht.
  destruct (status t) eqn:Hs.
  - destruct Ht. congruence.
  - destruct Ht as [st [_ [_ E]]]. congruence.
  - destruct Ht as [st [e' [Hst [He' [_ Hle]]]]].
    assert (e' = e) by congruence. subst e'. split; [|exact Hle].
    pose proof (chain_before_start tasks0 mc c Hr l a t st Hc Hg Hst) as Hsum.
    pose proof (reachable_Timing tasks0 mc c Hr a t Hg) as HT.
    unfold timingOk in HT. rewrite Hs in HT. specialize (HT st e Hst He).
    cbn [List.map sumZ fold_right]. fold (sumZ (List.map (occupancy (snd c)) l)).
    unfold occupancy at 1. rewrite Hg. lia.
Qed.

Lemma dependency_chain_lower_bound_witness :
  reachable tasks_2 2 (TickStart, after 10 initialState) /\
  chain (dependsOn (after 10 initialState)) "D" ["B"; "A"] /\
  sumZ (List.map (occupancy (after 10 initialState)) ["D"; "B"; "A"]) = 9 /\
  (sumZ (List.map (occupancy (after 10 initialState)) ["D"; "B"; "A"]) <= 9 /\
   9 <= currentTime (after 10 initialState)).
Proof.
  assert (Hr : reachable tasks_2 2 (TickStart, after 10 initialState))
    by (apply after_reachable; apply rt_refl).
  assert (HD : map_get "D" (tasks (after 10 initialState))
               = Some (mkTaskState "D" 4 ["B"; "C"] completed (Some 5) (Some 9)))
    by (vm_compute; reflexivity).
  assert (HB : map_get "B" (tasks (after 10 initialState))
               = Some (mkTaskState "B" 2 ["A"] completed (Some 3) (Some 5)))
    by (vm_compute; reflexivity).
  assert (Hc : chain (dependsOn (after 10 initialState)) "D" ["B"; "A"]).
  { cbn [chain]. split; [|split; [|exact I]].
    - eexists. split; [exact HD|]. cbn [tdeps In]. auto.
    - eexists. split; [exact HB|]. cbn [tdeps In]. auto. }
  split; [exact Hr|]. split; [exact Hc|]. split; [vm_compute; reflexivity|].
  exact (dependency_chain_lower_bound tasks_2 2 _ "D" ["B"; "A"]
           (mkTaskState "D" 4 ["B"; "C"] completed (Some 5) (Some 9)) 9
           Hr Hc HD eq_refl).
Defined.
